(** * Vacancy scraping pipeline: a model of [vacancy_func.py] and its properties

    The development embeds the scraping, classification and aggregation
    functions of [src/vacancy_func.py].  Python values are modelled as the
    code has them: a [str] is a list of Unicode code points, an [int] is a
    [Z], a [float] is a binary64 value, a raised exception is the right
    injection of a sum.  The HTTP transport, the HTML tree builder and the
    pandas table are external collaborators: a response is modelled by its
    status code and by the elements the selectors of the code pick out of
    the parsed page, a table by the list of its rows.  Console output
    ([print]) has no functional effect and is left out. *)

From Stdlib Require Import List ZArith NArith QArith Bool Lia Arith.
From Stdlib Require Import Ascii String DecimalString.
From Stdlib Require Import SpecFloat.
Import ListNotations.
Close Scope Q_scope.
Open Scope nat_scope.
Open Scope list_scope.

Set Implicit Arguments.

(** ** Python strings *)

(** A Python [str] is a sequence of Unicode code points. *)
Definition str := list N.

Definition str_eq_dec : forall a b : str, {a = b} + {a <> b} :=
  list_eq_dec N.eq_dec.

Definition str_eqb (a b : str) : bool :=
  if str_eq_dec a b then true else false.

(** String literals are written in the source encoding (UTF-8) and decoded
    to code points by [u], so that the patterns and labels below read as in
    the Python file. *)
Fixpoint utf8_decode (bs : list N) (need : nat) (acc : N) : str :=
  match bs with
  | [] => []
  | b :: bs' =>
      match need with
      | O =>
          if (b <? 128)%N then b :: utf8_decode bs' 0 0%N
          else if (b <? 224)%N then utf8_decode bs' 1 (b - 192)%N
          else if (b <? 240)%N then utf8_decode bs' 2 (b - 224)%N
          else utf8_decode bs' 3 (b - 240)%N
      | S k =>
          let acc' := (acc * 64 + (b - 128))%N in
          match k with
          | O => acc' :: utf8_decode bs' 0 0%N
          | S _ => utf8_decode bs' k acc'
          end
      end
  end.

Definition u (s : string) : str :=
  utf8_decode (map N_of_ascii (list_ascii_of_string s)) 0 0%N.

(** Exceptions the modelled code can raise. *)
Inductive exn : Type :=
| KeyError
| ValueError
| ZeroDivisionError
| OverflowError
| AttributeError
| TypeError.

Definition result (A : Type) : Type := (A + exn)%type.
Definition ret {A : Type} (a : A) : result A := inl a.
Definition raise {A : Type} (e : exn) : result A := inr e.
Definition bind {A B : Type} (m : result A) (k : A -> result B) : result B :=
  match m with
  | inl a => k a
  | inr e => inr e
  end.

Notation "x <- m ;; k" := (bind m (fun x => k))
  (at level 61, m at next level, right associativity).

(** ** The Unicode character database

    Case mapping and character classes are fixed here for Basic Latin and
    for the Cyrillic block U+0400..U+045F, the alphabets of the patterns of
    this program.  For every other code point they are whatever the
    interpreter's Unicode tables say: those tables are a parameter, and
    every result below holds for all of them. *)
Record unicode_db : Type := {
  lower_ext : N -> N;            (* simple lowercase mapping *)
  cased_ext : N -> bool;         (* has a case variant *)
  alnum_ext : N -> bool;         (* str.isalnum *)
  digit_ext : N -> option N;     (* value of a decimal digit *)
  casefix_ext : N -> list N      (* sre's extra lowercase equivalents *)
}.

(** A table for evaluating texts written in the basic alphabets only. *)
Definition plain_unicode : unicode_db :=
  {| lower_ext := fun c => c;
     cased_ext := fun _ => false;
     alnum_ext := fun _ => false;
     digit_ext := fun _ => None;
     casefix_ext := fun _ => [] |}.

Definition in_range (lo hi c : N) : bool := ((lo <=? c) && (c <=? hi))%N.

Definition is_ascii (c : N) : bool := (c <? 128)%N.
Definition is_basic_cyrillic (c : N) : bool := in_range 1024 1119 c.
Definition is_basic (c : N) : bool := is_ascii c || is_basic_cyrillic c.

Definition ascii_lower (c : N) : N :=
  if in_range 65 90 c then (c + 32)%N else c.

Definition ascii_letter (c : N) : bool := in_range 65 90 c || in_range 97 122 c.
Definition ascii_digit (c : N) : bool := in_range 48 57 c.

Section Unicode.
  Variable U : unicode_db.

(** [Py_UNICODE_TOLOWER]. *)
Definition unicode_tolower (c : N) : N :=
  if is_ascii c then ascii_lower c
  else if in_range 1024 1039 c then (c + 80)%N
  else if in_range 1040 1071 c then (c + 32)%N
  else if in_range 1072 1119 c then c
  else lower_ext U c.

(** [_sre.unicode_iscased]. *)
Definition unicode_iscased (c : N) : bool :=
  if is_ascii c then ascii_letter c
  else if is_basic_cyrillic c then true
  else cased_ext U c.

(** [str.isalnum] of one character. *)
Definition unicode_isalnum (c : N) : bool :=
  if is_ascii c then ascii_letter c || ascii_digit c
  else if is_basic_cyrillic c then true
  else alnum_ext U c.

(** Decimal digits ([\d], [int]). *)
Definition unicode_digit (c : N) : option N :=
  if is_ascii c then (if ascii_digit c then Some (c - 48)%N else None)
  else if is_basic_cyrillic c then None
  else digit_ext U c.

Definition unicode_isdigit (c : N) : bool :=
  match unicode_digit c with Some _ => true | None => false end.

(** The lowercase code points sre treats as equal to [lo] besides [lo]
    itself ([_ignorecase_fixes]); no two distinct letters of the basic
    alphabets are paired. *)
Definition in_casefixes (lo x : N) : bool :=
  if is_basic lo && is_basic x then false
  else existsb (N.eqb x) (casefix_ext U lo).

(** A pattern literal [c] against a subject character [ch]. *)
Definition lit_match (icase : bool) (c ch : N) : bool :=
  if icase && unicode_iscased c then
    let lo := unicode_tolower c in
    let x := unicode_tolower ch in
    (x =? lo)%N || in_casefixes lo x
  else (ch =? c)%N.

(** [\w]. *)
Definition is_word (c : N) : bool := (c =? 95)%N || unicode_isalnum c.
End Unicode.

(** [\s] / [str.isspace]. *)
Definition is_space (c : N) : bool :=
  in_range 9 13 c || in_range 28 32 c || (c =? 133)%N || (c =? 160)%N
  || (c =? 5760)%N || in_range 8192 8202 c || (c =? 8232)%N || (c =? 8233)%N
  || (c =? 8239)%N || (c =? 8287)%N || (c =? 12288)%N.

(** ** Regular expressions ([re])

    The fragment of Python's pattern language the program uses.  Matching
    is the backtracking search of [sre]: [run] returns the states the
    engine can finish in, in the order in which backtracking finds them
    (greedy repetition first, alternatives left to right), so the head of
    the list is the match Python reports. *)
Inductive set_item : Type :=
| SChar (c : N)              (* a character *)
| SRange (lo hi : N)         (* lo-hi *)
| SDigit                     (* \d *)
| SSpace.                    (* \s *)

Inductive regex : Type :=
| Empty
| Lit (c : N)                (* a literal character *)
| AnyChar                    (* .  (no DOTALL: anything but a newline) *)
| InSet (items : list set_item)   (* [...] *)
| Boundary                   (* \b *)
| Seq (a b : regex)
| Alt (a b : regex)          (* a|b *)
| Star (a : regex)           (* a*, greedy *)
| Plus (a : regex)           (* a+, greedy *)
| Group (n : nat) (a : regex).    (* the n-th capturing group *)

(** The literal string [w]. *)
Fixpoint lits (w : str) : regex :=
  match w with
  | [] => Empty
  | c :: w' => Seq (Lit c) (lits w')
  end.

(** A state of the matcher: the character before the cursor (for [\b]),
    the subject text from the cursor on, and the groups captured so far
    (latest first). *)
Record mstate : Type := {
  m_prev : option N;
  m_rest : str;
  m_groups : list (nat * str)
}.

Definition advance (st : mstate) (c : N) (rest' : str) : mstate :=
  {| m_prev := Some c; m_rest := rest'; m_groups := m_groups st |}.

(** One character, when it satisfies [test]. *)
Definition step (test : N -> bool) (st : mstate) : list mstate :=
  match m_rest st with
  | c :: rest' => if test c then [advance st c rest'] else []
  | [] => []
  end.

Definition consumed (st st' : mstate) : nat :=
  List.length (m_rest st) - List.length (m_rest st').

Definition matched_text (st st' : mstate) : str :=
  firstn (consumed st st') (m_rest st).

Definition set_group (n : nat) (st st' : mstate) : mstate :=
  {| m_prev := m_prev st'; m_rest := m_rest st';
     m_groups := (n, matched_text st st') :: m_groups st' |}.

(** Greedy repetition: as many iterations as possible first.  An iteration
    that consumes nothing is not repeated. *)
Fixpoint star_loop (body : mstate -> list mstate) (fuel : nat) (st : mstate)
  : list mstate :=
  match fuel with
  | O => [st]
  | S f =>
      flat_map
        (fun st' =>
           if List.length (m_rest st') <? List.length (m_rest st)
           then star_loop body f st' else [])
        (body st)
      ++ [st]
  end.

Section Matcher.
  Variable U : unicode_db.
  Variable icase : bool.       (* re.IGNORECASE *)

(** Sets are matched as written: under IGNORECASE sre compiles a set
    without cased characters to the plain test, and the only sets this
    program matches under that flag are sets of digits. *)
Definition item_match (it : set_item) (c : N) : bool :=
  match it with
  | SChar x => (c =? x)%N
  | SRange lo hi => in_range lo hi c
  | SDigit => unicode_isdigit U c
  | SSpace => is_space c
  end.

Definition set_match (items : list set_item) (c : N) : bool :=
  existsb (fun it => item_match it c) items.

Definition word_before (st : mstate) : bool :=
  match m_prev st with Some c => is_word U c | None => false end.

Definition word_after (st : mstate) : bool :=
  match m_rest st with c :: _ => is_word U c | [] => false end.

Definition at_boundary (st : mstate) : bool :=
  negb (Bool.eqb (word_before st) (word_after st)).

Fixpoint run (r : regex) (st : mstate) : list mstate :=
  match r with
  | Empty => [st]
  | Lit c => step (lit_match U icase c) st
  | AnyChar => step (fun ch => negb (ch =? 10)%N) st
  | InSet items => step (set_match items) st
  | Boundary => if at_boundary st then [st] else []
  | Seq a b => flat_map (run b) (run a st)
  | Alt a b => run a st ++ run b st
  | Star a => star_loop (run a) (List.length (m_rest st)) st
  | Plus a =>
      flat_map (fun st' => star_loop (run a) (List.length (m_rest st')) st')
               (run a st)
  | Group n a => map (set_group n st) (run a st)
  end.

Definition start (prev : option N) (rest : str) : mstate :=
  {| m_prev := prev; m_rest := rest; m_groups := [] |}.

(** The first match at the cursor, if any. *)
Definition match_here (r : regex) (prev : option N) (rest : str)
  : option mstate :=
  hd_error (run r (start prev rest)).

(** [re.match]: a match at the beginning of the string. *)
Definition re_match (r : regex) (s : str) : option mstate :=
  match_here r None s.

(** [re.search]: the leftmost match; only its existence is used. *)
Fixpoint search_from (r : regex) (prev : option N) (rest : str)
  : option mstate :=
  match match_here r prev rest with
  | Some m => Some m
  | None =>
      match rest with
      | [] => None
      | c :: rest' => search_from r (Some c) rest'
      end
  end.

Definition re_search (r : regex) (s : str) : bool :=
  match search_from r None s with Some _ => true | None => false end.

(** The text a group captured ([None] when it took no part). *)
Fixpoint group_text (n : nat) (gs : list (nat * str)) : option str :=
  match gs with
  | [] => None
  | (k, t) :: gs' => if Nat.eqb k n then Some t else group_text n gs'
  end.

(** Scanning for all non-overlapping matches, left to right, as
    [findall] and [sub] do.  A segment is a character outside every
    match, or a match with the text it covers.  After an empty match the
    engine asks for a non-empty one at the same place before moving on;
    [skip] counts the characters still covered by the last match. *)
Inductive segment : Type :=
| Unmatched (c : N)
| Matched (text : str) (m : mstate).

Definition nonempty_match (st m : mstate) : bool :=
  negb (Nat.eqb (consumed st m) 0).

Definition matches_here (r : regex) (prev : option N) (rest : str)
  : list segment * nat :=
  let st := start prev rest in
  let cands := run r st in
  let later :=
    match find (nonempty_match st) cands with
    | Some m => ([Matched (matched_text st m) m], consumed st m)
    | None => ([], 0)
    end in
  match cands with
  | [] => ([], 0)
  | m :: _ =>
      if nonempty_match st m
      then ([Matched (matched_text st m) m], consumed st m)
      else (Matched [] m :: fst later, snd later)
  end.

Fixpoint scan (r : regex) (prev : option N) (rest : str) (skip : nat)
  : list segment :=
  match rest with
  | [] =>
      match skip with
      | O => fst (matches_here r prev [])
      | S _ => []
      end
  | c :: rest' =>
      match skip with
      | S k => scan r (Some c) rest' k
      | O =>
          let '(segs, n) := matches_here r prev rest in
          match n with
          | O => segs ++ Unmatched c :: scan r (Some c) rest' 0
          | S k => segs ++ scan r (Some c) rest' k
          end
      end
  end.

(** [re.findall] for a pattern with exactly one group: the texts of
    group 1. *)
Definition re_findall (r : regex) (s : str) : list str :=
  flat_map
    (fun seg =>
       match seg with
       | Unmatched _ => []
       | Matched _ m =>
           match group_text 1 (m_groups m) with
           | Some t => [t]
           | None => [[]]
           end
       end)
    (scan r None s 0).

(** [re.sub] with a replacement text free of escapes. *)
Definition re_sub (r : regex) (repl : str) (s : str) : str :=
  flat_map
    (fun seg =>
       match seg with
       | Unmatched c => [c]
       | Matched _ _ => repl
       end)
    (scan r None s 0).
End Matcher.

(** Concatenation and alternation of several patterns. *)
Fixpoint cat (rs : list regex) : regex :=
  match rs with
  | [] => Empty
  | [r] => r
  | r :: rs' => Seq r (cat rs')
  end.

Fixpoint alts (rs : list regex) : regex :=
  match rs with
  | [] => InSet []
  | [r] => r
  | r :: rs' => Alt r (alts rs')
  end.

(** *** Reading a pattern

    [parse] reads the pattern syntax the program uses: literals, [.],
    sets, the escapes [\b], [\d], [\s] and escaped punctuation, the
    postfix operators [*] and [+], alternation and numbered groups. *)
Module Pattern.

Definition escape_item (c : N) : set_item :=
  if (c =? 100)%N then SDigit
  else if (c =? 115)%N then SSpace
  else SChar c.

(** The inside of [[...]], after the opening bracket. *)
Fixpoint parse_set (fuel : nat) (s : str) (acc : list set_item)
  : option (list set_item * str) :=
  match fuel with
  | O => None
  | S f =>
      match s with
      | [] => None
      | 93%N :: s' => Some (rev acc, s')
      | 92%N :: c :: s' => parse_set f s' (escape_item c :: acc)
      | lo :: 45%N :: hi :: s' =>
          if (hi =? 93)%N
          then parse_set f (45%N :: hi :: s') (SChar lo :: acc)
          else parse_set f s' (SRange lo hi :: acc)
      | c :: s' => parse_set f s' (SChar c :: acc)
      end
  end.

Definition postfix (r : regex) (s : str) : regex * str :=
  match s with
  | 42%N :: s' => (Star r, s')
  | 43%N :: s' => (Plus r, s')
  | _ => (r, s)
  end.

(** [parse_alt] reads [a|b|...] up to a closing parenthesis or the end;
    [parse_seq] reads one branch.  [n] is the number of the next
    group. *)
Fixpoint parse_alt (fuel : nat) (s : str) (n : nat)
  : option (regex * str * nat) :=
  match fuel with
  | O => None
  | S f =>
      match parse_seq f s n [] with
      | Some (r, 124%N :: s', n') =>
          match parse_alt f s' n' with
          | Some (r2, s2, n2) => Some (Alt r r2, s2, n2)
          | None => None
          end
      | other => other
      end
  end
with parse_seq (fuel : nat) (s : str) (n : nat) (acc : list regex)
  : option (regex * str * nat) :=
  match fuel with
  | O => None
  | S f =>
      let item (r : regex) (s' : str) (n' : nat) :=
        let '(r', s'') := postfix r s' in
        parse_seq f s'' n' (r' :: acc) in
      match s with
      | [] => Some (cat (rev acc), s, n)
      | 124%N :: _ => Some (cat (rev acc), s, n)
      | 41%N :: _ => Some (cat (rev acc), s, n)
      | 40%N :: s' =>
          match parse_alt f s' (S n) with
          | Some (r, 41%N :: s2, n2) => item (Group n r) s2 n2
          | _ => None
          end
      | 91%N :: s' =>
          match parse_set f s' [] with
          | Some (items, s2) => item (InSet items) s2 n
          | None => None
          end
      | 92%N :: c :: s' =>
          if (c =? 98)%N then item Boundary s' n
          else if (c =? 100)%N then item (InSet [SDigit]) s' n
          else if (c =? 115)%N then item (InSet [SSpace]) s' n
          else item (Lit c) s' n
      | 46%N :: s' => item AnyChar s' n
      | 42%N :: _ => None
      | 43%N :: _ => None
      | 63%N :: _ => None
      | c :: s' => item (Lit c) s' n
      end
  end.

Definition parse (pattern : string) : option regex :=
  let s := u pattern in
  match parse_alt (2 * List.length s + 2) s 1 with
  | Some (r, [], _) => Some r
  | _ => None
  end.

(** [re.compile]; a pattern outside the fragment matches nothing. *)
Definition compile (pattern : string) : regex :=
  match parse pattern with
  | Some r => r
  | None => InSet []
  end.
End Pattern.

(** ** The classifier: [categorize_vacancy] *)

Definition data_analyst_re : regex :=
  Pattern.compile "(.*data.+anal.*)|(.*data.+анал.*)|(.*анал.*дан.*)|(\bda\b)".

Definition bi_analyst_re : regex :=
  Pattern.compile "(.*bi.+anal.*)|(\bbi\b)|(.*bi.+анал.*)|(.*анал.*bi.*)".

Definition product_analyst_re : regex :=
  Pattern.compile "(.*product.*)|(.*prod.+анал.*)|(.*анал.*прод.*)|(.*продукт.*)".

Definition web_analyst_re : regex :=
  Pattern.compile "(.*веб.*)|(.*web.+анал.*)|(.*анал.*web.*)|(\bweb\b)".

Definition data_engineer_re : regex :=
  Pattern.compile "(.*engin.*)|(.*инжен.*)|(\bde\b)".

Definition data_scientist_re : regex :=
  Pattern.compile "(.*data.+scien.*)|(.*scien.*)|(\bds\b)".

Section Classifier.
  Variable U : unicode_db.

(** [re.search(pattern, vacancy_name, flags=re.IGNORECASE)] *)
Definition search_ic (r : regex) (vacancy_name : str) : bool :=
  re_search U true r vacancy_name.

Definition categorize_vacancy (vacancy_name : str) : str :=
  if search_ic data_analyst_re vacancy_name then u "Data Analyst"
  else if search_ic bi_analyst_re vacancy_name then u "BI Analyst"
  else if search_ic product_analyst_re vacancy_name then u "Product Analyst"
  else if search_ic web_analyst_re vacancy_name then u "Web Analyst"
  else if search_ic data_engineer_re vacancy_name then u "Data Engineer"
  else if search_ic data_scientist_re vacancy_name then u "Data Scientist"
  else u "Other".
End Classifier.

(** ** String methods *)

Definition char_in (c : N) (chars : str) : bool := existsb (N.eqb c) chars.

Fixpoint drop_while (test : N -> bool) (s : str) : str :=
  match s with
  | c :: s' => if test c then drop_while test s' else s
  | [] => []
  end.

Definition lstrip (chars s : str) : str :=
  drop_while (fun c => char_in c chars) s.

Definition rstrip (chars s : str) : str := rev (lstrip chars (rev s)).

(** [s.strip(chars)] *)
Definition strip (chars s : str) : str := rstrip chars (lstrip chars s).

Fixpoint is_prefix (p s : str) : bool :=
  match p, s with
  | [], _ => true
  | a :: p', b :: s' => (a =? b)%N && is_prefix p' s'
  | _ :: _, [] => false
  end.

(** Splitting at the non-overlapping occurrences of [sep], left to right;
    [skip] counts the characters of an occurrence still to pass over and
    [cur] holds the current piece, reversed. *)
Fixpoint split_go (sep : str) (skip : nat) (cur : str) (s : str) : list str :=
  match s with
  | [] => [rev cur]
  | c :: s' =>
      match skip with
      | S k => split_go sep k cur s'
      | O =>
          if is_prefix sep s
          then rev cur :: split_go sep (List.length sep - 1) [] s'
          else split_go sep 0 (c :: cur) s'
      end
  end.

(** [s.split(sep)] for a non-empty [sep] (every call of the program passes
    the constant [", "]). *)
Definition split (sep s : str) : list str := split_go sep 0 [] s.

(** [sep.join(parts)] *)
Fixpoint join (sep : str) (parts : list str) : str :=
  match parts with
  | [] => []
  | [p] => p
  | p :: ps => p ++ sep ++ join sep ps
  end.

(** [s.replace(a, b)] for single characters. *)
Definition replace_char (a b : N) (s : str) : str :=
  map (fun c => if (c =? a)%N then b else c) s.

(** [str(n)] for an [int]. *)
Definition str_of_int (n : Z) : str :=
  u (NilZero.string_of_int (Z.to_int n)).

(** ** [str_to_list] *)

Definition str_to_list (string : option str) : option (list str) :=
  match string with
  | Some ((_ :: _) as s) =>
      let s := strip (u "[]") s in
      Some (map (fun elem => strip (u "'") elem) (split (u ", ") s))
  | _ => None
  end.

(** ** [str_to_date] *)

Record date : Type := { year : Z; month : Z; day : Z }.

Definition is_leap (y : Z) : bool :=
  ((y mod 4 =? 0) && (negb (y mod 100 =? 0) || (y mod 400 =? 0)))%Z.

Definition days_in_month (y m : Z) : Z :=
  (if m =? 2 then (if is_leap y then 29 else 28)
   else if (m =? 4) || (m =? 6) || (m =? 9) || (m =? 11) then 30
   else 31)%Z.

(** [datetime.date(year, month, day)] *)
Definition make_date (y m d : Z) : result date :=
  if ((1 <=? y) && (y <=? 9999) && (1 <=? m) && (m <=? 12)
      && (1 <=? d) && (d <=? days_in_month y m))%Z
  then ret {| year := y; month := m; day := d |}
  else raise ValueError.

(** A dictionary with string keys, in insertion order. *)
Fixpoint dict_get {V : Type} (d : list (str * V)) (k : str) : result V :=
  match d with
  | [] => raise KeyError
  | (k', v) :: d' => if str_eqb k' k then ret v else dict_get d' k
  end.

Definition months : list (str * str) :=
  [ (u "января", u "1");
    (u "февраля", u "2");
    (u "марта", u "3");
    (u "апреля", u "4");
    (u "мая", u "5");
    (u "июня", u "6");
    (u "июля", u "7");
    (u "августа", u "8");
    (u "сентября", u "9");
    (u "октября", u "10");
    (u "ноября", u "11");
    (u "декабря", u "12") ].

Definition month_word_re : regex := Pattern.compile "([а-я]+)".

(** The pattern [_strptime] builds for the format ["%d %m %Y"]: the
    directives' patterns joined by [\s+]; the groups d, m and Y are
    numbered 1, 2 and 3. *)
Definition dmY_re : regex :=
  Pattern.compile
    "(3[0-1]|[1-2]\d|0[1-9]|[1-9]| [1-9])\s+(1[0-2]|0[1-9]|[1-9])\s+(\d\d\d\d)".

Section Dates.
  Variable U : unicode_db.

Fixpoint digits_value (s : str) (acc : Z) : result Z :=
  match s with
  | [] => ret acc
  | c :: s' =>
      match unicode_digit U c with
      | Some d => digits_value s' (10 * acc + Z.of_N d)%Z
      | None => raise ValueError
      end
  end.

(** [int(s)] for an unsigned decimal text, surrounding whitespace
    allowed. *)
Definition int_of_str (s : str) : result Z :=
  match rev (drop_while is_space (rev (drop_while is_space s))) with
  | [] => raise ValueError
  | t => digits_value t 0%Z
  end.

Definition group_or_empty (n : nat) (m : mstate) : str :=
  match group_text n (m_groups m) with
  | Some t => t
  | None => []
  end.

(** [datetime.strptime(s, "%d %m %Y").date()]: the pattern must match at
    the start and cover the whole text; the three numbers must form a
    date. *)
Definition strptime_dmY (s : str) : result date :=
  match re_match U true dmY_re s with
  | None => raise ValueError
  | Some found =>
      match m_rest found with
      | _ :: _ => raise ValueError
      | [] =>
          y <- int_of_str (group_or_empty 3 found) ;;
          m <- int_of_str (group_or_empty 2 found) ;;
          d <- int_of_str (group_or_empty 1 found) ;;
          make_date y m d
      end
  end.

Definition str_to_date (s : str) : result date :=
  let pattern := month_word_re in
  let month := re_findall U false pattern s in
  number <- dict_get months (List.concat month) ;;
  let date := re_sub U false pattern number s in
  strptime_dmY date.
End Dates.

(** ** Pages and the transport

    A parsed page is modelled by what the selectors of the program find
    in it.  [Tag] is an element: its text and, for [findChild("span")],
    the first [span] below it. *)
Record Tag : Type := {
  text : str;
  span : option str
}.

(** An [a] element: its classes and its [target] and [href] attributes. *)
Record Anchor : Type := {
  a_class : list str;
  a_target : option str;
  a_href : option str
}.

Record Soup : Type := {
  (* the [a] elements of a result page, in document order *)
  anchors : list Anchor;
  (* h1, data-qa ~ vacancy-title* *)
  title_h1 : option Tag;
  (* span, class ~ bloko-header-section-2* *)
  company_span : option Tag;
  (* div, data-qa = employer-review-small-widget-total-rating *)
  rating_div : option Tag;
  (* data-qa ~ (vacancy-view-location)|(vacancy-view-raw-address) *)
  location_tag : option Tag;
  (* span, data-qa = vacancy-experience *)
  experience_span : option Tag;
  (* p, data-qa = vacancy-view-employment-mode *)
  employment_mode_p : option Tag;
  (* p, class = vacancy-creation-time-redesigned *)
  creation_time_p : option Tag;
  (* li, data-qa = skills-element *)
  skills_li : list Tag
}.

Record Response : Type := {
  status_code : Z;
  soup : Soup            (* BeautifulSoup(response.text) *)
}.

(** ** Listing discovery: [get_all_vacancies] *)

(** One row of the table of ids: the columns [id] and [vacancy_name], the
    latter never filled (NaN). *)
Record IdRow : Type := {
  id : str;
  vacancy_name : option str
}.

Definition perm_href_re : regex := Pattern.compile "https:\/\/perm.hh.ru\/".
Definition id_re : regex := Pattern.compile "[a-zA-Z:\/.]*([0-9]*)\?".

(** [save_data]: the ids appended to the empty table. *)
Definition save_data (all_vacancies_ids : list str) : list IdRow :=
  [] ++ map (fun i => {| id := i; vacancy_name := None |}) all_vacancies_ids.

Section Discovery.
  Variable U : unicode_db.
  Variable requests_get : str -> Response.

(** [soup.find_all("a", attrs={"class": "bloko-link", "target": "_blank",
    "href": re.compile(...)})] *)
Definition page_links (s : Soup) : list str :=
  flat_map
    (fun a =>
       match a_href a with
       | Some href =>
           if existsb (str_eqb (u "bloko-link")) (a_class a)
              && match a_target a with
                 | Some t => str_eqb t (u "_blank")
                 | None => false
                 end
              && re_search U false perm_href_re href
           then [href] else []
       | None => []
       end)
    (anchors s).

Definition get_current_vacancies_id (s : Soup) : list str :=
  let vacancies_id :=
    map (fun href => re_findall U false id_re href) (page_links s) in
  List.concat vacancies_id.

Section Query.
  Variable vacancies : list str.
  Variable exp : str.
  Variable search_period : Z.

Definition request_text : str :=
  join (u "+or+")
    (map (fun i => u "%22" ++ replace_char 32 43 i ++ u "%22") vacancies).

Definition search_url (page : Z) : str :=
  u "https://hh.ru/search/vacancy?text=" ++ request_text
  ++ u "&search_period=" ++ str_of_int search_period
  ++ u "                &items_on_page=15&area=113&experience=" ++ exp
  ++ u "&page=" ++ str_of_int page.

(** The [while True] loop; [fuel] bounds the number of pages fetched
    and [None] means the bound was reached before the loop ended. *)
Fixpoint vacancies_loop (fuel : nat) (page : Z)
  (all_vacancies_ids : list str) : option (list IdRow) :=
  match fuel with
  | O => None
  | S fuel' =>
      let response := requests_get (search_url page) in
      if negb (status_code response =? 200)%Z
      then Some (save_data all_vacancies_ids)
      else
        let current_vacancies_ids :=
          get_current_vacancies_id (soup response) in
        match current_vacancies_ids with
        | [] => Some (save_data all_vacancies_ids)
        | _ :: _ =>
            vacancies_loop fuel' (page + 1)%Z
              (all_vacancies_ids ++ current_vacancies_ids)
        end
  end.

Definition get_all_vacancies (fuel : nat) (page : Z)
  : option (list IdRow) :=
  vacancies_loop fuel page [].
End Query.
End Discovery.

(** ** Detail extraction: [get_vacancy_info] *)

Record Row : Type := {
  r_id : str;
  r_vacancy_name : option str;
  r_experience : option str;
  r_work_type : str;
  r_busyness : str;
  r_city : str;
  r_company : option str;
  r_rating : option str;
  r_skills : list str;
  r_pub_date : option str;
  r_url : str
}.

(** [get_text]: the text of an element, [None] when there is no element. *)
Definition get_text (soup_tag : option Tag) : option str :=
  match soup_tag with
  | Some t => Some (text t)
  | None => None
  end.

(** A method call on the result of [get_text] or [find]: an
    [AttributeError] on [None]. *)
Definition attr {A : Type} (x : option A) : result A :=
  match x with
  | Some a => ret a
  | None => raise AttributeError
  end.

(** The body of the [try] block: one row, or the exception raised. *)
Definition extract_row (vid url : str) (s : Soup) : result Row :=
  let name := get_text (title_h1 s) in
  let company := get_text (company_span s) in
  let rating := get_text (rating_div s) in
  location <- attr (get_text (location_tag s)) ;;
  let city := hd [] (split (u ", ") location) in
  let exp := get_text (experience_span s) in
  mode <- attr (get_text (employment_mode_p s)) ;;
  match split (u ", ") mode with
  | [work_type; busyness] =>
      created <- attr (creation_time_p s) ;;
      let pub_date := span created in
      let skills := map text (skills_li s) in
      ret {| r_id := vid; r_vacancy_name := name; r_experience := exp;
             r_work_type := work_type; r_busyness := busyness;
             r_city := city; r_company := company; r_rating := rating;
             r_skills := skills; r_pub_date := pub_date; r_url := url |}
  | _ => raise ValueError
  end.

Section Details.
  Variable requests_get : str -> Response.

Definition vacancy_url (vid : str) : str := u "https://hh.ru/vacancy/" ++ vid.

(** The [for] loop with its state: [counter], the table [df] and the
    rows [data] not yet appended to it. *)
Fixpoint info_loop (vacancies_id : list str) (counter : Z)
  (df data : list Row) : list Row :=
  match vacancies_id with
  | [] => df
  | vid :: rest =>
      let url := vacancy_url vid in
      let response := requests_get url in
      if negb (status_code response =? 200)%Z
      then df ++ data
      else
        match extract_row vid url (soup response) with
        | inr _ => info_loop rest counter df data
        | inl row =>
            let data := data ++ [row] in
            if (counter mod 10 =? 0)%Z
            then info_loop rest (counter + 1)%Z (df ++ data) []
            else info_loop rest (counter + 1)%Z df data
        end
  end.

Definition get_vacancy_info (vacancies_id : list str) : list Row :=
  info_loop vacancies_id 0%Z [] [].
End Details.

(** ** Floating-point numbers

    A Python [float] is an IEEE 754 binary64 number, represented as in the
    standard library's [SpecFloat]: a finite non-zero number is
    [S754_finite s m e], of value [(-1)^s * m * 2^e], with a mantissa of 53
    bits (fewer for subnormal numbers, whose exponent is -1074). *)
Definition float : Type := spec_float.

Definition pow2 (k : Z) : Z := (2 ^ Z.max 0 k)%Z.

(** [a / b] rounded to the nearest integer, ties to even ([0 <= a],
    [0 < b]). *)
Definition div_half_even (a b : Z) : Z :=
  let q := (a / b)%Z in
  match (2 * (a mod b) ?= b)%Z with
  | Lt => q
  | Gt => (q + 1)%Z
  | Eq => if Z.even q then q else (q + 1)%Z
  end.

(** The binary64 number nearest to [a / b] (ties to even) for positive
    integers [a] and [b]; too large a quotient is an [OverflowError]. *)
Definition nearest_float (negative : bool) (a b : Z) : result float :=
  let l := (Z.log2 a - Z.log2 b)%Z in
  let fl := if (b * pow2 l <=? a * pow2 (- l))%Z then l else (l - 1)%Z in
  let e := Z.max (fl - 52) (-1074) in
  let m := div_half_even (a * pow2 (- e)) (b * pow2 e) in
  let '(m, e) :=
    if (m =? 2 ^ 53)%Z then ((2 ^ 52)%Z, (e + 1)%Z) else (m, e) in
  if (m =? 0)%Z then ret (S754_zero negative)
  else if (971 <? e)%Z then raise OverflowError
  else ret (S754_finite negative (Z.to_pos m) e).

(** [a / b] for two [int]s: the correctly rounded quotient. *)
Definition int_truediv (a b : Z) : result float :=
  if (b =? 0)%Z then raise ZeroDivisionError
  else if (a =? 0)%Z then ret (S754_zero (b <? 0)%Z)
  else nearest_float (xorb (a <? 0)%Z (b <? 0)%Z) (Z.abs a) (Z.abs b).

(** [round(x, ndigits)] for [0 <= ndigits]: the decimal with [ndigits]
    places nearest to the exact value of [x] (ties to even), converted
    back to the nearest binary64 number. *)
Definition round_float (x : float) (ndigits : Z) : result float :=
  match x with
  | S754_finite s m e =>
      let k := div_half_even (Z.pos m * pow2 e * 10 ^ ndigits) (pow2 (- e)) in
      if (k =? 0)%Z then ret (S754_zero s)
      else nearest_float s k (10 ^ ndigits)
  | _ => ret x
  end.

(** The exact value of a finite float. *)
Definition float_to_Q (x : float) : Q :=
  match x with
  | S754_finite s m e =>
      Qmake ((if s then -1 else 1) * Z.pos m * pow2 e) (Z.to_pos (pow2 (- e)))
  | _ => 0%Q
  end.

(** ** Skill popularity: [skills_rating] *)

(** The columns of the analysed table the aggregation reads.  A skills
    cell holds a list, or nothing ([None]). *)
Record Vacancy : Type := {
  category : str;
  skills : option (list str)
}.

(** Truth value of a skills cell: [if skill:]. *)
Definition truthy (skill : option (list str)) : bool :=
  match skill with
  | Some (_ :: _) => true
  | _ => false
  end.

(** [collections.Counter]: counts by key, keys in order of first
    occurrence. *)
Fixpoint counter_add (k : str) (c : list (str * Z)) : list (str * Z) :=
  match c with
  | [] => [(k, 1%Z)]
  | (k', n) :: c' =>
      if str_eqb k' k then (k', (n + 1)%Z) :: c'
      else (k', n) :: counter_add k c'
  end.

Definition Counter (l : list str) : list (str * Z) :=
  fold_left (fun c k => counter_add k c) l [].

(** [sorted(items, key=lambda x: x[1], reverse=True)]: stable, largest
    count first. *)
Fixpoint insert_desc (x : str * Z) (l : list (str * Z)) : list (str * Z) :=
  match l with
  | [] => [x]
  | y :: l' =>
      if (snd y <=? snd x)%Z then x :: l else y :: insert_desc x l'
  end.

Definition sorted_desc (l : list (str * Z)) : list (str * Z) :=
  fold_right insert_desc [] l.

(** A list comprehension whose element expression can raise. *)
Fixpoint comprehension {A B : Type} (f : A -> result B) (l : list A)
  : result (list B) :=
  match l with
  | [] => ret []
  | a :: l' =>
      b <- f a ;;
      bs <- comprehension f l' ;;
      ret (b :: bs)
  end.

(** The [for skill in data["skills"]] loop. *)
Fixpoint collect_skills (cells : list (option (list str)))
  (total_vacancies : Z) (all_skills : list str) : Z * list str :=
  match cells with
  | [] => (total_vacancies, all_skills)
  | skill :: cells' =>
      if truthy skill
      then collect_skills cells' (total_vacancies + 1)%Z
             (all_skills ++ match skill with Some l => l | None => [] end)
      else collect_skills cells' total_vacancies all_skills
  end.

Definition skills_rating (df : list Vacancy) (specialization : str)
  : result (list (str * float)) :=
  let data := filter (fun v => str_eqb (category v) specialization) df in
  let '(total_vacancies, all_skills) :=
    collect_skills (map skills data) 0%Z [] in
  let result := sorted_desc (Counter all_skills) in
  comprehension
    (fun '(skill, number) =>
       x <- int_truediv number total_vacancies ;;
       f <- round_float x 3 ;;
       ret (skill, f))
    result.

(** * Vocabulary of the properties *)

(** A statement that holds whatever the Unicode tables say about the
    characters outside the basic alphabets. *)
Definition for_every_table (P : unicode_db -> Prop) : Prop := forall U, P U.

(** ** What a pattern matches

    A cursor is a place in the subject: the character before it and the
    text after it.  [denote r c c'] says that [r] can take the matcher
    from [c] to [c']. *)
Definition cursor : Type := (option N * str)%type.

Definition cur (st : mstate) : cursor := (m_prev st, m_rest st).

Definition at_cursor (c : cursor) : mstate :=
  {| m_prev := fst c; m_rest := snd c; m_groups := [] |}.

Definition char_step (test : N -> bool) (c c' : cursor) : Prop :=
  exists ch s', snd c = ch :: s' /\ test ch = true /\ c' = (Some ch, s').

Inductive star (R : cursor -> cursor -> Prop) : cursor -> cursor -> Prop :=
| star_stop : forall c, star R c c
| star_more : forall c m c',
    R c m -> List.length (snd m) < List.length (snd c) ->
    star R m c' -> star R c c'.

(** The character before the cursor once [pre] has been passed. *)
Definition last_char (prev : option N) (pre : str) : option N :=
  fold_left (fun _ c => Some c) pre prev.

Definition not_newline (ch : N) : bool := negb (ch =? 10)%N.

Definition no_newline (g : str) : Prop := Forall (fun ch => ch <> 10%N) g.

(** The literals of [w] followed by [k]. *)
Definition lits_then (w : str) (k : regex) : regex :=
  fold_right (fun c r => Seq (Lit c) r) k w.

(** [.*w.*] *)
Definition anywhere (w : str) : regex :=
  Seq (Star AnyChar) (lits_then w (Star AnyChar)).

(** [.*w1.+w2.*] ([apart = true]) and [.*w1.*w2.*] *)
Definition pair_re (apart : bool) (w1 w2 : str) : regex :=
  Seq (Star AnyChar)
    (lits_then w1
       (Seq (if apart then Plus AnyChar else Star AnyChar)
          (lits_then w2 (Star AnyChar)))).

Section Denotation.
  Variable U : unicode_db.
  Variable icase : bool.

Fixpoint denote (r : regex) : cursor -> cursor -> Prop :=
match r with
| Empty => fun c c' => c' = c
| Lit x => char_step (lit_match U icase x)
| AnyChar => char_step not_newline
| InSet items => char_step (set_match U items)
| Boundary => fun c c' => c' = c /\ at_boundary U (at_cursor c) = true
| Seq a b => fun c c' => exists m, denote a c m /\ denote b m c'
| Alt a b => fun c c' => denote a c c' \/ denote b c c'
| Star a => star (denote a)
| Plus a => fun c c' => exists m, denote a c m /\ star (denote a) m c'
| Group _ a => denote a
end.

(** The states [sts] end at exactly the cursors satisfying [P]. *)
Definition ends_at (sts : list mstate) (P : cursor -> Prop) : Prop :=
forall c', (exists st', In st' sts /\ cur st' = c') <-> P c'.

(** The pattern has a match at the cursor. *)
Definition accepts (r : regex) (c : cursor) : Prop :=
exists c', denote r c c'.

(** [w'] is the word [w] as the pattern's literals match it. *)
Definition same_word (w w' : str) : Prop :=
Forall2 (fun c ch => lit_match U icase c ch = true) w w'.

(** [t] contains the word [w]. *)
Definition contains_word (w t : str) : Prop :=
exists a w' b, t = a ++ w' ++ b /\ same_word w w'.

(** [t] contains [w1] and, later on the same line, [w2]; with
  [apart = true] at least one character lies between them. *)
Definition contains_pair (apart : bool) (w1 w2 t : str) : Prop :=
exists a w1' g w2' b,
  t = a ++ w1' ++ g ++ w2' ++ b /\ same_word w1 w1' /\ same_word w2 w2'
  /\ no_newline g /\ (apart = true -> g <> []).
End Denotation.

(** ** The classifier *)

(** The labels of the titles that are one of the four tokens. *)
Definition token_labels : list (str * str) :=
  [ (u "da", u "Data Analyst");
    (u "bi", u "BI Analyst");
    (u "de", u "Data Engineer");
    (u "ds", u "Data Scientist") ].

(** ** Floating-point numbers *)

(** The values in the unit interval. *)
Definition in_unit (x : float) : Prop :=
  (0 <= float_to_Q x)%Q /\ (float_to_Q x <= 1)%Q.

(** Comparison of [int_truediv] with the division of the standard
    library's IEEE 754 specification, whose infinite quotient stands for
    the [OverflowError]. *)
Definition same_as_SFdiv (a b : Z) : bool :=
  match int_truediv a b,
        SFdiv 53 1024 (S754_finite false (Z.to_pos a) 0)
                      (S754_finite false (Z.to_pos b) 0) with
  | inl (S754_finite s m e), S754_finite s' m' e' =>
      Bool.eqb s s' && Pos.eqb m m' && Z.eqb e e'
  | inl (S754_zero s), S754_zero s' => Bool.eqb s s'
  | inr OverflowError, S754_infinity _ => true
  | _, _ => false
  end.

Definition small_operands : list Z := map Z.of_nat (seq 1 40).

Definition large_operands : list Z :=
  [2 ^ 53 - 1; 2 ^ 53 + 1; 2 ^ 54 + 3; 10 ^ 20; 3 ^ 700; 5 ^ 200;
   2 ^ 1022 + 7; 2 ^ 1024 - 2 ^ 970 - 1; 2 ^ 1024 - 2 ^ 970; 2 ^ 1024;
   2 ^ 1073 + 1; 2 ^ 1074; 2 ^ 1075 - 1; 2 ^ 1075; 2 ^ 1075 + 1;
   3 * 2 ^ 1075; 2 ^ 1076; 10 ^ 320]%Z.

Definition all_agree (xs ys : list Z) : bool :=
  forallb (fun a => forallb (same_as_SFdiv a) ys) xs.

(** ** Skill popularity *)

(** The vacancies of a category that list at least one skill, and their
    skill lists. *)
Definition skill_bearing (specialization : str) (v : Vacancy) : bool :=
  str_eqb (category v) specialization && truthy (skills v).

Definition cell_list (skill : option (list str)) : list str :=
  match skill with Some l => l | None => [] end.

Definition skill_lists (df : list Vacancy) (specialization : str)
  : list (list str) :=
  map (fun v => cell_list (skills v)) (filter (skill_bearing specialization) df).

(** How often a skill is listed. *)
Definition occurrences (skill : str) (lists : list (list str)) : nat :=
  count_occ str_eq_dec (List.concat lists) skill.

(** The fraction reported for a count. *)
Definition fraction_of (number total : Z) : result float :=
  x <- int_truediv number total ;; round_float x 3.

(** The invariant of the counter after the keys [l]. *)
Definition counts (c : list (str * Z)) (l : list str) : Prop :=
  NoDup (map fst c)
  /\ (forall k, In k l -> In k (map fst c))
  /\ (forall k n, In (k, n) c ->
        In k l /\ n = Z.of_nat (count_occ str_eq_dec l k)).

Definition no_skills_table : list Vacancy :=
  [ {| category := u "Data Analyst"; skills := None |};
    {| category := u "Data Analyst"; skills := Some [] |};
    {| category := u "Data Engineer"; skills := Some [u "Spark"] |} ].

Definition repeated_skill_table : list Vacancy :=
  [ {| category := u "Data Analyst"; skills := Some [u "SQL"; u "SQL"] |} ].

Definition two_vacancies_table : list Vacancy :=
  [ {| category := u "Data Analyst"; skills := Some [u "SQL"; u "Python"] |};
    {| category := u "Data Analyst"; skills := None |};
    {| category := u "Data Analyst"; skills := Some [u "SQL"] |} ].

(** The float 2.0. *)
Definition float_two : float := S754_finite false 4503599627370496 (-51).

(** ** Detail extraction *)

Definition plain_tag (t : string) : Tag := {| text := u t; span := None |}.

(** A vacancy page on which every selector finds its element. *)
Definition complete_page : Soup :=
  {| anchors := [];
     title_h1 := Some (plain_tag "Data Analyst");
     company_span := Some (plain_tag "Acme");
     rating_div := Some (plain_tag "4.5");
     location_tag := Some (plain_tag "Perm, Lenina 1");
     experience_span := Some (plain_tag "1-3 years");
     employment_mode_p := Some (plain_tag "Full time, remote");
     creation_time_p :=
       Some {| text := u "Posted 15 марта 2024";
               span := Some (u "15 марта 2024") |};
     skills_li := [plain_tag "SQL"; plain_tag "Python"] |}.

(** A transport that answers every request with status 200 and a complete
    page. *)
Definition complete_transport (url : str) : Response :=
  {| status_code := 200; soup := complete_page |}.

(** The rows of the vacancies whose page is extracted without an
    exception, in the order of the ids. *)
Definition extracted (requests_get : str -> Response)
  (vacancies_id : list str) : list Row :=
  flat_map
    (fun vid =>
       match extract_row vid (vacancy_url vid)
               (soup (requests_get (vacancy_url vid))) with
       | inl row => [row]
       | inr _ => []
       end)
    vacancies_id.

(** How many of [k] extracted rows have reached the table when the loop
    ends: the table is extended at the 1st, 11th, 21st, ... row. *)
Definition flushed (k : nat) : nat :=
  match k with
  | O => O
  | S j => 10 * (j / 10) + 1
  end.

(** ** Listing discovery *)

(** The response to the request for result page [p] of a query. *)
Definition result_pages (requests_get : str -> Response)
  (vacancies : list str) (exp : str) (search_period : Z) (p : Z) : Response :=
  requests_get (search_url vacancies exp search_period p).

Section Pages.
  Variable U : unicode_db.
  Variable pages : Z -> Response.

(** The ids read from result page [p]. *)
Definition ids_at (p : Z) : list str :=
get_current_vacancies_id U (soup (pages p)).

(** A page that lets the loop go on, and a page that ends it. *)
Definition continues (p : Z) : Prop :=
status_code (pages p) = 200%Z /\ ids_at p <> [].

Definition stops (p : Z) : Prop :=
status_code (pages p) <> 200%Z \/ ids_at p = [].

(** The ids of the [n] pages from [page] on, in order. *)
Definition ids_of_pages (page : Z) (n : nat) : list str :=
List.concat (map (fun k => ids_at (page + Z.of_nat k)) (seq 0 n)).
End Pages.

(** Result pages for the examples: [listing first count] links to the
    vacancies numbered from [first]. *)
Definition vacancy_link (n : nat) : Anchor :=
  {| a_class := [u "bloko-link"];
     a_target := Some (u "_blank");
     a_href := Some (u "https://perm.hh.ru/vacancy/"
                       ++ str_of_int (Z.of_nat n) ++ u "?query=analyst") |}.

Definition listing (first count : nat) : Soup :=
  {| anchors := map vacancy_link (seq first count);
     title_h1 := None; company_span := None; rating_div := None;
     location_tag := None; experience_span := None;
     employment_mode_p := None; creation_time_p := None; skills_li := [] |}.

Definition example_url (page : Z) : str :=
  search_url [u "data analyst"] (u "noExperience") 1 page.

Definition example_pages (requests_get : str -> Response) : Z -> Response :=
  result_pages requests_get [u "data analyst"] (u "noExperience") 1.

(** Two pages of 15 ids, then an empty page. *)
Definition three_pages (url : str) : Response :=
  if str_eqb url (example_url 0)
  then {| status_code := 200; soup := listing 100 15 |}
  else if str_eqb url (example_url 1)
  then {| status_code := 200; soup := listing 115 15 |}
  else {| status_code := 200; soup := listing 0 0 |}.

(** A page of 15 ids, then a failing request. *)
Definition failing_second_page (url : str) : Response :=
  if str_eqb url (example_url 0)
  then {| status_code := 200; soup := listing 100 15 |}
  else {| status_code := 503; soup := listing 200 15 |}.

(** ** Date parsing *)

(** The letters of [[а-я]]. *)
Definition month_letter (c : N) : bool := in_range 1072 1103 c.

(** The text does not begin with such a letter. *)
Definition starts_plain (s : str) : Prop :=
  match s with
  | [] => True
  | c :: _ => month_letter c = false
  end.

(** Texts without such letters, and texts made of them. *)
Definition plain (s : str) : Prop := Forall (fun c => month_letter c = false) s.
Definition letters (s : str) : Prop := Forall (fun c => month_letter c = true) s.

Definition letter_step (U : unicode_db) : mstate -> list mstate :=
  step (set_match U [SRange 1072 1103]).

(** The state after the matcher has passed over [word]. *)
Definition over (st : mstate) (word rest : str) : mstate :=
  {| m_prev := last_char (m_prev st) word; m_rest := rest;
     m_groups := m_groups st |}.

Definition found_text (seg : segment) : list str :=
  match seg with
  | Unmatched _ => []
  | Matched _ m =>
      match group_text 1 (m_groups m) with
      | Some t => [t]
      | None => [[]]
      end
  end.

(** The parts of the pattern of ["%d %m %Y"]. *)
Definition spaces_re : regex := Plus (InSet [SSpace]).

Definition day_re : regex :=
  Alt (Seq (Lit 51) (InSet [SRange 48 49]))
    (Alt (Seq (InSet [SRange 49 50]) (InSet [SDigit]))
       (Alt (Seq (Lit 48) (InSet [SRange 49 57]))
          (Alt (InSet [SRange 49 57]) (Seq (Lit 32) (InSet [SRange 49 57]))))).

Definition mon_re : regex :=
  Alt (Seq (Lit 49) (InSet [SRange 48 50]))
    (Alt (Seq (Lit 48) (InSet [SRange 49 57])) (InSet [SRange 49 57])).

Definition year_re : regex :=
  Seq (InSet [SDigit])
    (Seq (InSet [SDigit]) (Seq (InSet [SDigit]) (InSet [SDigit]))).

(** The character of a decimal digit. *)
Definition digit_char (n : Z) : N := Z.to_N (48 + n).

Definition month_names : list str := map fst months.

(** The name of month [m] and the texts of a year and of a date. *)
Definition month_name (m : Z) : str := nth (Z.to_nat (m - 1)) month_names [].

Definition year_text (y : Z) : str :=
  map digit_char [y / 1000; (y / 100) mod 10; (y / 10) mod 10; y mod 10]%Z.

Definition date_text (d m y : Z) : str :=
  str_of_int d ++ u " " ++ month_name m ++ u " " ++ year_text y.

(** [w] occurs in [s]. *)
Fixpoint is_infix (w s : str) : bool :=
  is_prefix w s || match s with [] => false | _ :: s' => is_infix w s' end.

(** ** Proof automation *)

(** Enumerating a bounded integer. *)
Ltac enumerate d :=
  let p := fresh "p" in
  destruct d as [|p|p]; try lia;
  repeat (destruct p as [p|p|]; try lia).

(** Evaluating the closed parts of a run of the matcher on a text whose
    tail is a variable. *)
Ltac eval_texts :=
  repeat match goal with
    | |- context [str_of_int ?z] =>
        let v := eval vm_compute in (str_of_int z) in
        change (str_of_int z) with v
    end.

Ltac eval_spaces :=
  repeat match goal with
    | H : is_space ?x = _ |- context [is_space ?x] => rewrite H
    | |- context [is_space (Npos ?p)] =>
        let b := eval vm_compute in (is_space (Npos p)) in
        change (is_space (Npos p)) with b
    end.

Ltac eval_digits :=
  repeat match goal with
    | H : unicode_isdigit ?U ?x = _ |- context [unicode_isdigit ?U ?x] =>
        rewrite H
    | |- context [unicode_isdigit ?U (Npos ?p)] =>
        let b := eval vm_compute in (unicode_isdigit U (Npos p)) in
        change (unicode_isdigit U (Npos p)) with b
    end.

Ltac prefix_of ra rb :=
  lazymatch ra with
  | rb => constr:(@nil N)
  | ?x :: ?ra' => let w := prefix_of ra' rb in constr:(x :: w)
  end.

(** * Further functions of the program *)

(** ** Charts: [plot_vacancies], [plot_work_format]

    A chart is modelled by the data handed to the plotting library: the
    labels and the heights of the bars.  The styling calls have no effect
    on them and are left out. *)

(** [sorted(items, key=lambda x: x[1])]: stable, smallest count first. *)
Fixpoint insert_asc (x : str * Z) (l : list (str * Z)) : list (str * Z) :=
  match l with
  | [] => [x]
  | y :: l' =>
      if (snd x <=? snd y)%Z then x :: l else y :: insert_asc x l'
  end.

Definition sorted_asc (l : list (str * Z)) : list (str * Z) :=
  fold_right insert_asc [] l.

(** The arguments [x] and [y] of [plt.bar]. *)
Record Bars : Type := {
  bar_x : list str;
  bar_y : list Z
}.

(** [plot_vacancies], on the column [category] of the table. *)
Definition plot_vacancies (df_category : list str) : Bars :=
  let data := sorted_asc (Counter df_category) in
  let x := map (fun value => fst value) data in
  let y := map (fun value => snd value) data in
  {| bar_x := x; bar_y := y |}.

(** [plot_work_format], on the column [busyness] of the table. *)
Definition plot_work_format (df_busyness : list str) : Bars :=
  let data := sorted_asc (Counter df_busyness) in
  let x := map (fun value => fst value) data in
  let y := map (fun value => snd value) data in
  {| bar_x := x; bar_y := y |}.

(** ** The map of cities: [plot_map] *)

Definition city_color (num_vacancies : Z) : str :=
  if (1000 <? num_vacancies)%Z then u "red"
  else if ((500 <=? num_vacancies) && (num_vacancies <? 1000))%Z
  then u "orange"
  else if ((100 <=? num_vacancies) && (num_vacancies <? 500))%Z
  then u "yellow"
  else if ((10 <=? num_vacancies) && (num_vacancies <? 100))%Z
  then u "green"
  else u "white".

Definition city_radius (num_vacancies : Z) : Z :=
  if (1000 <? num_vacancies)%Z then 20
  else if ((500 <=? num_vacancies) && (num_vacancies <? 1000))%Z then 15
  else if ((100 <=? num_vacancies) && (num_vacancies <? 500))%Z then 12
  else if ((10 <=? num_vacancies) && (num_vacancies <? 100))%Z then 8
  else 4.

Section Map.
  (** The geocoder is an external service: [geocode city] is the place
      it finds, [None] when it finds none or fails (the marker is then
      skipped by the [try] block). *)
  Variable Place : Type.
  Variable geocode : str -> option Place.

(** A [folium.CircleMarker] on the map. *)
Record CircleMarker : Type := {
  location : Place;
  radius : Z;
  tooltip : str;
  popup : str;
  fill_color : str
}.

(** [plot_map], on the column [city] of the table: the markers added to
    the map, in order. *)
Definition plot_map (df_city : list str) : list CircleMarker :=
  let data := sorted_desc (Counter df_city) in
  flat_map
    (fun '(city, num_vacancies) =>
       match geocode city with
       | Some place =>
           [ {| location := place;
                radius := city_radius num_vacancies;
                tooltip := city;
                popup := str_of_int num_vacancies;
                fill_color := city_color num_vacancies |} ]
       | None => []
       end)
    data.
End Map.

(** ** Saving and loading: [get_and_save_data], [download_data]

    The working directory is modelled by its files, each a name and a
    text.  Writing the table as CSV is pandas' work ([to_csv], a
    parameter); reading a file back into a table is not modelled. *)
Definition Files : Type := list (str * str).

(** [open(name, "w")] and [f.write(text)]: the file is created, or its
    text replaced. *)
Fixpoint write_file (name text : str) (fs : Files) : Files :=
  match fs with
  | [] => [(name, text)]
  | (n, t) :: fs' =>
      if str_eqb n name then (n, text) :: fs'
      else (n, t) :: write_file name text fs'
  end.

Fixpoint read_file (name : str) (fs : Files) : option str :=
  match fs with
  | [] => None
  | (n, t) :: fs' => if str_eqb n name then Some t else read_file name fs'
  end.

(** [os.listdir()] *)
Definition listdir (fs : Files) : list str := map fst fs.

(** [d.strftime("%d-%m-%Y")]: the day and the month in two digits, and
    the year in decimal without padding, as the C library of Linux
    writes it: the year 999 gives [999].  A year of four digits is
    written the same on every platform. *)
Definition two_digits (n : Z) : str :=
  [digit_char (n / 10); digit_char (n mod 10)].

Definition strftime_dmY (d : date) : str :=
  two_digits (day d) ++ u "-" ++ two_digits (month d) ++ u "-"
  ++ str_of_int (year d).

(** [re.compile] of a pattern that is given as a value; [None] for a
    pattern outside the fragment that [Pattern.parse_alt] reads. *)
Definition compile_text (pattern : str) : option regex :=
  match Pattern.parse_alt (2 * List.length pattern + 2) pattern 1 with
  | Some (r, [], _) => Some r
  | _ => None
  end.

Section Saving.
  Variable U : unicode_db.
  Variable requests_get : str -> Response.
  Variable to_csv : list Row -> str.
  (** [today n] is the date that the [n]-th call of [date.today()]
      returns. *)
  Variable today : nat -> date.

(** [get_and_save_data]: the loop over the experience levels, from the
    [n]-th level on.  [fuel] bounds the result pages fetched for one
    level; [None] means that a listing did not end within the bound. *)
Fixpoint get_and_save_data (fuel : nat) (vacancies experience : list str)
  (days_period : Z) (n : nat) (fs : Files) : option Files :=
  match experience with
  | [] => Some fs
  | exp :: rest =>
      match get_all_vacancies U requests_get vacancies exp days_period
              fuel 0 with
      | None => None
      | Some df_new_vacancies =>
          let df_new_info :=
            get_vacancy_info requests_get (map id df_new_vacancies) in
          let current_date := strftime_dmY (today n) in
          get_and_save_data fuel vacancies rest days_period (S n)
            (write_file (exp ++ u "_" ++ current_date) (to_csv df_new_info) fs)
      end
  end.

(** The files that [download_data] reads:
    [[file for file in os.listdir() if re.search(date, file)]]. *)
Definition download_data_files (date : str) (fs : Files)
  : option (list str) :=
  match compile_text date with
  | Some pattern =>
      Some (filter (fun file => re_search U false pattern file) (listdir fs))
  | None => None
  end.
End Saving.

(** ** The chart of skills: [plot_skills] *)

(** The float of the literal [0.05] and the float of the [int] 100 that
    a fraction is multiplied by. *)
Definition float_0_05 : float := S754_finite false 7205759403792794 (-57).
Definition float_100 : float := S754_finite false 7036874417766400 (-46).

(** [x >= y] and [x * y] on floats, as IEEE 754 has them: every
    comparison with a NaN is false, and a product too large is an
    infinity. *)
Definition float_ge (x y : float) : bool :=
  match SFcompare x y with
  | Some Gt | Some Eq => true
  | _ => false
  end.

Definition float_mul (x y : float) : float := SFmul 53 1024 x y.

(** One figure: the title and the arguments of [plt.barh]. *)
Record SkillChart : Type := {
  title : str;
  barh_y : list str;
  barh_width : list float
}.

(** [plot_skills]: the figures shown, in order, and how the call ends.
    An exception of [skills_rating] ends the loop; the figures shown
    before it stay shown. *)
Fixpoint plot_skills (df : list Vacancy) (specializations : list str)
  : list SkillChart * result unit :=
  match specializations with
  | [] => ([], ret tt)
  | spec :: rest =>
      match skills_rating df spec with
      | inr e => ([], raise e)
      | inl data =>
          let data :=
            map (fun '(skill, pop) => (skill, float_mul pop float_100))
              (filter (fun '(skill, pop) => float_ge pop float_0_05) data) in
          let x := map fst data in
          let y := map snd data in
          let '(shown, outcome) := plot_skills df rest in
          ({| title := u "The necessary skills for " ++ spec;
              barh_y := x; barh_width := y |} :: shown, outcome)
      end
  end.

(** * Vocabulary of the further properties *)

(** ** The text of a list of strings *)

(** [e] between apostrophes. *)
Definition quoted (e : str) : str := u "'" ++ e ++ u "'".

(** The text [['a', 'b', ...]] of a list of strings, as a skills cell is
    written to a file. *)
Definition list_text (l : list str) : str :=
  u "[" ++ join (u ", ") (map quoted l) ++ u "]".

(** The text holds no [", "], and no apostrophe at either end. *)
Definition simple_item (e : str) : bool :=
  negb (is_infix (u ", ") e)
  && negb (is_prefix (u "'") e)
  && negb (is_prefix (u "'") (rev e)).

(** No occurrence of [sep] begins in [p] when [tail] follows. *)
Fixpoint clear_of (sep p tail : str) : Prop :=
  match p with
  | [] => True
  | c :: p' => is_prefix sep (p ++ tail) = false /\ clear_of sep p' tail
  end.

(** Twelve vacancy ids. *)
Definition twelve_ids : list str :=
  map (fun n => str_of_int (Z.of_nat n)) (seq 101 12).

(** A transport whose answer to the request for vacancy 103 is an error
    and to every other request a complete page. *)
Definition failing_third (url : str) : Response :=
  if str_eqb url (vacancy_url (u "103"))
  then {| status_code := 503; soup := complete_page |}
  else {| status_code := 200; soup := complete_page |}.

(** ** Result links *)

(** The characters of [[a-zA-Z:/.]]. *)
Definition href_char (c : N) : bool :=
  ascii_letter c || (c =? 58)%N || (c =? 47)%N || (c =? 46)%N.

(** A link of a result page to a vacancy: [path], [vid] and [query] are
    the parts of its address after the site, before and after the
    question mark. *)
Definition result_link (l : str * str * str) : Anchor :=
  let '(path, vid, query) := l in
  {| a_class := [u "bloko-link"];
     a_target := Some (u "_blank");
     a_href := Some (u "https://perm.hh.ru/" ++ path ++ vid ++ u "?" ++ query) |}.

(** The path is made of letters, [:], [/] and [.], the id of digits, and
    the query holds no further question mark. *)
Definition plain_link (l : str * str * str) : bool :=
  let '(path, vid, query) := l in
  forallb href_char path && forallb ascii_digit vid
  && negb (existsb (N.eqb 63) query).

(** A result page that repeats itself: every request is answered with
    the same 15 links. *)
Definition same_page_forever (url : str) : Response :=
  {| status_code := 200; soup := listing 100 15 |}.

(** A link with two question marks. *)
Definition two_marks_link : Anchor :=
  {| a_class := [u "bloko-link"];
     a_target := Some (u "_blank");
     a_href := Some (u "https://perm.hh.ru/vacancy/77?from=a?b") |}.

Definition page_of (links : list Anchor) : Soup :=
  {| anchors := links;
     title_h1 := None; company_span := None; rating_div := None;
     location_tag := None; experience_span := None;
     employment_mode_p := None; creation_time_p := None; skills_li := [] |}.

(** ** Letter case and tokens *)

(** The lowercase of the letters of Basic Latin and of the Cyrillic
    block; every other character is left as it is. *)
Definition basic_lower (c : N) : N :=
  if is_ascii c then ascii_lower c
  else if in_range 1024 1039 c then (c + 80)%N
  else if in_range 1040 1071 c then (c + 32)%N
  else c.

(** Patterns without sets. *)
Fixpoint set_free (r : regex) : bool :=
  match r with
  | InSet _ => false
  | Seq a b | Alt a b => set_free a && set_free b
  | Star a | Plus a | Group _ a => set_free a
  | Empty | Lit _ | AnyChar | Boundary => true
  end.

(** Two cursors at the same place of two texts that differ in letter
    case only. *)
Definition same_place (x y : cursor) : Prop :=
  match fst x, fst y with
  | Some a, Some b => basic_lower a = basic_lower b
  | None, None => True
  | _, _ => False
  end
  /\ map basic_lower (snd x) = map basic_lower (snd y).

(** [\bw\b] *)
Definition token_re (w : str) : regex := Seq Boundary (lits_then w Boundary).

Section Tokens.
  Variable U : unicode_db.
  Variable icase : bool.

(** [t] contains the word [w] with a word boundary on either side. *)
Definition contains_token (w t : str) : Prop :=
  exists a w' b,
    t = a ++ w' ++ b /\ same_word U icase w w'
    /\ at_boundary U (at_cursor (last_char None a, w' ++ b)) = true
    /\ at_boundary U (at_cursor (last_char None (a ++ w'), b)) = true.
End Tokens.

(** ** The order of a rating *)

(** The place of the first occurrence of [k] in [l] (the length of [l]
    when there is none). *)
Fixpoint first_index (k : str) (l : list str) : nat :=
  match l with
  | [] => 0
  | x :: l' => if str_eqb x k then 0 else S (first_index k l')
  end.

(** [k1] comes before [k2] in a rating of the skills listed in [lists]:
    it is listed more often, or as often and first listed earlier. *)
Definition ranks_before (lists : list (list str)) (k1 k2 : str) : Prop :=
  occurrences k2 lists < occurrences k1 lists
  \/ (occurrences k2 lists = occurrences k1 lists
      /\ first_index k1 (List.concat lists) < first_index k2 (List.concat lists)).

(** A table with ties. *)
Definition tied_skills_table : list Vacancy :=
  [ {| category := u "Data Analyst"; skills := Some [u "Excel"; u "SQL"] |};
    {| category := u "Data Analyst"; skills := Some [u "Python"; u "SQL"] |};
    {| category := u "Data Engineer"; skills := Some [u "Spark"] |};
    {| category := u "Data Analyst"; skills := Some [u "Python"; u "Excel"] |};
    {| category := u "Data Analyst"; skills := Some [u "Tableau"] |} ].

(** ** The parts of a rounded quotient *)

(** The exponent and the mantissa that [nearest_float] computes for
    [a / b], before a mantissa of [2^53] is carried over. *)
Definition quotient_floor (a b : Z) : Z :=
  let l := (Z.log2 a - Z.log2 b)%Z in
  if (b * pow2 l <=? a * pow2 (- l))%Z then l else (l - 1)%Z.

Definition quotient_exponent (a b : Z) : Z :=
  Z.max (quotient_floor a b - 52) (-1074).

Definition quotient_mantissa (a b : Z) : Z :=
  div_half_even (a * pow2 (- quotient_exponent a b))
    (b * pow2 (quotient_exponent a b)).

(** The fractions of a rating go down. *)
Definition fraction_not_above (p q : str * float) : Prop :=
  (float_to_Q (snd q) <= float_to_Q (snd p))%Q.

(** ** Charts and the map *)

(** The sum of the counts. *)
Definition total_count (c : list (str * Z)) : Z :=
  fold_right Z.add 0%Z (map snd c).

(** The number of rows of a column that hold [k]. *)
Definition rows_with (k : str) (column : list str) : Z :=
  Z.of_nat (count_occ str_eq_dec column k).

(** The marker of a city with [n] vacancies. *)
Definition city_marker (Place : Type) (city : str) (place : Place) (n : Z)
  : CircleMarker Place :=
  {| location := place; radius := city_radius n; tooltip := city;
     popup := str_of_int n; fill_color := city_color n |}.

(** A geocoder that knows two cities. *)
Definition two_cities (city : str) : option (Z * Z) :=
  if str_eqb city (u "Perm") then Some (58, 56)%Z
  else if str_eqb city (u "Moscow") then Some (56, 38)%Z
  else None.

(** ** Saving and loading *)

(** The characters of a date text: digits and the hyphen. *)
Definition date_char (c : N) : bool := ascii_digit c || (c =? 45)%N.

(** The range of the fields of a date: two digits for the day and the
    month, a year up to 9999. *)
Definition printable_date (d : date) : Prop :=
  (0 <= day d <= 99)%Z /\ (0 <= month d <= 99)%Z /\ (0 <= year d <= 9999)%Z.

(** The name of the file of an experience level saved on day [d]. *)
Definition saved_name (exp : str) (d : date) : str :=
  exp ++ u "_" ++ strftime_dmY d.

(** A CSV writer for the examples: the ids, one per line. *)
Definition ids_csv (rows : list Row) : str :=
  flat_map (fun r => r_id r ++ [10%N]) rows.

(** A transport for the examples: one result page with 15 links, then
    an empty page; every vacancy page is complete. *)
Definition one_page (url : str) : Response :=
  if is_infix (u "&page=0") url
  then {| status_code := 200; soup := listing 100 15 |}
  else {| status_code := 200; soup := complete_page |}.

Definition example_day : date := {| year := 2024; month := 3; day := 15 |}.

(** A day of a year of three digits. *)
Definition early_day : date := {| year := 999; month := 3; day := 15 |}.

(** A directory with a file saved that day, a copy of it and another
    file. *)
Definition example_directory : Files :=
  [ (u "noExperience_15-03-2024", u "old text");
    (u "notes.txt", []);
    (u "old_15-03-2024.bak", []) ].

(** ** The chart of skills *)

(** The non-negative binary64 numbers in canonical form: a mantissa of
    53 bits, or of fewer bits at the least exponent. *)
Definition normal (x : float) : Prop :=
  x = S754_zero false
  \/ exists m e, x = S754_finite false m e
       /\ (Z.pos m < 2 ^ 53)%Z /\ (2 ^ 52 <= Z.pos m \/ e = -1074)%Z.

(** The pairs of a rating that are charted. *)
Definition charted (p : str * float) : bool := float_ge (snd p) float_0_05.

(** Twenty-six vacancies of one category: all ask for SQL, one also for
    Cobol. *)
Definition long_tail_table : list Vacancy :=
  repeat {| category := u "Data Analyst"; skills := Some [u "SQL"] |} 25
  ++ [ {| category := u "Data Analyst";
          skills := Some [u "SQL"; u "Cobol"] |} ].

(** * Properties *)

(** ** The matcher finds what the pattern denotes *)

Section MatcherCorrect.
  Variable U : unicode_db.
  Variable icase : bool.

Lemma step_ends : forall test st,
ends_at (step test st) (char_step test (cur st)).
Proof.
intros test st c'. unfold step, char_step, cur. simpl.
destruct (m_rest st) as [|ch s'] eqn:E.
- split.
  + intros (st' & [] & _).
  + intros (ch & s' & H & _). discriminate.
- destruct (test ch) eqn:T; split.
  + intros (st' & [<-|[]] & <-). exists ch, s'. auto.
  + intros (ch' & s'' & H & T' & ->). injection H as <- <-.
    eexists. split; [left; reflexivity|reflexivity].
  + intros (st' & [] & _).
  + intros (ch' & s'' & H & T' & ->). injection H as <- <-. congruence.
Qed.

Lemma star_loop_ends : forall (body : mstate -> list mstate) R,
(forall st, ends_at (body st) (R (cur st))) ->
forall fuel st, List.length (m_rest st) <= fuel ->
  ends_at (star_loop body fuel st) (star R (cur st)).
Proof.
intros body R HB. induction fuel as [|f IH]; intros st Hlen c'.
- simpl. split.
  + intros (st' & [<-|[]] & <-). constructor.
  + intros H. inversion H; subst.
    * exists st. split; [now left|reflexivity].
    * unfold cur in *. simpl in *. lia.
- simpl. split.
  + intros (st' & Hin & <-). apply in_app_iff in Hin.
    destruct Hin as [Hin|[<-|[]]]; [|constructor].
    apply in_flat_map in Hin. destruct Hin as (m & Hm & Hin).
    destruct (Nat.ltb_spec (List.length (m_rest m)) (List.length (m_rest st)))
      as [Hlt|Hge]; [|destruct Hin].
    apply star_more with (m := cur m).
    * apply (HB st). exists m. auto.
    * exact Hlt.
    * apply (IH m); [lia|]. exists st'. auto.
  + intros H. inversion H as [|c m c'' HR Hlt Hs]; subst.
    * exists st. split; [apply in_app_iff; right; now left|reflexivity].
    * apply (HB st) in HR. destruct HR as (stm & Hm & <-).
      unfold cur in Hlt. simpl in Hlt.
      apply (IH stm) in Hs; [|lia]. destruct Hs as (st' & Hin & <-).
      exists st'. split; [|reflexivity].
      apply in_app_iff. left. apply in_flat_map. exists stm. split; [exact Hm|].
      destruct (Nat.ltb_spec (List.length (m_rest stm)) (List.length (m_rest st)));
        [exact Hin|lia].
Qed.

(** The matcher ends exactly where the pattern can lead. *)
Lemma run_denote : forall r st,
ends_at (run U icase r st) (denote U icase r (cur st)).
Proof.
induction r as [|x| |items| |a IHa b IHb|a IHa b IHb|a IHa|a IHa|n a IHa];
  intros st c'; simpl.
- split.
  + intros (st' & [<-|[]] & <-). reflexivity.
  + intros ->. exists st. split; [now left|reflexivity].
- apply step_ends.
- apply (step_ends not_newline).
- apply step_ends.
- change (at_boundary U (at_cursor (cur st))) with (at_boundary U st).
  destruct (at_boundary U st); split.
  + intros (st' & [<-|[]] & <-). auto.
  + intros [-> _]. exists st. split; [now left|reflexivity].
  + intros (st' & [] & _).
  + intros [_ H]. discriminate.
- split.
  + intros (st' & Hin & <-). apply in_flat_map in Hin.
    destruct Hin as (m & Hm & Hin). exists (cur m). split.
    * apply IHa. eauto.
    * apply IHb. eauto.
  + intros (m & Ha & Hb). apply IHa in Ha. destruct Ha as (stm & Hm & <-).
    apply IHb in Hb. destruct Hb as (st' & Hin & <-).
    exists st'. split; [|reflexivity]. apply in_flat_map. eauto.
- split.
  + intros (st' & Hin & <-). apply in_app_iff in Hin.
    destruct Hin; [left; apply IHa|right; apply IHb]; eauto.
  + intros [H|H]; [apply IHa in H|apply IHb in H];
      destruct H as (st' & Hin & <-); exists st'; split; auto;
      apply in_app_iff; auto.
- apply (@star_loop_ends (run U icase a) (denote U icase a) IHa). lia.
- split.
  + intros (st' & Hin & <-). apply in_flat_map in Hin.
    destruct Hin as (m & Hm & Hin). exists (cur m). split.
    * apply IHa. eauto.
    * apply (@star_loop_ends (run U icase a) (denote U icase a) IHa
               (List.length (m_rest m)) m (le_n _)). eauto.
  + intros (m & Ha & Hs). apply IHa in Ha. destruct Ha as (stm & Hm & <-).
    apply (@star_loop_ends (run U icase a) (denote U icase a) IHa
             (List.length (m_rest stm)) stm (le_n _)) in Hs.
    destruct Hs as (st' & Hin & <-).
    exists st'. split; [|reflexivity]. apply in_flat_map. eauto.
- split.
  + intros (st' & Hin & <-). apply in_map_iff in Hin.
    destruct Hin as (m & <- & Hm). apply IHa. exists m. auto.
  + intros H. apply IHa in H. destruct H as (m & Hm & <-).
    exists (set_group n st m). split; [|reflexivity].
    apply in_map. exact Hm.
Qed.

Lemma match_here_accepts : forall r prev rest,
match_here U icase r prev rest <> None <-> accepts U icase r (prev, rest).
Proof.
intros r prev rest. unfold match_here, accepts.
pose proof (run_denote r (start prev rest)) as H.
unfold ends_at in H. change (cur (start prev rest)) with (prev, rest) in H.
destruct (run U icase r (start prev rest)) as [|m ms]; simpl; split.
- congruence.
- intros (c' & Hc). apply H in Hc. destruct Hc as (st' & [] & _).
- intros _. exists (cur m). apply H. exists m. split; [now left|reflexivity].
- discriminate.
Qed.

Lemma search_from_accepts : forall r rest prev,
search_from U icase r prev rest <> None <->
exists pre suf,
  rest = pre ++ suf /\ accepts U icase r (last_char prev pre, suf).
Proof.
intros r. induction rest as [|c rest IH]; intros prev; simpl.
- pose proof (match_here_accepts r prev []) as H.
  destruct (match_here U icase r prev []) as [m|]; split.
  + intros _. exists [], []. split; [reflexivity|]. apply H. discriminate.
  + discriminate.
  + congruence.
  + intros (pre & suf & E & A). symmetry in E. apply app_eq_nil in E.
    destruct E as [-> ->]. apply H in A. congruence.
- pose proof (match_here_accepts r prev (c :: rest)) as H.
  destruct (match_here U icase r prev (c :: rest)) as [m|]; split.
  + intros _. exists [], (c :: rest). split; [reflexivity|].
    apply H. discriminate.
  + discriminate.
  + intros Hs. apply IH in Hs. destruct Hs as (pre & suf & -> & A).
    exists (c :: pre), suf. split; [reflexivity|exact A].
  + intros (pre & suf & E & A). destruct pre as [|c0 pre].
    * simpl in E. subst suf. apply H in A. congruence.
    * injection E as <- ->. apply IH. exists pre, suf. auto.
Qed.

(** [re.search] finds a match exactly when the pattern accepts at some
  place of the text. *)
Lemma re_search_accepts : forall r s,
re_search U icase r s = true <->
exists pre suf, s = pre ++ suf /\ accepts U icase r (last_char None pre, suf).
Proof.
intros r s. rewrite <- search_from_accepts. unfold re_search.
destruct (search_from U icase r None s); split; congruence.
Qed.

Lemma re_search_alt : forall a b s,
re_search U icase (Alt a b) s = true <->
re_search U icase a s = true \/ re_search U icase b s = true.
Proof.
intros a b s. rewrite !re_search_accepts. unfold accepts. simpl. split.
- intros (pre & suf & E & c' & [H|H]); [left|right]; eauto 6.
- intros [(pre & suf & E & c' & H)|(pre & suf & E & c' & H)]; eauto 7.
Qed.

Lemma re_search_group : forall n a s,
re_search U icase (Group n a) s = true <-> re_search U icase a s = true.
Proof. intros n a s. rewrite !re_search_accepts. reflexivity. Qed.

(** *** Literal words and gaps *)

Lemma denote_lits_then : forall w k p s c',
denote U icase (lits_then w k) (p, s) c' <->
exists w' s', s = w' ++ s' /\ same_word U icase w w'
              /\ denote U icase k (last_char p w', s') c'.
Proof.
induction w as [|x w IH]; intros k p s c'; simpl.
- split.
  + intros H. exists [], s. repeat split; [constructor|exact H].
  + intros (w' & s' & -> & Hw & H). inversion Hw; subst. exact H.
- split.
  + intros (m & (ch & s1 & E & T & ->) & H). simpl in E. subst s.
    apply IH in H. destruct H as (w' & s' & -> & Hw & H).
    exists (ch :: w'), s'. repeat split; [constructor; assumption|exact H].
  + intros (w' & s' & -> & Hw & H). inversion Hw as [|? ch ? w1 T Hw1]; subst.
    exists (Some ch, w1 ++ s'). split.
    * exists ch, (w1 ++ s'). auto.
    * apply IH. exists w1, s'. auto.
Qed.

Lemma not_newline_iff : forall ch, not_newline ch = true <-> ch <> 10%N.
Proof.
intros ch. unfold not_newline. destruct (N.eqb_spec ch 10); simpl; split;
  congruence.
Qed.

Lemma star_any_gap : forall c c',
star (char_step not_newline) c c' <->
exists g, snd c = g ++ snd c' /\ no_newline g
          /\ fst c' = last_char (fst c) g.
Proof.
intros c c'. split.
- induction 1 as [c|c m c' (ch & s' & E & T & ->) _ _ IH].
  + exists []. repeat split. constructor.
  + destruct IH as (g & E' & Hg & Hp). simpl in *.
    exists (ch :: g). rewrite E, E'. repeat split.
    * constructor; [now apply not_newline_iff|exact Hg].
    * exact Hp.
- intros (g & E & Hg & Hp). destruct c as [p s], c' as [p' s'].
  simpl in *. subst s p'. revert p. induction Hg as [|ch g Hch Hg IH]; intros p.
  + constructor.
  + apply star_more with (m := (Some ch, g ++ s')).
    * exists ch, (g ++ s'). repeat split. now apply not_newline_iff.
    * simpl. rewrite length_app. lia.
    * apply IH.
Qed.

Lemma accepts_dot_star : forall c, accepts U icase (Star AnyChar) c.
Proof. intros c. exists c. simpl. constructor. Qed.

Lemma accepts_star_then : forall k p s,
accepts U icase (Seq (Star AnyChar) k) (p, s) <->
exists g s', s = g ++ s' /\ no_newline g
             /\ accepts U icase k (last_char p g, s').
Proof.
intros k p s. unfold accepts. simpl. split.
- intros (c' & [p1 s1] & Hs & Hk). apply star_any_gap in Hs.
  destruct Hs as (g & E & Hg & Hp). simpl in *. subst.
  exists g, s1. eauto.
- intros (g & s' & -> & Hg & c' & Hk). exists c', (last_char p g, s').
  split; [|exact Hk]. apply star_any_gap. exists g. auto.
Qed.

Lemma accepts_plus_then : forall k p s,
accepts U icase (Seq (Plus AnyChar) k) (p, s) <->
exists g s', s = g ++ s' /\ g <> [] /\ no_newline g
             /\ accepts U icase k (last_char p g, s').
Proof.
intros k p s. unfold accepts. simpl. split.
- intros (c' & [p2 s2] & ([p1 s1] & (ch & s0 & E & T & E1) & Hs) & Hk).
  apply star_any_gap in Hs. destruct Hs as (g & E' & Hg & Hp).
  simpl in *. injection E1 as -> ->. subst.
  exists (ch :: g), s2. repeat split.
  + discriminate.
  + constructor; [now apply not_newline_iff|exact Hg].
  + eauto.
- intros (g & s' & -> & Hne & Hg & c' & Hk).
  destruct g as [|ch g]; [congruence|]. inversion Hg; subst.
  exists c', (last_char p (ch :: g), s'). split; [|exact Hk].
  exists (Some ch, g ++ s'). split.
  + exists ch, (g ++ s'). repeat split. now apply not_newline_iff.
  + apply star_any_gap. exists g. auto.
Qed.

Lemma accepts_lits_then : forall w k p s,
accepts U icase (lits_then w k) (p, s) <->
exists w' s', s = w' ++ s' /\ same_word U icase w w'
              /\ accepts U icase k (last_char p w', s').
Proof.
intros w k p s. unfold accepts. split.
- intros (c' & H). apply denote_lits_then in H.
  destruct H as (w' & s' & -> & Hw & H). eauto 6.
- intros (w' & s' & -> & Hw & c' & H). exists c'.
  apply denote_lits_then. eauto 6.
Qed.

(** [.*w.*] is found in the texts that contain [w]. *)
Lemma search_anywhere : forall w t,
re_search U icase (anywhere w) t = true <-> contains_word U icase w t.
Proof.
intros w t. rewrite re_search_accepts. unfold contains_word, anywhere. split.
- intros (pre & suf & -> & A). apply accepts_star_then in A.
  destruct A as (g & s' & -> & _ & A). apply accepts_lits_then in A.
  destruct A as (w' & b & -> & Hw & _).
  exists (pre ++ g), w', b. split; [now rewrite <- app_assoc|exact Hw].
- intros (a & w' & b & -> & Hw). exists a, (w' ++ b). split; [reflexivity|].
  apply accepts_star_then. exists [], (w' ++ b).
  repeat split; [constructor|]. apply accepts_lits_then.
  exists w', b. repeat split; [exact Hw|apply accepts_dot_star].
Qed.

(** [.*w1.+w2.*] and [.*w1.*w2.*] are found in the texts that contain
  the two words in this order on one line. *)
Lemma search_pair : forall apart w1 w2 t,
re_search U icase (pair_re apart w1 w2) t = true <->
contains_pair U icase apart w1 w2 t.
Proof.
intros apart w1 w2 t. rewrite re_search_accepts.
unfold contains_pair, pair_re. split.
- intros (pre & suf & -> & A). apply accepts_star_then in A.
  destruct A as (g0 & s0 & -> & _ & A). apply accepts_lits_then in A.
  destruct A as (w1' & s1 & -> & Hw1 & A).
  assert (exists g s2, s1 = g ++ s2 /\ no_newline g
            /\ (apart = true -> g <> [])
            /\ accepts U icase (lits_then w2 (Star AnyChar))
                 (last_char
                    (last_char (last_char (last_char None pre) g0) w1') g,
                  s2))
    as (g & s2 & -> & Hg & Hne & A2).
  { destruct apart.
    - apply accepts_plus_then in A. destruct A as (g & s2 & E & Hne & Hg & A).
      exists g, s2. auto.
    - apply accepts_star_then in A. destruct A as (g & s2 & E & Hg & A).
      exists g, s2. repeat split; auto. discriminate. }
  apply accepts_lits_then in A2. destruct A2 as (w2' & b & -> & Hw2 & _).
  exists (pre ++ g0), w1', g, w2', b.
  repeat split; auto. now rewrite <- app_assoc.
- intros (a & w1' & g & w2' & b & -> & Hw1 & Hw2 & Hg & Hne).
  exists a, (w1' ++ g ++ w2' ++ b). split; [reflexivity|].
  apply accepts_star_then. exists [], (w1' ++ g ++ w2' ++ b).
  repeat split; [constructor|]. apply accepts_lits_then.
  exists w1', (g ++ w2' ++ b). repeat split; [exact Hw1|].
  assert (accepts U icase (lits_then w2 (Star AnyChar))
            (last_char (last_char (last_char None a) w1') g, w2' ++ b)) as A2.
  { apply accepts_lits_then. exists w2', b.
    repeat split; [exact Hw2|apply accepts_dot_star]. }
  destruct apart.
  + apply accepts_plus_then. exists g, (w2' ++ b). repeat split; auto.
  + apply accepts_star_then. exists g, (w2' ++ b). repeat split; auto.
Qed.
End MatcherCorrect.

(** ** The classifier *)

Lemma product_analyst_re_shape :
  product_analyst_re =
  Alt (Group 1 (anywhere (u "product")))
    (Alt (Group 2 (pair_re true (u "prod") (u "анал")))
       (Alt (Group 3 (pair_re false (u "анал") (u "прод")))
          (Group 4 (anywhere (u "продукт"))))).
Proof. reflexivity. Qed.

Lemma ascii_lower_inv : forall c x : N,
  ascii_lower c = x -> in_range 97 122 x = true -> c = x \/ (c + 32 = x)%N.
Proof.
  intros c x H Hx. unfold ascii_lower, in_range in *.
  destruct (65 <=? c)%N, (c <=? 90)%N; simpl in H; auto.
Qed.

Section ClassifierProperties.
  Variable U : unicode_db.

(** When the product-analyst rule fires. *)
Lemma product_rule_matches : forall t,
search_ic U product_analyst_re t = true <->
contains_word U true (u "product") t
\/ contains_pair U true true (u "prod") (u "анал") t
\/ contains_pair U true false (u "анал") (u "прод") t
\/ contains_word U true (u "продукт") t.
Proof.
intros t. unfold search_ic. rewrite product_analyst_re_shape.
rewrite !re_search_alt, !re_search_group, !search_anywhere, !search_pair.
reflexivity.
Qed.

(** C6 (as amended): a title that the data-analyst and BI-analyst rules
  do not match is classified "Product Analyst" exactly when it
  contains "product" or "продукт" (letters compared without case), or
  "prod" followed on the same line, at least one character later, by
  "анал", or "анал" followed on the same line by "прод"; no analyst
  term is needed beside "product". *)
Theorem product_analyst_rule : forall t,
search_ic U data_analyst_re t = false ->
search_ic U bi_analyst_re t = false ->
(categorize_vacancy U t = u "Product Analyst" <->
 contains_word U true (u "product") t
 \/ contains_pair U true true (u "prod") (u "анал") t
 \/ contains_pair U true false (u "анал") (u "прод") t
 \/ contains_word U true (u "продукт") t).
Proof.
intros t H1 H2. rewrite <- product_rule_matches.
unfold categorize_vacancy. rewrite H1, H2.
destruct (search_ic U product_analyst_re t).
- split; reflexivity.
- split; [|discriminate].
  destruct (search_ic U web_analyst_re t); [discriminate|].
  destruct (search_ic U data_engineer_re t); [discriminate|].
  destruct (search_ic U data_scientist_re t); discriminate.
Qed.

(** C2 (as amended): a title is classified "Data Engineer" exactly when
  it matches an engineer pattern and none of the data-analyst,
  BI-analyst, product-analyst and web-analyst patterns, which are
  tried first. *)
Theorem data_engineer_rule : forall t,
categorize_vacancy U t = u "Data Engineer" <->
search_ic U data_analyst_re t = false
/\ search_ic U bi_analyst_re t = false
/\ search_ic U product_analyst_re t = false
/\ search_ic U web_analyst_re t = false
/\ search_ic U data_engineer_re t = true.
Proof.
intros t. unfold categorize_vacancy.
destruct (search_ic U data_analyst_re t);
  [split; [discriminate|intros (? & _); discriminate]|].
destruct (search_ic U bi_analyst_re t);
  [split; [discriminate|intros (_ & ? & _); discriminate]|].
destruct (search_ic U product_analyst_re t);
  [split; [discriminate|intros (_ & _ & ? & _); discriminate]|].
destruct (search_ic U web_analyst_re t);
  [split; [discriminate|intros (_ & _ & _ & ? & _); discriminate]|].
destruct (search_ic U data_engineer_re t).
- split; [intros _; repeat split|reflexivity].
- split; [|intros (_ & _ & _ & _ & ?); discriminate].
  destruct (search_ic U data_scientist_re t); discriminate.
Qed.

(** C7: a title that is the token "DA", in any letter case, is
  classified "Data Analyst"; likewise "BI" gives "BI Analyst", "DE"
  gives "Data Engineer" and "DS" gives "Data Scientist". *)
Theorem token_titles : forall t label,
In (map ascii_lower t, label) token_labels ->
categorize_vacancy U t = label.
Proof.
intros t label H. simpl in H.
destruct H as [H|[H|[H|[H|[]]]]]; injection H as Ht <-;
  destruct t as [|c1 [|c2 [|c3 t]]]; try discriminate Ht;
  simpl in Ht; injection Ht as E1 E2; symmetry in E1, E2;
  apply ascii_lower_inv in E1; try reflexivity;
  apply ascii_lower_inv in E2; try reflexivity;
  destruct E1 as [E1|E1]; destruct E2 as [E2|E2];
  repeat match goal with
    | E : (?c + 32)%N = ?x |- _ =>
        let v := eval vm_compute in (x - 32)%N in
        assert (c = v) by lia; clear E; subst c
    end;
  subst; vm_compute; reflexivity.
Qed.
End ClassifierProperties.

Lemma token_titles_witness :
  In (map ascii_lower (u "dA"), u "Data Analyst") token_labels
  /\ categorize_vacancy plain_unicode (u "dA") = u "Data Analyst".
Proof.
  split; [left; reflexivity|].
  apply (@token_titles plain_unicode (u "dA") (u "Data Analyst")).
  left. reflexivity.
Defined.

(** C2, as stated, fails: "Data Engineer/Analyst" matches an engineer
    pattern and an analyst pattern, and the data-analyst rule, tried
    first, labels it "Data Analyst". *)
Lemma engineer_analyst_title_is_data_analyst :
  for_every_table (fun U =>
    search_ic U data_engineer_re (u "Data Engineer/Analyst") = true
    /\ search_ic U data_analyst_re (u "Data Engineer/Analyst") = true
    /\ categorize_vacancy U (u "Data Engineer/Analyst") = u "Data Analyst"
    /\ categorize_vacancy U (u "Data Engineer/Analyst") <> u "Data Engineer").
Proof.
  intros U. split; [|split; [|split]]; try (vm_compute; reflexivity).
  vm_compute. discriminate.
Qed.

(** C6, as stated, fails: "Product Manager" holds no analyst term, the
    first two rules do not match it, and it is classified
    "Product Analyst". *)
Lemma product_manager_is_product_analyst :
  for_every_table (fun U =>
    search_ic U data_analyst_re (u "Product Manager") = false
    /\ search_ic U bi_analyst_re (u "Product Manager") = false
    /\ ~ contains_word U true (u "anal") (u "Product Manager")
    /\ ~ contains_word U true (u "анал") (u "Product Manager")
    /\ categorize_vacancy U (u "Product Manager") = u "Product Analyst").
Proof.
  intros U. split; [|split; [|split; [|split]]];
    try (vm_compute; reflexivity);
    rewrite <- search_anywhere; vm_compute; discriminate.
Qed.

Lemma product_analyst_rule_witness :
  categorize_vacancy plain_unicode (u "Product Manager") = u "Product Analyst"
  <-> contains_word plain_unicode true (u "product") (u "Product Manager")
      \/ contains_pair plain_unicode true true (u "prod") (u "анал")
           (u "Product Manager")
      \/ contains_pair plain_unicode true false (u "анал") (u "прод")
           (u "Product Manager")
      \/ contains_word plain_unicode true (u "продукт") (u "Product Manager").
Proof.
  apply (@product_analyst_rule plain_unicode (u "Product Manager"));
    vm_compute; reflexivity.
Defined.

(** ** [str_to_list] *)

Lemma split_go_nonempty : forall sep s skip cur, split_go sep skip cur s <> [].
Proof.
  intros sep. induction s as [|c s IH]; intros skip cur; simpl.
  - discriminate.
  - destruct skip; [|apply IH].
    destruct (is_prefix sep (c :: s)); [discriminate|apply IH].
Qed.

(** C10: [str_to_list] never returns an empty list: a falsy input gives
    [None], and the text of the empty list gives the list holding one
    empty string. *)
Theorem str_to_list_never_empty :
  str_to_list None = None
  /\ str_to_list (Some []) = None
  /\ str_to_list (Some (u "[]")) = Some [[]]
  /\ forall string, str_to_list string <> Some [].
Proof.
  split; [reflexivity|]. split; [reflexivity|].
  split; [vm_compute; reflexivity|].
  intros [[|c s]|]; simpl; try discriminate.
  intros H. injection H as H. apply map_eq_nil in H.
  revert H. apply split_go_nonempty.
Qed.

(** ** Floating-point division and rounding *)

Section FloatBounds.
  Open Scope Z_scope.

Lemma pow2_pos : forall k, 0 < pow2 k.
Proof. intros k. unfold pow2. apply Z.pow_pos_nonneg; lia. Qed.

Lemma pow2_nonpos : forall k, k <= 0 -> pow2 k = 1.
Proof. intros k H. unfold pow2. rewrite Z.max_l by lia. reflexivity. Qed.

Lemma pow2_nonneg : forall k, 0 <= k -> pow2 k = 2 ^ k.
Proof. intros k H. unfold pow2. rewrite Z.max_r by lia. reflexivity. Qed.

Lemma div_half_even_nonneg : forall a b,
  0 <= a -> 0 < b -> 0 <= div_half_even a b.
Proof.
  intros a b Ha Hb. unfold div_half_even.
  assert (0 <= a / b) by (apply Z.div_pos; lia).
  destruct (2 * (a mod b) ?= b); [destruct (Z.even (a / b))| |]; lia.
Qed.

Lemma div_half_even_le : forall a b c,
  0 <= a -> 0 < b -> a <= c * b -> div_half_even a b <= c.
Proof.
  intros a b c Ha Hb Hc. unfold div_half_even.
  assert (a / b <= c) as Hq by (apply Z.div_le_upper_bound; lia).
  pose proof (Z.div_mod a b ltac:(lia)) as Hdm.
  pose proof (Z.mod_pos_bound a b Hb) as Hm.
  assert (a / b = c -> a mod b = 0) as Hexact by nia.
  destruct (Z.eq_dec (a / b) c) as [E|NE].
  - rewrite (Hexact E). rewrite Z.mul_0_r.
    destruct (Z.compare_spec 0 b); lia.
  - destruct (2 * (a mod b) ?= b); [destruct (Z.even (a / b))| |]; lia.
Qed.

Lemma in_unit_zero : forall s, in_unit (S754_zero s).
Proof. intros s. split; vm_compute; discriminate. Qed.

Lemma in_unit_finite : forall m e,
  0 < m -> m * pow2 e <= pow2 (- e) ->
  in_unit (S754_finite false (Z.to_pos m) e).
Proof.
  intros m e Hm H. pose proof (pow2_pos e). pose proof (pow2_pos (- e)).
  split; unfold float_to_Q, Qle; cbn [Qnum Qden];
    rewrite !Z2Pos.id by lia; nia.
Qed.

Lemma nearest_float_unit : forall a b,
  0 < a -> a <= b ->
  exists x, nearest_float false a b = inl x /\ in_unit x.
Proof.
  intros a b Ha Hab. unfold nearest_float.
  set (l := Z.log2 a - Z.log2 b).
  assert (l <= 0) as Hl by (pose proof (Z.log2_le_mono a b Hab); lia).
  set (fl := if b * pow2 l <=? a * pow2 (- l) then l else l - 1).
  assert (fl <= 0) as Hfl
    by (unfold fl; destruct (b * pow2 l <=? a * pow2 (- l)); lia).
  set (e := Z.max (fl - 52) (-1074)).
  assert (e <= -52) as He by (unfold e; lia).
  rewrite (@pow2_nonpos e), (@pow2_nonneg (- e)), Z.mul_1_r by lia.
  set (m0 := div_half_even (a * 2 ^ (- e)) b).
  assert (0 < 2 ^ (- e)) as Hp by (apply Z.pow_pos_nonneg; lia).
  assert (0 <= m0) as Hm0 by (apply div_half_even_nonneg; nia).
  assert (m0 <= 2 ^ (- e)) as Hm1 by (apply div_half_even_le; nia).
  destruct (Z.eqb_spec m0 (2 ^ 53)) as [E|NE].
  - assert (53 <= - e) as He53.
    { destruct (Z_lt_le_dec (- e) 53) as [Hlt|]; [|assumption].
      assert (2 ^ (- e) < 2 ^ 53) by (apply Z.pow_lt_mono_r; lia). lia. }
    change (2 ^ 52 =? 0) with false. cbv iota.
    destruct (Z.ltb_spec 971 (e + 1)) as [|_]; [lia|].
    eexists. split; [reflexivity|].
    apply in_unit_finite; [reflexivity|].
    rewrite pow2_nonpos by lia. rewrite pow2_nonneg by lia.
    assert (2 ^ 52 <= 2 ^ (- (e + 1))) by (apply Z.pow_le_mono_r; lia). lia.
  - destruct (Z.eqb_spec m0 0) as [Z0|NZ].
    + eexists. split; [reflexivity|apply in_unit_zero].
    + destruct (Z.ltb_spec 971 e) as [|_]; [lia|].
      eexists. split; [reflexivity|].
      apply in_unit_finite; [lia|].
      rewrite pow2_nonpos by lia. rewrite pow2_nonneg by lia. lia.
Qed.

Lemma int_truediv_unit : forall a b,
  0 < a -> a <= b -> exists x, int_truediv a b = inl x /\ in_unit x.
Proof.
  intros a b Ha Hab. unfold int_truediv.
  destruct (Z.eqb_spec b 0); [lia|]. destruct (Z.eqb_spec a 0); [lia|].
  destruct (Z.ltb_spec a 0); [lia|]. destruct (Z.ltb_spec b 0); [lia|].
  simpl xorb. rewrite !Z.abs_eq by lia. apply nearest_float_unit; assumption.
Qed.

Lemma round_float_unit : forall x,
  in_unit x -> exists f, round_float x 3 = inl f /\ in_unit f.
Proof.
  intros x Hx. destruct x as [s|s| |s m e];
    try (eexists; split; [reflexivity|exact Hx]).
  unfold round_float.
  pose proof (pow2_pos e) as Pe. pose proof (pow2_pos (- e)) as Pn.
  destruct Hx as [H0 H1]. unfold float_to_Q, Qle in H0, H1.
  cbn [Qnum Qden] in H0, H1.
  rewrite !Z2Pos.id in H0, H1 by lia.
  destruct s; [exfalso; nia|].
  set (k := div_half_even (Z.pos m * pow2 e * 10 ^ 3) (pow2 (- e))).
  assert (0 <= k) by (apply div_half_even_nonneg; nia).
  assert (k <= 1000) by (apply div_half_even_le; nia).
  destruct (Z.eqb_spec k 0).
  - eexists. split; [reflexivity|apply in_unit_zero].
  - change (10 ^ 3) with 1000. apply nearest_float_unit; lia.
Qed.
End FloatBounds.

(** [int_truediv] agrees with the division of the standard library's
    IEEE 754 specification; checked on a grid of small operands, on powers
    of two around the ends of the exponent range and on operands beyond
    53 bits. *)
Lemma nearest_float_agrees_with_SFdiv :
  all_agree small_operands small_operands = true
  /\ all_agree [1; 3; 1000]%Z large_operands = true
  /\ all_agree large_operands [1; 3; 1000]%Z = true
  /\ all_agree [10 ^ 20; 2 ^ 1074; 2 ^ 1075 + 1]%Z large_operands = true.
Proof. split; [|split; [|split]]; vm_compute; reflexivity. Qed.

(** ** Skill popularity *)

Lemma str_eqb_eq : forall a b, str_eqb a b = true <-> a = b.
Proof.
  intros a b. unfold str_eqb. destruct (str_eq_dec a b); split; congruence.
Qed.

Lemma str_eqb_neq : forall a b, str_eqb a b = false <-> a <> b.
Proof.
  intros a b. unfold str_eqb. destruct (str_eq_dec a b); split; congruence.
Qed.

Lemma collect_skills_spec : forall cells total all_skills,
  collect_skills cells total all_skills =
  ((total + Z.of_nat (List.length (filter truthy cells)))%Z,
   all_skills ++ List.concat (map cell_list (filter truthy cells))).
Proof.
  induction cells as [|skill cells IH]; intros total all_skills; simpl.
  - now rewrite Z.add_0_r, app_nil_r.
  - destruct (truthy skill) eqn:T; rewrite IH; simpl.
    + f_equal; [lia|]. now rewrite <- app_assoc.
    + reflexivity.
Qed.

Lemma bearing_cells : forall df specialization,
  map cell_list
    (filter truthy
       (map skills
          (filter (fun v => str_eqb (category v) specialization) df)))
  = skill_lists df specialization.
Proof.
  intros df specialization. unfold skill_lists, skill_bearing.
  induction df as [|v df IH]; simpl; [reflexivity|].
  destruct (str_eqb (category v) specialization); simpl; [|exact IH].
  destruct (truthy (skills v)); simpl; [f_equal|]; exact IH.
Qed.

(** *** The counter *)

Lemma counter_add_keys : forall x c,
  map fst (counter_add x c) =
  if existsb (fun k => str_eqb k x) (map fst c) then map fst c
  else map fst c ++ [x].
Proof.
  intros x. induction c as [|[k n] c IH]; simpl; [reflexivity|].
  destruct (str_eqb k x) eqn:E; simpl; [reflexivity|].
  rewrite IH. destruct (existsb _ (map fst c)); reflexivity.
Qed.

Lemma existsb_key : forall x ks,
  existsb (fun k => str_eqb k x) ks = true <-> In x ks.
Proof.
  intros x ks. rewrite existsb_exists. split.
  - intros (k & Hin & E). apply str_eqb_eq in E. now subst.
  - intros H. exists x. split; [exact H|now apply str_eqb_eq].
Qed.

Lemma counter_add_In : forall x c k n,
  NoDup (map fst c) ->
  In (k, n) (counter_add x c) ->
  (k <> x /\ In (k, n) c)
  \/ (k = x /\ ((exists n0, In (x, n0) c /\ n = (n0 + 1)%Z)
                \/ (~ In x (map fst c) /\ n = 1%Z))).
Proof.
  intros x. induction c as [|[k0 n0] c IH]; intros k n ND H; simpl in *.
  - destruct H as [H|[]]. injection H as <- <-. right. split; auto.
  - inversion ND as [|? ? Hnot ND']; subst.
    destruct (str_eqb k0 x) eqn:E.
    + apply str_eqb_eq in E. subst k0. destruct H as [H|H].
      * injection H as <- <-. right. split; [reflexivity|]. left. eauto.
      * left. split; [|auto]. intros ->. apply Hnot.
        change x with (fst (x, n)). now apply in_map.
    + apply str_eqb_neq in E. destruct H as [H|H].
      * injection H as <- <-. left. auto.
      * destruct (IH k n ND' H) as [[Hk Hin]|[-> [(n1 & Hin & ->)|[Hnot' ->]]]].
        -- left. auto.
        -- right. split; [reflexivity|]. left. eauto.
        -- right. split; [reflexivity|]. right. split; [|reflexivity].
           intros [F|F]; [now apply E|now apply Hnot'].
Qed.

Lemma counts_add : forall c l x,
  counts c l -> counts (counter_add x c) (l ++ [x]).
Proof.
  intros c l x (ND & Hkeys & Hcount). repeat split.
  - rewrite counter_add_keys. destruct (existsb _ (map fst c)) eqn:E; [exact ND|].
    apply NoDup_app; repeat split; auto.
    + constructor; [intros []|constructor].
    + intros k Hk [<-|[]].
      apply existsb_key in Hk. congruence.
  - intros k Hk. rewrite counter_add_keys. apply in_app_iff in Hk.
    destruct (existsb _ (map fst c)) eqn:E.
    + destruct Hk as [Hk|[<-|[]]]; [auto|now apply existsb_key].
    + apply in_app_iff. destruct Hk as [Hk|Hk]; auto.
  - apply counter_add_In in H; [|exact ND].
    destruct H as [[Hk Hin]|[-> _]]; [|apply in_app_iff; right; now left].
    apply in_app_iff. left. now apply Hcount in Hin.
  - apply counter_add_In in H; [|exact ND].
    rewrite count_occ_app. simpl.
    destruct H as [[Hk Hin]|[-> [(n0 & Hin & ->)|[Hnot ->]]]].
    + apply Hcount in Hin. destruct Hin as [_ ->].
      destruct (str_eq_dec x k); [congruence|lia].
    + apply Hcount in Hin. destruct Hin as [_ ->].
      destruct (str_eq_dec x x); [lia|congruence].
    + destruct (str_eq_dec x x); [|congruence].
      assert (count_occ str_eq_dec l x = 0%nat) as ->; [|reflexivity].
      apply count_occ_not_In. intros Hin. apply Hnot. now apply Hkeys.
Qed.

Lemma Counter_counts : forall l, counts (Counter l) l.
Proof.
  intros l. unfold Counter.
  assert (forall l2 c l1, counts c l1 ->
            counts (fold_left (fun c k => counter_add k c) l2 c) (l1 ++ l2))
    as H.
  { induction l2 as [|x l2 IH]; intros c l1 Hc; simpl.
    - now rewrite app_nil_r.
    - replace (l1 ++ x :: l2) with ((l1 ++ [x]) ++ l2)
        by (now rewrite <- app_assoc).
      apply IH. now apply counts_add. }
  apply (H l [] []). repeat split; simpl; try constructor; intros; contradiction.
Qed.

(** *** Sorting *)

Lemma insert_desc_In : forall x y l,
  In x (insert_desc y l) <-> x = y \/ In x l.
Proof.
  intros x y. induction l as [|z l IH]; simpl.
  - intuition.
  - destruct (snd z <=? snd y)%Z; simpl; [intuition|].
    rewrite IH. intuition.
Qed.

Lemma sorted_desc_In : forall x l, In x (sorted_desc l) <-> In x l.
Proof.
  intros x. induction l as [|y l IH]; simpl; [reflexivity|].
  rewrite insert_desc_In, IH. intuition.
Qed.

(** *** Comprehensions *)

Lemma comprehension_In : forall (A B : Type) (f : A -> result B) l bs b,
  comprehension f l = inl bs -> In b bs ->
  exists a, In a l /\ f a = inl b.
Proof.
  intros A B f. induction l as [|a l IH]; intros bs b H Hin; simpl in H.
  - injection H as <-. destruct Hin.
  - destruct (f a) as [b0|e] eqn:Ea; [|discriminate]. simpl in H.
    destruct (comprehension f l) as [bs0|e] eqn:El; [|discriminate].
    simpl in H. injection H as <-. destruct Hin as [<-|Hin].
    + exists a. split; [now left|exact Ea].
    + destruct (IH bs0 b eq_refl Hin) as (a' & Hin' & E').
      exists a'. split; [now right|exact E'].
Qed.

Lemma comprehension_total : forall (A B : Type) (f : A -> result B)
  (P : B -> Prop) l,
  (forall a, In a l -> exists b, f a = inl b /\ P b) ->
  exists bs, comprehension f l = inl bs /\ Forall P bs.
Proof.
  intros A B f P. induction l as [|a l IH]; intros H; simpl.
  - exists []. split; [reflexivity|constructor].
  - destruct (H a (or_introl eq_refl)) as (b & Eb & Pb).
    destruct IH as (bs & Ebs & Pbs); [intros; apply H; now right|].
    rewrite Eb, Ebs. simpl. exists (b :: bs). split; [reflexivity|].
    constructor; assumption.
Qed.

(** *** [skills_rating] *)

Lemma skills_rating_unfold : forall df specialization,
  skills_rating df specialization =
  comprehension
    (fun '(skill, number) =>
       x <- int_truediv number
              (Z.of_nat (List.length (skill_lists df specialization))) ;;
       f <- round_float x 3 ;;
       ret (skill, f))
    (sorted_desc (Counter (List.concat (skill_lists df specialization)))).
Proof.
  intros df specialization. unfold skills_rating.
  rewrite collect_skills_spec, bearing_cells.
  assert (List.length
            (filter truthy
               (map skills
                  (filter (fun v => str_eqb (category v) specialization) df)))
          = List.length (skill_lists df specialization)) as ->.
  { rewrite <- bearing_cells. now rewrite length_map. }
  reflexivity.
Qed.

Lemma counted_pair : forall lists skill number,
  In (skill, number) (sorted_desc (Counter (List.concat lists))) ->
  (0 < occurrences skill lists)%nat
  /\ number = Z.of_nat (occurrences skill lists).
Proof.
  intros lists skill number H. apply (proj1 (sorted_desc_In _ _)) in H.
  destruct (Counter_counts (List.concat lists)) as (_ & _ & Hc).
  apply Hc in H. destruct H as [Hin ->]. split; [|reflexivity].
  unfold occurrences. now apply count_occ_In.
Qed.

Lemma occurrences_le : forall lists skill,
  Forall (@NoDup str) lists ->
  (occurrences skill lists <= List.length lists)%nat.
Proof.
  intros lists skill H. unfold occurrences.
  induction H as [|l lists Hl _ IH]; simpl; [lia|].
  rewrite count_occ_app.
  pose proof (proj1 (NoDup_count_occ str_eq_dec l) Hl skill). lia.
Qed.

(** C5 (as amended): every (skill, fraction) pair that [skills_rating]
    returns has, as its fraction, the number of occurrences of the skill
    divided by the number of vacancies of the category with a non-empty
    skill list, rounded to 3 decimal digits; vacancies without skills are
    not counted.  When no vacancy lists a skill twice the call returns
    and every fraction lies in [0,1]. *)
Theorem skills_rating_fractions : forall df specialization,
  let lists := skill_lists df specialization in
  let total := Z.of_nat (List.length lists) in
  (forall pairs skill fraction,
     skills_rating df specialization = inl pairs ->
     In (skill, fraction) pairs ->
     (0 < occurrences skill lists)%nat
     /\ fraction_of (Z.of_nat (occurrences skill lists)) total = inl fraction)
  /\ (Forall (@NoDup str) lists ->
      exists pairs,
        skills_rating df specialization = inl pairs
        /\ forall skill fraction, In (skill, fraction) pairs -> in_unit fraction).
Proof.
  intros df specialization. cbv zeta.
  set (lists := skill_lists df specialization).
  set (total := Z.of_nat (List.length lists)). split.
  - intros pairs skill fraction H Hin. rewrite skills_rating_unfold in H.
    fold lists in H. fold total in H.
    destruct (comprehension_In _ _ _ H Hin) as ([k n] & Ha & Ef).
    apply counted_pair in Ha. destruct Ha as [Hpos ->].
    unfold fraction_of.
    destruct (int_truediv (Z.of_nat (occurrences k lists)) total)
      as [x|e] eqn:E1; simpl in Ef; [|discriminate].
    destruct (round_float x 3) as [f|e] eqn:E2; simpl in Ef; [|discriminate].
    injection Ef as <- <-. rewrite E1. simpl. auto.
  - intros ND. rewrite skills_rating_unfold. fold lists. fold total.
    destruct (@comprehension_total _ _
                (fun '(skill, number) =>
                   x <- int_truediv number total ;;
                   f <- round_float x 3 ;; ret (skill, f))
                (fun p : str * float => in_unit (snd p))
                (sorted_desc (Counter (List.concat lists))))
      as (pairs & E & HP).
    + intros [k n] Ha. apply counted_pair in Ha. destruct Ha as [Hpos ->].
      pose proof (occurrences_le k ND) as Hle.
      destruct (@int_truediv_unit (Z.of_nat (occurrences k lists)) total)
        as (x & Ex & Hx); [lia|unfold total; lia|].
      destruct (round_float_unit Hx) as (f & Ef & Hf).
      rewrite Ex. simpl. rewrite Ef. simpl.
      exists (k, f). split; [reflexivity|exact Hf].
    + exists pairs. split; [exact E|].
      intros skill fraction Hin. rewrite Forall_forall in HP.
      exact (HP _ Hin).
Qed.

(** C4 (as amended): when no vacancy of the category has a non-empty
    skill list, [skills_rating] returns the empty list; no division takes
    place and no error is raised. *)
Theorem skills_rating_without_skills : forall df specialization,
  (forall v, In v df -> category v = specialization ->
             truthy (skills v) = false) ->
  skills_rating df specialization = inl [].
Proof.
  intros df specialization H. rewrite skills_rating_unfold.
  assert (skill_lists df specialization = []) as ->; [|reflexivity].
  unfold skill_lists.
  assert (filter (skill_bearing specialization) df = []) as ->; [|reflexivity].
  induction df as [|v df IH]; simpl; [reflexivity|].
  unfold skill_bearing at 1.
  destruct (str_eqb (category v) specialization) eqn:E; simpl.
  - apply str_eqb_eq in E. rewrite (H v (or_introl eq_refl) E).
    apply IH. intros; apply H; auto. now right.
  - apply IH. intros; apply H; auto. now right.
Qed.

Lemma skills_rating_without_skills_witness :
  skills_rating no_skills_table (u "Data Analyst") = inl [].
Proof.
  apply (@skills_rating_without_skills no_skills_table (u "Data Analyst")).
  intros v [<-|[<-|[<-|[]]]] E; try reflexivity.
  vm_compute in E. discriminate.
Defined.

(** C4, as stated, fails: a category without skill-bearing vacancies gets
    the empty list, not an error. *)
Lemma no_skills_is_no_error :
  forallb (fun v => negb (skill_bearing (u "Data Analyst") v)) no_skills_table
  = true
  /\ skills_rating no_skills_table (u "Data Analyst") = inl []
  /\ forall e, skills_rating no_skills_table (u "Data Analyst") <> inr e.
Proof.
  split; [vm_compute; reflexivity|].
  split; [vm_compute; reflexivity|].
  intros e. vm_compute. discriminate.
Qed.

(** C5, as stated, fails: a vacancy that lists a skill twice gives the
    skill the fraction 2.0. *)
Lemma repeated_skill_fraction_above_one :
  skill_lists repeated_skill_table (u "Data Analyst") = [[u "SQL"; u "SQL"]]
  /\ skills_rating repeated_skill_table (u "Data Analyst")
     = inl [(u "SQL", float_two)]
  /\ (float_to_Q float_two == 2)%Q
  /\ ~ in_unit float_two.
Proof.
  split; [vm_compute; reflexivity|].
  split; [vm_compute; reflexivity|].
  split; [vm_compute; reflexivity|].
  intros [_ H]. vm_compute in H. apply H. reflexivity.
Qed.

Lemma skills_rating_fractions_witness :
  Forall (@NoDup str) (skill_lists two_vacancies_table (u "Data Analyst"))
  /\ exists pairs,
       skills_rating two_vacancies_table (u "Data Analyst") = inl pairs
       /\ forall skill fraction, In (skill, fraction) pairs -> in_unit fraction.
Proof.
  assert (Forall (@NoDup str)
            (skill_lists two_vacancies_table (u "Data Analyst"))) as ND.
  { vm_compute. repeat constructor; simpl; intuition discriminate. }
  split; [exact ND|].
  exact (proj2 (skills_rating_fractions two_vacancies_table (u "Data Analyst"))
           ND).
Defined.

(** ** Detail extraction *)

Lemma flushed_le : forall k, flushed k <= k.
Proof.
  intros [|j]; cbn [flushed]; [lia|].
  pose proof (Nat.div_mod_eq j 10). lia.
Qed.

Section DetailProperties.
  Variable requests_get : str -> Response.

Lemma info_loop_rows : forall vacancies_id done df data,
(forall vid, In vid vacancies_id ->
   status_code (requests_get (vacancy_url vid)) = 200%Z) ->
df ++ data = done ->
List.length df = flushed (List.length done) ->
info_loop requests_get vacancies_id (Z.of_nat (List.length done)) df data
= firstn
    (flushed (List.length (done ++ extracted requests_get vacancies_id)))
    (done ++ extracted requests_get vacancies_id).
Proof.
induction vacancies_id as [|vid ids IH]; intros done df data Hok Hd Hlen.
- simpl. rewrite app_nil_r, <- Hlen, <- Hd.
  rewrite firstn_app, firstn_all, Nat.sub_diag. simpl. now rewrite app_nil_r.
- cbn [info_loop extracted flat_map].
  rewrite (Hok vid (or_introl eq_refl)). cbn [Z.eqb Pos.eqb negb].
  fold (extracted requests_get ids).
  destruct (extract_row vid (vacancy_url vid)
              (soup (requests_get (vacancy_url vid)))) as [row|e].
  + replace (done ++ [row] ++ extracted requests_get ids)
      with ((done ++ [row]) ++ extracted requests_get ids)
      by (now rewrite <- app_assoc).
    assert (Z.of_nat (List.length done) + 1
            = Z.of_nat (List.length (done ++ [row])))%Z as ->
      by (rewrite length_app; simpl; lia).
    assert (forall vid', In vid' ids ->
              status_code (requests_get (vacancy_url vid')) = 200%Z) as Hok'
      by (intros; apply Hok; now right).
    change 10%Z with (Z.of_nat 10). rewrite <- Nat2Z.inj_mod.
    change 0%Z with (Z.of_nat 0).
    destruct (Z.eqb_spec (Z.of_nat (List.length done mod 10)) (Z.of_nat 0))
      as [E|NE]; [apply Nat2Z.inj in E|rewrite Nat2Z.inj_iff in NE].
    * apply IH; [exact Hok'|rewrite app_nil_r, app_assoc; now rewrite Hd|].
      rewrite app_assoc, Hd, !length_app. simpl List.length.
      replace (List.length done + 1) with (S (List.length done)) by lia.
      cbn [flushed].
      pose proof (Nat.div_mod_eq (List.length done) 10). lia.
    * apply IH; [exact Hok'|rewrite app_assoc; now rewrite Hd|].
      rewrite Hlen, length_app. simpl.
      replace (List.length done + 1) with (S (List.length done)) by lia.
      destruct (List.length done) as [|j] eqn:Ej; [exfalso; now apply NE|].
      cbn [flushed].
      pose proof (Nat.div_mod_eq (S j) 10).
      pose proof (Nat.div_mod_eq j 10).
      pose proof (Nat.mod_upper_bound (S j) 10).
      pose proof (Nat.mod_upper_bound j 10). nia.
  + simpl app. apply IH; auto. intros; apply Hok; now right.
Qed.

(** X4: what the loop returns when no request fails: the first [flushed k]
  of the [k] extracted rows.  The rows collected after the last
  extension of the table are not in it. *)
Lemma get_vacancy_info_rows : forall vacancies_id,
(forall vid, In vid vacancies_id ->
   status_code (requests_get (vacancy_url vid)) = 200%Z) ->
get_vacancy_info requests_get vacancies_id
= firstn (flushed (List.length (extracted requests_get vacancies_id)))
    (extracted requests_get vacancies_id).
Proof.
intros ids Hok. unfold get_vacancy_info.
apply (@info_loop_rows ids [] [] [] Hok); reflexivity.
Qed.

(** A failing request, by contrast, returns every row extracted before
  it: the rows still pending are appended before the return. *)
Lemma info_loop_failure : forall vid rest counter df data,
status_code (requests_get (vacancy_url vid)) <> 200%Z ->
info_loop requests_get (vid :: rest) counter df data = df ++ data.
Proof.
intros vid rest counter df data H. cbn [info_loop].
destruct (Z.eqb_spec (status_code (requests_get (vacancy_url vid))) 200);
  [contradiction|reflexivity].
Qed.
End DetailProperties.

(** C1 fails on the code: two ids, both answered with status 200 and a
    complete page; each is extracted to a row, and the returned table has
    one row. *)
Theorem two_complete_pages_one_row :
  List.length (extracted complete_transport [u "101"; u "102"]) = 2
  /\ List.length (get_vacancy_info complete_transport [u "101"; u "102"]) = 1.
Proof. split; vm_compute; reflexivity. Qed.

(** ** Listing discovery *)

Section DiscoveryProperties.
  Variable U : unicode_db.
  Variable requests_get : str -> Response.
  Variable vacancies : list str.
  Variable exp : str.
  Variable search_period : Z.

Lemma ids_of_pages_succ : forall pages page n,
ids_of_pages U pages page (S n)
= ids_at U pages page ++ ids_of_pages U pages (page + 1) n.
Proof.
intros pages page n. unfold ids_of_pages. simpl.
rewrite Z.add_0_r. f_equal. rewrite <- seq_shift, map_map. f_equal.
apply map_ext. intros k. f_equal. lia.
Qed.

Lemma vacancies_loop_pages : forall n fuel page acc,
(forall k, k < n ->
   continues U (result_pages requests_get vacancies exp search_period)
     (page + Z.of_nat k)) ->
stops U (result_pages requests_get vacancies exp search_period)
  (page + Z.of_nat n) ->
n < fuel ->
vacancies_loop U requests_get vacancies exp search_period fuel page acc
= Some (save_data
          (acc ++ ids_of_pages U
                    (result_pages requests_get vacancies exp search_period)
                    page n)).
Proof.
set (pages := result_pages requests_get vacancies exp search_period).
induction n as [|n IH]; intros fuel page acc Hgo Hstop Hfuel;
  (destruct fuel as [|fuel]; [lia|]); cbn [vacancies_loop];
  change (requests_get (search_url vacancies exp search_period page))
    with (pages page);
  fold (ids_at U pages page).
- simpl in Hstop. rewrite Z.add_0_r in Hstop.
  unfold ids_of_pages. simpl. rewrite app_nil_r.
  destruct (Z.eqb_spec (status_code (pages page)) 200) as [E|NE];
    [|reflexivity].
  destruct Hstop as [Hs|Hs]; [contradiction|]. now rewrite Hs.
- destruct (Hgo 0 ltac:(lia)) as [Hs Hids]. simpl in Hs, Hids.
  rewrite Z.add_0_r in Hs, Hids. rewrite Hs. cbn [Z.eqb Pos.eqb negb].
  destruct (ids_at U pages page) as [|i is_] eqn:E; [congruence|].
  rewrite ids_of_pages_succ, E, app_assoc.
  apply IH; [| |lia].
  + intros k Hk. replace (page + 1 + Z.of_nat k)%Z
      with (page + Z.of_nat (S k))%Z by lia. apply Hgo. lia.
  + replace (page + 1 + Z.of_nat n)%Z with (page + Z.of_nat (S n))%Z by lia.
    exact Hstop.
Qed.

Lemma save_data_columns : forall ids,
  map id (save_data ids) = ids
  /\ Forall (fun row => vacancy_name row = None) (save_data ids).
Proof.
  intros ids. unfold save_data. cbn [app]. split.
  - rewrite map_map. cbn [id]. apply map_id.
  - apply Forall_forall. intros row H. apply in_map_iff in H.
    destruct H as (i & <- & _). reflexivity.
Qed.

(** C3: when the pages [page], ..., [page + n - 1] answer with status
    200 and at least one id each and page [page + n] is the first to
    answer with another status or with no id, [get_all_vacancies]
    returns (once allowed more than [n] fetches) a table whose [id]
    column is the concatenation of the ids extracted from those [n]
    pages, in order, and whose other column is empty.  A request
    answered with a failure status ends the loop with that table: the
    call returns, it raises nothing. *)
Theorem get_all_vacancies_pages : forall n fuel page,
  (forall k, k < n ->
     continues U (result_pages requests_get vacancies exp search_period)
       (page + Z.of_nat k)) ->
  stops U (result_pages requests_get vacancies exp search_period)
    (page + Z.of_nat n) ->
  n < fuel ->
  exists table,
    get_all_vacancies U requests_get vacancies exp search_period fuel page
    = Some table
    /\ map id table
       = List.concat
           (map (fun k =>
                   get_current_vacancies_id U
                     (soup (requests_get
                              (search_url vacancies exp search_period
                                 (page + Z.of_nat k)))))
              (seq 0 n))
    /\ Forall (fun row => vacancy_name row = None) table.
Proof.
  intros n fuel page Hgo Hstop Hfuel. unfold get_all_vacancies.
  rewrite (@vacancies_loop_pages n fuel page [] Hgo Hstop Hfuel).
  cbn [app]. eexists. split; [reflexivity|].
  destruct (save_data_columns
              (ids_of_pages U
                 (result_pages requests_get vacancies exp search_period)
                 page n)) as [Hid Hname].
  split; [exact Hid|exact Hname].
Qed.
End DiscoveryProperties.

(** Two pages of 15 ids and an empty third page give a table of the 30
    ids of the two pages. *)
Lemma get_all_vacancies_pages_witness :
  exists table,
    get_all_vacancies plain_unicode three_pages [u "data analyst"]
      (u "noExperience") 1 5 0
    = Some table
    /\ List.length table = 30
    /\ map id table = map (fun n => str_of_int (Z.of_nat n)) (seq 100 30)
    /\ map id table
       = List.concat
           (map (fun k =>
                   get_current_vacancies_id plain_unicode
                     (soup (three_pages
                              (search_url [u "data analyst"]
                                 (u "noExperience") 1 (0 + Z.of_nat k)))))
              (seq 0 2))
    /\ Forall (fun row => vacancy_name row = None) table.
Proof.
  destruct (@get_all_vacancies_pages plain_unicode three_pages
              [u "data analyst"] (u "noExperience") 1%Z 2 5 0%Z)
    as (table & E & Hid & Hname).
  - intros k Hk. destruct k as [|[|k]]; [| |lia];
      (split; [vm_compute; reflexivity|vm_compute; discriminate]).
  - right. vm_compute. reflexivity.
  - lia.
  - exists table. split; [exact E|].
    split; [|split; [|split; [exact Hid|exact Hname]]];
      vm_compute in E; injection E as <-; vm_compute; reflexivity.
Defined.

(** A request that fails on the second page leaves a table of exactly
    the 15 ids of the first page. *)
Lemma failing_second_page_keeps_first :
  for_every_table (fun U =>
    exists table,
      get_all_vacancies U failing_second_page [u "data analyst"]
        (u "noExperience") 1 5 0
      = Some table
      /\ map id table
         = get_current_vacancies_id U
             (soup (failing_second_page (example_url 0)))
      /\ map id table = map (fun n => str_of_int (Z.of_nat n)) (seq 100 15)).
Proof.
  intros U. eexists. split; [vm_compute; reflexivity|].
  split; vm_compute; reflexivity.
Qed.

(** ** Date parsing *)

Lemma month_word_re_shape :
  month_word_re = Group 1 (Plus (InSet [SRange 1072 1103])).
Proof. reflexivity. Qed.

Lemma plain_starts : forall s, plain s -> starts_plain s.
Proof. intros s H. destruct H; simpl; auto. Qed.

Lemma hd_error_app : forall (A : Type) (l1 l2 : list A) v,
  hd_error l1 = Some v -> hd_error (l1 ++ l2) = Some v.
Proof. intros A [|a l1] l2 v H; [discriminate|exact H]. Qed.

Lemma firstn_prefix : forall (A : Type) (w r : list A),
  firstn (List.length (w ++ r) - List.length r) (w ++ r) = w.
Proof.
  intros A w r. rewrite length_app.
  replace (List.length w + List.length r - List.length r)
    with (List.length w) by lia.
  rewrite firstn_app, firstn_all, Nat.sub_diag. simpl. apply app_nil_r.
Qed.

Lemma matched_prefix : forall st st' w,
  m_rest st = w ++ m_rest st' -> matched_text st st' = w.
Proof.
  intros st st' w E. unfold matched_text, consumed. rewrite E.
  apply firstn_prefix.
Qed.

Section MonthWords.
  Variable U : unicode_db.

Lemma letter_step_plain : forall st,
  starts_plain (m_rest st) -> letter_step U st = [].
Proof.
  intros st H. unfold letter_step, step. destruct (m_rest st) as [|c r];
    [reflexivity|]. simpl in H. unfold set_match. simpl.
  unfold month_letter in H. now rewrite H.
Qed.

Lemma letter_step_letter : forall st c r,
  m_rest st = c :: r -> month_letter c = true ->
  letter_step U st = [advance st c r].
Proof.
  intros st c r E H. unfold letter_step, step. rewrite E.
  unfold set_match. simpl. unfold month_letter in H. now rewrite H.
Qed.

(** Greedy repetition takes the whole run of letters first. *)
Lemma star_letters_head : forall word fuel st rest,
  m_rest st = word ++ rest -> letters word -> starts_plain rest ->
  List.length (word ++ rest) <= fuel ->
  hd_error (star_loop (letter_step U) fuel st) = Some (over st word rest).
Proof.
  induction word as [|c word IH]; intros fuel st rest E Hw Hr Hf.
  - simpl in E. assert (over st [] rest = st) as ->
      by (destruct st; simpl in *; now subst).
    destruct fuel; [reflexivity|]. simpl.
    rewrite letter_step_plain by (now rewrite E). reflexivity.
  - destruct fuel as [|fuel]; [simpl in Hf; lia|].
    inversion Hw as [|? ? Hc Hw']; subst. simpl.
    rewrite (@letter_step_letter st c (word ++ rest) E Hc). simpl.
    rewrite E. simpl.
    destruct (Nat.ltb_spec (List.length (word ++ rest))
                (S (List.length (word ++ rest)))) as [_|]; [|lia].
    apply hd_error_app. rewrite app_nil_r.
    rewrite (IH fuel (advance st c (word ++ rest)) rest); auto.
    simpl in Hf. lia.
Qed.

Lemma run_word_plain : forall st,
  starts_plain (m_rest st) -> run U false month_word_re st = [].
Proof.
  intros st H. rewrite month_word_re_shape. simpl.
  fold (letter_step U). now rewrite letter_step_plain.
Qed.

Lemma run_word_head : forall st c word rest,
  m_rest st = (c :: word) ++ rest -> letters (c :: word) ->
  starts_plain rest ->
  hd_error (run U false month_word_re st)
  = Some {| m_prev := last_char (m_prev st) (c :: word); m_rest := rest;
            m_groups := (1, c :: word) :: m_groups st |}.
Proof.
  intros st c word rest E Hw Hr. rewrite month_word_re_shape.
  inversion Hw as [|? ? Hc Hw']; subst. simpl.
  fold (letter_step U).
  rewrite (@letter_step_letter st c (word ++ rest) E Hc). simpl.
  rewrite app_nil_r.
  pose proof (@star_letters_head word (List.length (word ++ rest))
                (advance st c (word ++ rest)) rest eq_refl Hw' Hr (le_n _))
    as H.
  destruct (star_loop (letter_step U) (List.length (word ++ rest))
              (advance st c (word ++ rest))) as [|m ms]; [discriminate|].
  simpl in H. injection H as ->. cbn [map hd_error]. f_equal.
  unfold set_group.
  rewrite (@matched_prefix st (over (advance st c (word ++ rest)) word rest)
             (c :: word) E).
  reflexivity.
Qed.

(** *** Scanning *)

Lemma matches_here_plain : forall prev s,
  starts_plain s -> matches_here U false month_word_re prev s = ([], 0).
Proof.
  intros prev s H. unfold matches_here.
  now rewrite (@run_word_plain (start prev s) H).
Qed.

Lemma scan_plain : forall pre prev rest,
  plain pre ->
  scan U false month_word_re prev (pre ++ rest) 0
  = map Unmatched pre
    ++ scan U false month_word_re (last_char prev pre) rest 0.
Proof.
  induction pre as [|c pre IH]; intros prev rest H; [reflexivity|].
  inversion H as [|? ? Hc H']; subst. cbn [scan app map].
  rewrite matches_here_plain by exact Hc. cbn [app]. f_equal. now apply IH.
Qed.

Lemma scan_end : forall prev, scan U false month_word_re prev [] 0 = [].
Proof.
  intros prev. cbn [scan]. now rewrite matches_here_plain by exact I.
Qed.

Lemma scan_skip : forall r xs prev rest,
  scan U false r prev (xs ++ rest) (List.length xs)
  = scan U false r (last_char prev xs) rest 0.
Proof.
  intros r. induction xs as [|x xs IH]; intros prev rest; [reflexivity|].
  simpl. apply IH.
Qed.

Lemma matches_here_word : forall c word rest prev,
  letters (c :: word) -> starts_plain rest ->
  exists m,
    group_text 1 (m_groups m) = Some (c :: word)
    /\ matches_here U false month_word_re prev ((c :: word) ++ rest)
       = ([Matched (c :: word) m], S (List.length word)).
Proof.
  intros c word rest prev Hw Hr.
  set (st := start prev ((c :: word) ++ rest)).
  set (m := {| m_prev := last_char (m_prev st) (c :: word);
               m_rest := rest;
               m_groups := (1, c :: word) :: m_groups st |}).
  pose proof (@run_word_head st c word rest eq_refl Hw Hr) as H.
  fold m in H.
  assert (matched_text st m = c :: word) as Ht
    by (apply matched_prefix; reflexivity).
  assert (consumed st m = S (List.length word)) as Hn.
  { unfold consumed. cbn [m_rest st m start List.length app].
    rewrite length_app. lia. }
  exists m. split; [reflexivity|].
  unfold matches_here. cbv zeta. fold st.
  destruct (run U false month_word_re st) as [|m' ms]; [discriminate|].
  simpl in H. injection H as ->.
  unfold nonempty_match. rewrite Ht, Hn. reflexivity.
Qed.

Lemma scan_word : forall c word rest prev,
  letters (c :: word) -> starts_plain rest ->
  exists m,
    group_text 1 (m_groups m) = Some (c :: word)
    /\ scan U false month_word_re prev ((c :: word) ++ rest) 0
       = Matched (c :: word) m
         :: scan U false month_word_re (last_char prev (c :: word)) rest 0.
Proof.
  intros c word rest prev Hw Hr.
  destruct (@matches_here_word c word rest prev Hw Hr) as (m & Hg & Hm).
  exists m. split; [exact Hg|].
  change ((c :: word) ++ rest) with (c :: word ++ rest) in *.
  cbn [scan]. rewrite Hm. cbn [app].
  now rewrite (@scan_skip month_word_re word (Some c) rest).
Qed.

Lemma findall_unmatched : forall s, flat_map found_text (map Unmatched s) = [].
Proof. induction s; simpl; auto. Qed.

Lemma sub_unmatched : forall repl s,
  flat_map (fun seg => match seg with
                       | Unmatched c => [c]
                       | Matched _ _ => repl
                       end) (map Unmatched s) = s.
Proof. intros repl. induction s; simpl; [reflexivity|now f_equal]. Qed.

(** A text with one run of letters: [findall] returns the run and [sub]
    replaces it. *)
Lemma one_word : forall pre word post repl,
  plain pre -> letters word -> word <> [] -> plain post ->
  re_findall U false month_word_re (pre ++ word ++ post) = [word]
  /\ re_sub U false month_word_re repl (pre ++ word ++ post)
     = pre ++ repl ++ post.
Proof.
  intros pre word post repl Hpre Hw Hne Hpost.
  destruct word as [|c word]; [congruence|].
  destruct (@scan_word c word post (last_char None pre) Hw
              (plain_starts Hpost)) as (m & Hg & Hs).
  assert (scan U false month_word_re None (pre ++ (c :: word) ++ post) 0
          = map Unmatched pre ++ Matched (c :: word) m :: map Unmatched post)
    as E.
  { rewrite scan_plain by exact Hpre. rewrite Hs. f_equal. f_equal.
    rewrite <- (app_nil_r post) at 1. rewrite scan_plain by exact Hpost.
    rewrite scan_end. apply app_nil_r. }
  unfold re_findall, re_sub. rewrite E. rewrite !flat_map_app. split.
  - change (flat_map _ (map Unmatched pre)) with
      (flat_map found_text (map Unmatched pre)).
    rewrite findall_unmatched. simpl. rewrite Hg.
    change (flat_map _ (map Unmatched post)) with
      (flat_map found_text (map Unmatched post)).
    now rewrite findall_unmatched.
  - rewrite sub_unmatched. simpl. now rewrite sub_unmatched.
Qed.

(** A text without letters: [findall] finds nothing. *)
Lemma no_word : forall s,
  plain s -> re_findall U false month_word_re s = [].
Proof.
  intros s H. unfold re_findall. rewrite <- (app_nil_r s).
  rewrite scan_plain by exact H. rewrite scan_end, app_nil_r.
  apply findall_unmatched.
Qed.
End MonthWords.

(** *** The numeric text *)

Lemma dmY_re_shape :
  dmY_re =
  Seq (Group 1 day_re)
    (Seq spaces_re (Seq (Group 2 mon_re) (Seq spaces_re (Group 3 year_re)))).
Proof. reflexivity. Qed.

Ltac eval_matched :=
  unfold advance, set_group, start; cbn [m_prev m_rest m_groups];
  repeat match goal with
    | |- context [matched_text ?a ?b] =>
        let ra := eval cbn in (m_rest a) in
        let rb := eval cbn in (m_rest b) in
        let w := prefix_of ra rb in
        rewrite (@matched_prefix a b w eq_refl)
    end.

Ltac crank :=
  repeat (progress (cbn; eval_spaces; eval_digits; rewrite ?app_nil_r));
  eval_matched.

Section NumericText.
  Variable U : unicode_db.

  Local Arguments is_space : simpl never.
  Local Arguments unicode_isdigit : simpl never.

Lemma day_then : forall d c tail K,
  (1 <= d <= 31)%Z -> is_space c = false ->
  run U true (Seq (Group 1 day_re) (Seq spaces_re K))
    (start None (str_of_int d ++ 32%N :: c :: tail))
  = run U true K {| m_prev := Some 32%N; m_rest := c :: tail;
                    m_groups := [(1, str_of_int d)] |}.
Proof.
  intros d c tail K Hd Hc. enumerate d; eval_texts; crank; reflexivity.
Qed.

Lemma month_then : forall m c tail K gs,
  (1 <= m <= 12)%Z -> is_space c = false ->
  run U true (Seq (Group 2 mon_re) (Seq spaces_re K))
    {| m_prev := Some 32%N; m_rest := str_of_int m ++ 32%N :: c :: tail;
       m_groups := gs |}
  = run U true K {| m_prev := Some 32%N; m_rest := c :: tail;
                    m_groups := (2, str_of_int m) :: gs |}.
Proof.
  intros m c tail K gs Hm Hc. enumerate m; eval_texts; crank; reflexivity.
Qed.

Lemma year_group : forall y1 y2 y3 y4 prev gs,
  unicode_isdigit U y1 = true -> unicode_isdigit U y2 = true ->
  unicode_isdigit U y3 = true -> unicode_isdigit U y4 = true ->
  run U true (Group 3 year_re)
    {| m_prev := prev; m_rest := [y1; y2; y3; y4]; m_groups := gs |}
  = [{| m_prev := Some y4; m_rest := [];
        m_groups := (3, [y1; y2; y3; y4]) :: gs |}].
Proof. intros y1 y2 y3 y4 prev gs H1 H2 H3 H4. crank. reflexivity. Qed.

Lemma digit_char_facts : forall n,
  (0 <= n <= 9)%Z ->
  unicode_digit U (digit_char n) = Some (Z.to_N n)
  /\ unicode_isdigit U (digit_char n) = true
  /\ is_space (digit_char n) = false.
Proof.
  intros n Hn. destruct n as [|p|p]; try lia.
  - split; [|split]; reflexivity.
  - repeat (destruct p as [p|p|]; try lia); (split; [|split]); reflexivity.
Qed.

(** The match of the pattern of ["%d %m %Y"] on a day, a month and four
    digits. *)
Lemma match_dmY : forall d m y1 y2 y3 y4,
  (1 <= d <= 31)%Z -> (1 <= m <= 12)%Z ->
  unicode_isdigit U y1 = true -> unicode_isdigit U y2 = true ->
  unicode_isdigit U y3 = true -> unicode_isdigit U y4 = true ->
  is_space y1 = false ->
  re_match U true dmY_re
    (str_of_int d ++ 32%N :: str_of_int m ++ 32%N :: [y1; y2; y3; y4])
  = Some {| m_prev := Some y4; m_rest := [];
            m_groups := [(3, [y1; y2; y3; y4]); (2, str_of_int m);
                         (1, str_of_int d)] |}.
Proof.
  intros d m y1 y2 y3 y4 Hd Hm H1 H2 H3 H4 Hs.
  unfold re_match, match_here. rewrite dmY_re_shape.
  assert (exists c0 t0, str_of_int m = c0 :: t0 /\ is_space c0 = false)
    as (c0 & t0 & Em & Hc0).
  { enumerate m; eval_texts; eexists; eexists; split; reflexivity. }
  rewrite Em at 1. cbn [app].
  rewrite (@day_then d c0 (t0 ++ 32%N :: [y1; y2; y3; y4]) _ Hd Hc0).
  change (c0 :: t0 ++ 32%N :: [y1; y2; y3; y4])
    with ((c0 :: t0) ++ 32%N :: [y1; y2; y3; y4]).
  rewrite <- Em.
  rewrite (@month_then m y1 [y2; y3; y4] _ _ Hm Hs).
  rewrite (@year_group y1 y2 y3 y4 _ _ H1 H2 H3 H4).
  reflexivity.
Qed.
End NumericText.

(** *** [str_to_date] *)

Lemma dict_get_missing : forall (V : Type) (d : list (str * V)) k,
  ~ In k (map fst d) -> dict_get d k = inr KeyError.
Proof.
  intros V. induction d as [|[k' v] d IH]; intros k H; simpl; [reflexivity|].
  destruct (str_eq_dec k' k) as [E|NE].
  - exfalso. apply H. now left.
  - unfold str_eqb. destruct (str_eq_dec k' k); [contradiction|].
    apply IH. intros Hin. apply H. now right.
Qed.

Lemma month_name_facts : forall m,
  (1 <= m <= 12)%Z ->
  letters (month_name m) /\ month_name m <> []
  /\ dict_get months (month_name m) = inl (str_of_int m).
Proof.
  intros m Hm. enumerate m;
    (split; [vm_compute; repeat constructor
            |split; [vm_compute; discriminate|vm_compute; reflexivity]]).
Qed.

Lemma day_text_plain : forall d,
  (1 <= d <= 31)%Z -> plain (str_of_int d ++ u " ").
Proof. intros d Hd. enumerate d; vm_compute; repeat constructor. Qed.

Lemma digit_char_plain : forall n,
  (0 <= n <= 9)%Z -> month_letter (digit_char n) = false.
Proof. intros n Hn. enumerate n; reflexivity. Qed.

Lemma year_digits : forall y,
  (0 <= y <= 9999)%Z ->
  (0 <= y / 1000 <= 9 /\ 0 <= (y / 100) mod 10 <= 9
   /\ 0 <= (y / 10) mod 10 <= 9 /\ 0 <= y mod 10 <= 9
   /\ 10 * (10 * (10 * (10 * 0 + y / 1000) + (y / 100) mod 10)
            + (y / 10) mod 10) + y mod 10 = y)%Z.
Proof. intros y Hy. Z.to_euclidean_division_equations. lia. Qed.

Lemma days_in_month_le : forall y m, (days_in_month y m <= 31)%Z.
Proof.
  intros y m. unfold days_in_month.
  destruct (m =? 2)%Z; [destruct (is_leap y); lia|].
  destruct ((m =? 4) || (m =? 6) || (m =? 9) || (m =? 11))%Z; lia.
Qed.

Section StrToDate.
  Variable U : unicode_db.

  Local Arguments is_space : simpl never.
  Local Arguments unicode_digit : simpl never.

Lemma int_of_small : forall n,
  (1 <= n <= 31)%Z -> int_of_str U (str_of_int n) = inl n.
Proof. intros n Hn. enumerate n; vm_compute; reflexivity. Qed.

Lemma int_of_year : forall y,
  (0 <= y <= 9999)%Z -> int_of_str U (year_text y) = inl y.
Proof.
  intros y Hy. destruct (year_digits Hy) as (Ha & Hb & Hc & Hd & E).
  destruct (digit_char_facts U Ha) as (Da & _ & Sa).
  destruct (digit_char_facts U Hb) as (Db & _ & _).
  destruct (digit_char_facts U Hc) as (Dc & _ & _).
  destruct (digit_char_facts U Hd) as (Dd & _ & Sd).
  unfold year_text, int_of_str. cbn [map drop_while]. rewrite Sa.
  cbn [rev app drop_while]. rewrite Sd. cbn [rev app digits_value].
  rewrite Da, Db, Dc, Dd. cbn [digits_value ret].
  rewrite !Z2N.id by lia. now rewrite E.
Qed.

Lemma strptime_numbers : forall d m y,
  (1 <= m <= 12)%Z -> (1 <= y <= 9999)%Z ->
  (1 <= d <= days_in_month y m)%Z ->
  strptime_dmY U (str_of_int d ++ 32%N :: str_of_int m ++ 32%N :: year_text y)
  = inl {| year := y; month := m; day := d |}.
Proof.
  intros d m y Hm Hy Hd.
  pose proof (days_in_month_le y m) as Hle.
  destruct (@year_digits y ltac:(lia)) as (Ha & Hb & Hc & Hd' & _).
  destruct (digit_char_facts U Ha) as (_ & Ia & Sa).
  destruct (digit_char_facts U Hb) as (_ & Ib & _).
  destruct (digit_char_facts U Hc) as (_ & Ic & _).
  destruct (digit_char_facts U Hd') as (_ & Id & _).
  unfold strptime_dmY.
  change (year_text y) with
    [digit_char (y / 1000); digit_char ((y / 100) mod 10);
     digit_char ((y / 10) mod 10); digit_char (y mod 10)].
  rewrite (@match_dmY U d m _ _ _ _ ltac:(lia) Hm Ia Ib Ic Id Sa).
  cbn [m_rest group_or_empty group_text m_groups Nat.eqb].
  change [digit_char (y / 1000); digit_char ((y / 100) mod 10);
          digit_char ((y / 10) mod 10); digit_char (y mod 10)]
    with (year_text y).
  rewrite (@int_of_year y ltac:(lia)). cbn [bind].
  rewrite (@int_of_small m ltac:(lia)). cbn [bind].
  rewrite (@int_of_small d ltac:(lia)). cbn [bind].
  unfold make_date.
  destruct Hy as [Hy1 Hy2], Hm as [Hm1 Hm2], Hd as [Hd1 Hd2].
  apply Z.leb_le in Hy1, Hy2, Hm1, Hm2, Hd1, Hd2.
  now rewrite Hy1, Hy2, Hm1, Hm2, Hd1, Hd2.
Qed.

(** C8 (as amended): [str_to_date] maps "15 марта 2024" to 2024-03-15
    and, for every valid date, maps the text of the day, one of the
    twelve month names and the four-digit year, separated by spaces, to
    that date.  It fails with [KeyError] for every text whose runs of
    the letters [а-я], joined, are not one of the twelve names: in
    particular for every text without such letters. *)
Theorem str_to_date_spec :
  str_to_date U (u "15 марта 2024")
  = inl {| year := 2024; month := 3; day := 15 |}
  /\ (forall d m y,
        (1 <= m <= 12)%Z -> (1 <= y <= 9999)%Z ->
        (1 <= d <= days_in_month y m)%Z ->
        str_to_date U (date_text d m y)
        = inl {| year := y; month := m; day := d |})
  /\ (forall s,
        ~ In (List.concat (re_findall U false month_word_re s)) month_names ->
        str_to_date U s = inr KeyError)
  /\ (forall s, plain s -> str_to_date U s = inr KeyError).
Proof.
  split; [vm_compute; reflexivity|]. split; [|split].
  - intros d m y Hm Hy Hd.
    pose proof (days_in_month_le y m) as Hle.
    destruct (month_name_facts Hm) as (Hw & Hne & Hget).
    assert (plain (u " " ++ year_text y)) as Hpost.
    { destruct (@year_digits y ltac:(lia)) as (Ha & Hb & Hc & Hd' & _).
      constructor; [reflexivity|].
      repeat (constructor; [now apply digit_char_plain|]). constructor. }
    assert (date_text d m y
            = (str_of_int d ++ u " ") ++ month_name m ++ (u " " ++ year_text y))
      as -> by (unfold date_text; now rewrite <- app_assoc).
    unfold str_to_date.
    destruct (@one_word U (str_of_int d ++ u " ") (month_name m)
                (u " " ++ year_text y) (str_of_int m)
                (@day_text_plain d ltac:(lia)) Hw Hne Hpost) as [Ef Es].
    cbv zeta. rewrite Ef. cbn [List.concat]. rewrite app_nil_r, Hget.
    cbn [bind]. rewrite Es.
    rewrite <- app_assoc. now apply strptime_numbers.
  - intros s H. unfold str_to_date. cbv zeta.
    now rewrite (dict_get_missing months _ H).
  - intros s H. unfold str_to_date. cbv zeta. now rewrite (no_word U H).
Qed.
End StrToDate.

Lemma date_text_example : date_text 15 3 2024 = u "15 марта 2024".
Proof. vm_compute. reflexivity. Qed.

Lemma str_to_date_spec_witness :
  str_to_date plain_unicode (date_text 29 2 2024)
  = inl {| year := 2024; month := 2; day := 29 |}.
Proof.
  apply (proj1 (proj2 (str_to_date_spec plain_unicode)));
    vm_compute; split; discriminate.
Defined.

(** C8, as stated, fails: "ма 2 я024" contains none of the twelve month
    names, and it is parsed: the two runs of letters join to "мая". *)
Lemma split_month_name_is_parsed :
  existsb (fun name => is_infix name (u "ма 2 я024")) month_names = false
  /\ for_every_table (fun U =>
       str_to_date U (u "ма 2 я024")
       = inl {| year := 5024; month := 2; day := 5 |}).
Proof. split; [|intros U]; vm_compute; reflexivity. Qed.

(** * Further properties *)

(** ** Strings: [split], [join], [strip] *)

Lemma split_go_skip : forall sep w cur rest,
  split_go sep (List.length w) cur (w ++ rest) = split_go sep 0 cur rest.
Proof.
  intros sep. induction w as [|c w IH]; intros cur rest; [reflexivity|].
  simpl. apply IH.
Qed.

Lemma is_prefix_app : forall p s, is_prefix p (p ++ s) = true.
Proof.
  induction p as [|c p IH]; intros s; simpl; [reflexivity|].
  now rewrite N.eqb_refl, IH.
Qed.

Lemma is_prefix_split : forall p s,
  is_prefix p s = true -> exists rest, s = p ++ rest.
Proof.
  induction p as [|c p IH]; intros s H; simpl in H.
  - exists s. reflexivity.
  - destruct s as [|d s]; [discriminate|].
    apply andb_prop in H. destruct H as [E H]. apply N.eqb_eq in E. subst d.
    destruct (IH s H) as (rest & ->). exists rest. reflexivity.
Qed.

(** At an occurrence of the separator the current piece ends. *)
Lemma split_go_sep : forall sep cur rest,
  sep <> [] ->
  split_go sep 0 cur (sep ++ rest) = rev cur :: split_go sep 0 [] rest.
Proof.
  intros sep cur rest Hne. destruct sep as [|c sep]; [congruence|].
  change ((c :: sep) ++ rest) with (c :: sep ++ rest). cbn [split_go].
  change (c :: sep ++ rest) with ((c :: sep) ++ rest).
  rewrite is_prefix_app. f_equal.
  replace (List.length (c :: sep) - 1) with (List.length sep)
    by (simpl; lia).
  apply split_go_skip.
Qed.

(** A stretch without occurrences goes to the current piece. *)
Lemma split_go_clear : forall sep p tail cur,
  clear_of sep p tail ->
  split_go sep 0 cur (p ++ tail) = split_go sep 0 (rev p ++ cur) tail.
Proof.
  intros sep. induction p as [|c p IH]; intros tail cur H; [reflexivity|].
  destruct H as [H1 H2]. change ((c :: p) ++ tail) with (c :: p ++ tail) in *.
  cbn [split_go]. rewrite H1. rewrite (IH tail (c :: cur) H2).
  simpl. now rewrite <- app_assoc.
Qed.

(** Joining the pieces with the separator gives the text back. *)
Lemma join_split_go : forall sep s cur,
  sep <> [] ->
  join sep (split_go sep 0 cur s) = rev cur ++ s.
Proof.
  intros sep s. remember (List.length s) as n eqn:En.
  revert s En. induction n as [n IH] using lt_wf_ind.
  intros s En cur Hne. destruct s as [|c s].
  - simpl. now rewrite app_nil_r.
  - destruct (is_prefix sep (c :: s)) eqn:P.
    + destruct (is_prefix_split _ _ P) as (rest & E). rewrite E.
      rewrite split_go_sep by exact Hne.
      assert (List.length rest < n) as Hlt.
      { subst n. rewrite E, length_app. destruct sep; [congruence|simpl; lia]. }
      pose proof (IH _ Hlt rest eq_refl [] Hne) as H. cbn [rev app] in H.
      pose proof (@split_go_nonempty sep rest 0 []) as Hn.
      destruct (split_go sep 0 [] rest) as [|q qs] eqn:Eq; [congruence|].
      change (join sep (rev cur :: q :: qs))
        with (rev cur ++ sep ++ join sep (q :: qs)).
      now rewrite H.
    + cbn [split_go]. rewrite P.
      assert (List.length s < n) as Hlt by (subst n; simpl; lia).
      rewrite (IH _ Hlt s eq_refl (c :: cur) Hne). simpl.
      now rewrite <- app_assoc.
Qed.

Lemma join_split : forall sep s, sep <> [] -> join sep (split sep s) = s.
Proof. intros sep s H. unfold split. now rewrite join_split_go. Qed.

Lemma is_prefix_longer : forall p s t,
  is_prefix p s = true -> is_prefix p (s ++ t) = true.
Proof.
  induction p as [|c p IH]; intros s t H; [reflexivity|].
  destruct s as [|d s]; [discriminate|]. simpl in *.
  apply andb_prop in H. destruct H as [-> H]. simpl. now apply IH.
Qed.

Lemma is_infix_iff : forall w s,
  is_infix w s = true <-> exists a b, s = a ++ w ++ b.
Proof.
  intros w. induction s as [|c s IH].
  - simpl. rewrite orb_false_r. split.
    + intros H. apply is_prefix_split in H. destruct H as (rest & E).
      exists [], rest. exact E.
    + intros (a & b & E). symmetry in E. apply app_eq_nil in E.
      destruct E as [-> E]. apply app_eq_nil in E. destruct E as [-> _].
      reflexivity.
  - cbn [is_infix]. rewrite orb_true_iff, IH. split.
    + intros [H|(a & b & ->)].
      * apply is_prefix_split in H. destruct H as (rest & E).
        exists [], rest. exact E.
      * exists (c :: a), b. reflexivity.
    + intros (a & b & E). destruct a as [|c' a].
      * left. simpl in E. rewrite E. apply is_prefix_app.
      * right. injection E as _ ->. eauto.
Qed.

Lemma is_infix_part : forall w a x b,
  is_infix w (a ++ x ++ b) = false -> is_infix w x = false.
Proof.
  intros w a x b H. destruct (is_infix w x) eqn:E; [|reflexivity].
  apply is_infix_iff in E. destruct E as (a' & b' & ->).
  assert (is_infix w (a ++ (a' ++ w ++ b') ++ b) = true) as H'.
  { apply is_infix_iff. exists (a ++ a'), (b' ++ b).
    now rewrite <- !app_assoc. }
  congruence.
Qed.

Lemma clear_of_infix : forall sep p tail,
  sep <> [] -> clear_of sep p tail -> is_infix sep p = false.
Proof.
  intros sep p tail Hne. induction p as [|c p IH]; intros H.
  - destruct sep; [congruence|reflexivity].
  - destruct H as [H1 H2]. cbn [is_infix]. rewrite (IH H2), orb_false_r.
    destruct (is_prefix sep (c :: p)) eqn:P; [|reflexivity].
    apply is_prefix_longer with (t := tail) in P. congruence.
Qed.

Lemma clear_of_snoc : forall sep p c t,
  clear_of sep p (c :: t) -> is_prefix sep (c :: t) = false ->
  clear_of sep (p ++ [c]) t.
Proof.
  intros sep. induction p as [|d p IH]; intros c t H P.
  - simpl. auto.
  - destruct H as [H1 H2]. change ((d :: p) ++ [c]) with (d :: (p ++ [c])).
    split.
    + change ((d :: (p ++ [c])) ++ t) with (d :: ((p ++ [c]) ++ t)).
      rewrite <- app_assoc. exact H1.
    + now apply IH.
Qed.

(** No piece of a split contains the separator. *)
Lemma split_go_pieces : forall sep s cur p,
  sep <> [] -> clear_of sep (rev cur) s ->
  In p (split_go sep 0 cur s) -> is_infix sep p = false.
Proof.
  intros sep s. remember (List.length s) as n eqn:En.
  revert s En. induction n as [n IH] using lt_wf_ind.
  intros s En cur p Hne Hc Hin. destruct s as [|c s].
  - destruct Hin as [<-|[]]. now apply clear_of_infix with (tail := []).
  - destruct (is_prefix sep (c :: s)) eqn:P.
    + destruct (is_prefix_split _ _ P) as (rest & E). rewrite E in Hin, Hc.
      rewrite split_go_sep in Hin by exact Hne.
      destruct Hin as [<-|Hin].
      * now apply clear_of_infix with (tail := sep ++ rest).
      * assert (List.length rest < n) as Hlt.
        { subst n. rewrite E, length_app.
          destruct sep; [congruence|simpl; lia]. }
        apply (IH _ Hlt rest eq_refl [] p Hne I Hin).
    + cbn [split_go] in Hin. rewrite P in Hin.
      assert (List.length s < n) as Hlt by (subst n; simpl; lia).
      apply (IH _ Hlt s eq_refl (c :: cur) p Hne); [|exact Hin].
      simpl. now apply clear_of_snoc.
Qed.

Lemma split_pieces : forall sep s p,
  sep <> [] -> In p (split sep s) -> is_infix sep p = false.
Proof.
  intros sep s p Hne. apply split_go_pieces; [exact Hne|exact I].
Qed.

(** *** [strip] *)

Lemma drop_while_suffix : forall test s,
  exists pre, s = pre ++ drop_while test s.
Proof.
  intros test. induction s as [|c s IH]; simpl.
  - exists []. reflexivity.
  - destruct (test c).
    + destruct IH as (pre & E). exists (c :: pre). simpl. now f_equal.
    + exists []. reflexivity.
Qed.

Lemma drop_while_head : forall test s c t,
  drop_while test s = c :: t -> test c = false.
Proof.
  intros test. induction s as [|d s IH]; intros c t H; simpl in H.
  - discriminate.
  - destruct (test d) eqn:T; [now apply IH in H|].
    injection H as <- _. exact T.
Qed.

Lemma drop_while_keep : forall test s,
  match s with c :: _ => test c = false | [] => True end ->
  drop_while test s = s.
Proof. intros test [|c s] H; simpl; [reflexivity|now rewrite H]. Qed.

(** The stripped text is a part of the text, and neither of its ends is
    one of the stripped characters. *)
Lemma strip_spec : forall chars s,
  (exists a b, s = a ++ strip chars s ++ b)
  /\ match strip chars s with
     | c :: _ => char_in c chars = false
     | [] => True
     end
  /\ match rev (strip chars s) with
     | c :: _ => char_in c chars = false
     | [] => True
     end.
Proof.
  intros chars s. unfold strip, rstrip, lstrip.
  set (f := fun c => char_in c chars).
  destruct (drop_while_suffix f s) as (a & Ea).
  set (s1 := drop_while f s) in *.
  destruct (drop_while_suffix f (rev s1)) as (b & Eb).
  set (s2 := drop_while f (rev s1)) in *.
  assert (s1 = rev s2 ++ rev b) as E1.
  { rewrite <- (rev_involutive s1), Eb, rev_app_distr. reflexivity. }
  split; [|split].
  - exists a, (rev b). rewrite Ea at 1. now rewrite E1.
  - destruct (rev s2) as [|c t] eqn:Er; [exact I|].
    assert (s1 = c :: t ++ rev b) as E1' by (rewrite E1; reflexivity).
    apply (@drop_while_head f s c (t ++ rev b)). exact E1'.
  - rewrite rev_involutive. destruct s2 as [|c t] eqn:E2; [exact I|].
    apply (@drop_while_head f (rev s1) c t). exact E2.
Qed.

Lemma strip_keep : forall chars s,
  match s with c :: _ => char_in c chars = false | [] => True end ->
  match rev s with c :: _ => char_in c chars = false | [] => True end ->
  strip chars s = s.
Proof.
  intros chars s H1 H2. unfold strip, rstrip, lstrip.
  rewrite (drop_while_keep (fun c => char_in c chars) s H1).
  rewrite (drop_while_keep (fun c => char_in c chars) (rev s) H2).
  apply rev_involutive.
Qed.

(** ** [str_to_list]: what it reads and what it returns *)

Lemma comma_space : u ", " = [44%N; 32%N].
Proof. reflexivity. Qed.

Lemma apostrophe : u "'" = [39%N].
Proof. reflexivity. Qed.

Lemma clear_next : forall x e tail,
  x <> 32%N -> is_infix (u ", ") e = false ->
  clear_of (u ", ") e (x :: tail).
Proof.
  intros x e tail Hx. rewrite comma_space.
  induction e as [|c e IH]; intros H; [exact I|].
  cbn [is_infix] in H. apply orb_false_elim in H. destruct H as [H1 H2].
  split; [|now apply IH].
  destruct e as [|d e].
  - cbn [app is_prefix]. destruct (N.eqb_spec 32 x) as [E|_]; [congruence|].
    now rewrite andb_false_r.
  - exact H1.
Qed.

Lemma clear_end : forall sep e,
  is_infix sep e = false -> clear_of sep e [].
Proof.
  intros sep. induction e as [|c e IH]; intros H; [exact I|].
  cbn [is_infix] in H. apply orb_false_elim in H. destruct H as [H1 H2].
  split; [now rewrite app_nil_r|now apply IH].
Qed.

Lemma clear_quoted : forall e tail,
  is_infix (u ", ") e = false -> clear_of (u ", ") (quoted e) tail.
Proof.
  intros e tail H. unfold quoted. rewrite apostrophe.
  change ([39%N] ++ e ++ [39%N]) with (39%N :: e ++ [39%N]).
  split; [rewrite comma_space; reflexivity|].
  assert (forall p t, clear_of (u ", ") p (39%N :: t) ->
            clear_of (u ", ") (p ++ [39%N]) t) as Hs.
  { intros p t Hp. apply clear_of_snoc; [exact Hp|].
    rewrite comma_space. reflexivity. }
  apply Hs. apply clear_next; [discriminate|exact H].
Qed.

Lemma split_quoted : forall l,
  l <> [] -> Forall (fun e => is_infix (u ", ") e = false) l ->
  split (u ", ") (join (u ", ") (map quoted l)) = map quoted l.
Proof.
  unfold split. induction l as [|e l IH]; intros Hne Hl; [congruence|].
  inversion Hl as [|? ? He Hl']; subst. destruct l as [|e2 l].
  - cbn [map join]. rewrite <- (app_nil_r (quoted e)) at 1.
    rewrite split_go_clear by (now apply clear_quoted).
    cbn [split_go]. now rewrite app_nil_r, rev_involutive.
  - change (join (u ", ") (map quoted (e :: e2 :: l)))
      with (quoted e ++ u ", " ++ join (u ", ") (map quoted (e2 :: l))).
    rewrite split_go_clear by (now apply clear_quoted).
    rewrite split_go_sep by (rewrite comma_space; discriminate).
    rewrite app_nil_r, rev_involutive. cbn [map]. f_equal.
    apply IH; [discriminate|exact Hl'].
Qed.

Lemma join_quoted_ends : forall l,
  l <> [] ->
  exists body, join (u ", ") (map quoted l) = 39%N :: body ++ [39%N].
Proof.
  induction l as [|e l IH]; intros Hne; [congruence|].
  destruct l as [|e2 l].
  - exists e. reflexivity.
  - destruct IH as (body & E); [discriminate|].
    change (join (u ", ") (map quoted (e :: e2 :: l)))
      with (quoted e ++ u ", " ++ join (u ", ") (map quoted (e2 :: l))).
    rewrite E. exists (e ++ [39%N] ++ u ", " ++ 39%N :: body).
    unfold quoted. rewrite apostrophe. simpl. f_equal.
    rewrite <- !app_assoc. simpl. reflexivity.
Qed.

Lemma strip_brackets : forall body,
  strip (u "[]") (u "[" ++ (39%N :: body ++ [39%N]) ++ u "]")
  = 39%N :: body ++ [39%N].
Proof.
  intros body. unfold strip, rstrip.
  assert (lstrip (u "[]") (u "[" ++ (39%N :: body ++ [39%N]) ++ u "]")
          = (39%N :: body ++ [39%N]) ++ [93%N]) as -> by reflexivity.
  rewrite rev_app_distr.
  assert (rev (39%N :: body ++ [39%N]) = 39%N :: rev body ++ [39%N]) as E.
  { cbn [rev]. now rewrite rev_app_distr. }
  rewrite E.
  assert (lstrip (u "[]") (rev [93%N] ++ 39%N :: rev body ++ [39%N])
          = 39%N :: rev body ++ [39%N]) as -> by reflexivity.
  rewrite <- E. apply rev_involutive.
Qed.

Lemma strip_quoted : forall e,
  is_prefix (u "'") e = false -> is_prefix (u "'") (rev e) = false ->
  strip (u "'") (quoted e) = e.
Proof.
  intros e H1 H2. rewrite apostrophe in *. unfold quoted.
  rewrite apostrophe. unfold strip, rstrip, lstrip.
  assert (forall s, is_prefix [39%N] s = false ->
            drop_while (fun c => char_in c [39%N]) s = s) as Hk.
  { intros [|c s] H; [reflexivity|]. cbn [is_prefix] in H.
    cbn [drop_while]. unfold char_in. cbn [existsb].
    destruct (N.eqb_spec c 39) as [->|NE]; [discriminate H|reflexivity]. }
  destruct e as [|c e].
  - reflexivity.
  - change ([39%N] ++ (c :: e) ++ [39%N]) with (39%N :: (c :: e) ++ [39%N]).
    cbn [drop_while]. change (char_in 39 [39%N]) with true. cbv iota.
    assert (drop_while (fun c0 => char_in c0 [39%N]) ((c :: e) ++ [39%N])
            = (c :: e) ++ [39%N]) as ->.
    { apply Hk. simpl in *. exact H1. }
    rewrite rev_app_distr. cbn [rev app drop_while].
    change (char_in 39 [39%N]) with true. cbv iota.
    change (rev e ++ [c]) with (rev (c :: e)).
    rewrite (Hk _ H2). apply rev_involutive.
Qed.

(** X9: the text [['a', 'b', ...]] of a non-empty list of strings that
    hold no [", "] and have no apostrophe at either end is read back as
    that list. *)
Theorem str_to_list_reads_list_text : forall l,
  l <> [] -> forallb simple_item l = true ->
  str_to_list (Some (list_text l)) = Some l.
Proof.
  intros l Hne Hl. rewrite forallb_forall in Hl.
  assert (Forall (fun e => is_infix (u ", ") e = false) l) as Hinf.
  { apply Forall_forall. intros e He. apply Hl in He. unfold simple_item in He.
    apply andb_prop in He. destruct He as [He _].
    apply andb_prop in He. destruct He as [He _].
    now apply negb_true_iff in He. }
  destruct (join_quoted_ends Hne) as (body & Eb).
  unfold list_text. rewrite Eb.
  change (u "[" ++ (39%N :: body ++ [39%N]) ++ u "]")
    with (91%N :: (39%N :: body ++ [39%N]) ++ [93%N]).
  cbn [str_to_list].
  change (91%N :: (39%N :: body ++ [39%N]) ++ [93%N])
    with (u "[" ++ (39%N :: body ++ [39%N]) ++ u "]").
  rewrite strip_brackets, <- Eb, (split_quoted Hne Hinf), map_map.
  f_equal. rewrite <- (map_id l) at 2. apply map_ext_in.
  intros e He. apply Hl in He. unfold simple_item in He.
  apply andb_prop in He. destruct He as [He H3].
  apply andb_prop in He. destruct He as [_ H2].
  apply negb_true_iff in H2, H3. now apply strip_quoted.
Qed.

Lemma str_to_list_reads_list_text_witness :
  list_text [u "SQL"; u "Power BI"; u "1С"] = u "['SQL', 'Power BI', '1С']"
  /\ str_to_list (Some (list_text [u "SQL"; u "Power BI"; u "1С"]))
     = Some [u "SQL"; u "Power BI"; u "1С"].
Proof.
  split; [vm_compute; reflexivity|].
  apply (@str_to_list_reads_list_text [u "SQL"; u "Power BI"; u "1С"]);
    [discriminate|vm_compute; reflexivity].
Defined.

(** X10: an element that [str_to_list] returns holds no [", "] and has no
    apostrophe at either end. *)
Theorem str_to_list_elements : forall string l e,
  str_to_list string = Some l -> In e l -> simple_item e = true.
Proof.
  intros [[|c s]|] l e H Hin; try discriminate.
  cbn [str_to_list] in H. injection H as <-.
  apply in_map_iff in Hin. destruct Hin as (p & <- & Hp).
  apply split_pieces in Hp; [|rewrite comma_space; discriminate].
  destruct (strip_spec (u "'") p) as ((a & b & E) & H1 & H2).
  unfold simple_item. rewrite E in Hp. apply is_infix_part in Hp.
  rewrite Hp. rewrite apostrophe in *.
  assert (forall t, match t with
                    | c0 :: _ => char_in c0 [39%N] = false
                    | [] => True
                    end -> is_prefix [39%N] t = false) as Hh.
  { intros [|c0 t] Ht; [reflexivity|]. cbn [is_prefix].
    unfold char_in in Ht. cbn [existsb] in Ht.
    destruct (N.eqb_spec c0 39) as [->|NE]; [discriminate Ht|].
    destruct (N.eqb_spec 39 c0) as [<-|_]; [congruence|reflexivity]. }
  now rewrite (Hh _ H1), (Hh _ H2).
Qed.

Lemma str_to_list_elements_witness :
  simple_item (u "Python") = true.
Proof.
  apply (@str_to_list_elements (Some (u "['SQL', 'Python']"))
           [u "SQL"; u "Python"] (u "Python"));
    [vm_compute; reflexivity|right; left; reflexivity].
Defined.

(** ** The fields of an extracted row *)

(** A text splits in two at [", "] exactly when it holds one [", "]. *)
Lemma split_two : forall s w b,
  split (u ", ") s = [w; b] <->
  s = w ++ u ", " ++ b
  /\ is_infix (u ", ") w = false /\ is_infix (u ", ") b = false.
Proof.
  intros s w b. assert (u ", " <> []) as Hne by (rewrite comma_space; discriminate).
  split.
  - intros H. split; [|split].
    + rewrite <- (join_split s Hne), H. reflexivity.
    + apply (@split_pieces (u ", ") s w Hne). rewrite H. now left.
    + apply (@split_pieces (u ", ") s b Hne). rewrite H. right. now left.
  - intros (-> & Hw & Hb). unfold split.
    rewrite split_go_clear
      by (rewrite comma_space at 2; apply clear_next; [discriminate|exact Hw]).
    rewrite split_go_sep by exact Hne.
    rewrite app_nil_r, rev_involutive. f_equal.
    rewrite <- (app_nil_r b) at 1.
    rewrite split_go_clear by (now apply clear_end).
    cbn [split_go]. now rewrite app_nil_r, rev_involutive.
Qed.

(** The first piece of a split: the text up to its first [", "]. *)
Lemma split_head : forall s,
  exists rest,
    s = hd [] (split (u ", ") s) ++ rest
    /\ (rest = [] \/ is_prefix (u ", ") rest = true)
    /\ is_infix (u ", ") (hd [] (split (u ", ") s)) = false.
Proof.
  intros s. assert (u ", " <> []) as Hne by (rewrite comma_space; discriminate).
  pose proof (join_split s Hne) as Hj.
  pose proof (@split_pieces (u ", ") s) as Hp.
  destruct (split (u ", ") s) as [|p [|q ps]] eqn:E.
  - exfalso. revert E. apply split_go_nonempty.
  - exists []. cbn [hd join] in *. rewrite app_nil_r.
    split; [now symmetry|]. split; [now left|]. apply Hp; [exact Hne|now left].
  - exists (u ", " ++ join (u ", ") (q :: ps)). cbn [hd].
    split; [now symmetry|]. split; [right; apply is_prefix_app|].
    apply Hp; [exact Hne|now left].
Qed.

(** X7: a row is extracted exactly from the pages that have a location
    element, a creation-time element and an employment-mode element
    whose text holds exactly one [", "]; the other elements may be
    missing. *)
Theorem extract_row_succeeds : forall vid url s,
  (exists row, extract_row vid url s = inl row) <->
  exists location mode created work_type busyness,
    location_tag s = Some location
    /\ employment_mode_p s = Some mode
    /\ creation_time_p s = Some created
    /\ text mode = work_type ++ u ", " ++ busyness
    /\ is_infix (u ", ") work_type = false
    /\ is_infix (u ", ") busyness = false.
Proof.
  intros vid url s. unfold extract_row. split.
  - intros (row & H).
    destruct (location_tag s) as [location|]; [|discriminate].
    destruct (employment_mode_p s) as [mode|]; [|discriminate].
    cbn [get_text attr bind ret] in H.
    destruct (split (u ", ") (text mode)) as [|w [|b [|x l]]] eqn:E;
      try discriminate.
    destruct (creation_time_p s) as [created|]; [|discriminate].
    apply split_two in E. destruct E as (E & Hw & Hb).
    exists location, mode, created, w, b. auto 7.
  - intros (location & mode & created & w & b & -> & -> & -> & E & Hw & Hb).
    cbn [get_text attr bind ret].
    rewrite (proj2 (split_two (text mode) w b) (conj E (conj Hw Hb))).
    cbn [attr bind ret]. eexists. reflexivity.
Qed.

(** X8: in an extracted row the city is the location text up to its
    first [", "], and the employment-mode text is the work type, [", "]
    and the busyness. *)
Theorem extract_row_fields : forall vid url s row,
  extract_row vid url s = inl row ->
  exists location mode rest,
    location_tag s = Some location
    /\ employment_mode_p s = Some mode
    /\ text location = r_city row ++ rest
    /\ (rest = [] \/ is_prefix (u ", ") rest = true)
    /\ is_infix (u ", ") (r_city row) = false
    /\ text mode = r_work_type row ++ u ", " ++ r_busyness row
    /\ is_infix (u ", ") (r_work_type row) = false
    /\ is_infix (u ", ") (r_busyness row) = false.
Proof.
  intros vid url s row H. unfold extract_row in H.
  destruct (location_tag s) as [location|]; [|discriminate].
  destruct (employment_mode_p s) as [mode|]; [|discriminate].
  cbn [get_text attr bind ret] in H.
  destruct (split (u ", ") (text mode)) as [|w [|b [|x l]]] eqn:E;
    try discriminate.
  destruct (creation_time_p s) as [created|]; [|discriminate].
  cbn [attr bind ret] in H. injection H as <-. cbn [r_city r_work_type r_busyness].
  apply split_two in E. destruct E as (E & Hw & Hb).
  destruct (split_head (text location)) as (rest & E1 & E2 & E3).
  exists location, mode, rest. auto 9.
Qed.

Lemma extract_row_fields_witness :
  exists location mode rest,
    location_tag complete_page = Some location
    /\ employment_mode_p complete_page = Some mode
    /\ text location = u "Perm" ++ rest
    /\ (rest = [] \/ is_prefix (u ", ") rest = true)
    /\ is_infix (u ", ") (u "Perm") = false
    /\ text mode = u "Full time" ++ u ", " ++ u "remote"
    /\ is_infix (u ", ") (u "Full time") = false
    /\ is_infix (u ", ") (u "remote") = false.
Proof.
  exact (@extract_row_fields (u "101") (vacancy_url (u "101")) complete_page
           _ eq_refl).
Defined.

(** ** Detail extraction: what reaches the table *)

Section DetailRows.
  Variable requests_get : str -> Response.

Lemma info_loop_stop : forall pre vid rest counter df data,
  (forall v, In v pre ->
     status_code (requests_get (vacancy_url v)) = 200%Z) ->
  status_code (requests_get (vacancy_url vid)) <> 200%Z ->
  info_loop requests_get (pre ++ vid :: rest) counter df data
  = df ++ data ++ extracted requests_get pre.
Proof.
  induction pre as [|v pre IH]; intros vid rest counter df data Hok Hbad.
  - cbn [app extracted flat_map]. rewrite app_nil_r.
    now apply info_loop_failure.
  - change ((v :: pre) ++ vid :: rest) with (v :: pre ++ vid :: rest).
    cbn [info_loop extracted flat_map].
    rewrite (Hok v (or_introl eq_refl)). cbn [Z.eqb Pos.eqb negb].
    fold (extracted requests_get pre).
    assert (forall v', In v' pre ->
              status_code (requests_get (vacancy_url v')) = 200%Z) as Hok'
      by (intros; apply Hok; now right).
    destruct (extract_row v (vacancy_url v)
                (soup (requests_get (vacancy_url v)))) as [row|e].
    + destruct (counter mod 10 =? 0)%Z; rewrite (IH _ _ _ _ _ Hok' Hbad);
        cbn [app]; rewrite <- ?app_assoc; reflexivity.
    + now rewrite (IH _ _ _ _ _ Hok' Hbad).
Qed.

Lemma info_loop_prefix : forall vacancies_id counter df data,
  exists dropped,
    df ++ data ++ extracted requests_get vacancies_id
    = info_loop requests_get vacancies_id counter df data ++ dropped.
Proof.
  induction vacancies_id as [|vid ids IH]; intros counter df data.
  - exists data. cbn [extracted flat_map info_loop]. now rewrite app_nil_r.
  - cbn [info_loop extracted flat_map]. fold (extracted requests_get ids).
    destruct (negb (status_code (requests_get (vacancy_url vid)) =? 200)%Z).
    + eexists. rewrite app_assoc. reflexivity.
    + destruct (extract_row vid (vacancy_url vid)
                  (soup (requests_get (vacancy_url vid)))) as [row|e].
      * destruct (counter mod 10 =? 0)%Z.
        -- destruct (IH (counter + 1)%Z (df ++ data ++ [row]) [])
             as (dropped & E).
           exists dropped. rewrite <- E. cbn [app].
           now rewrite <- !app_assoc.
        -- destruct (IH (counter + 1)%Z df (data ++ [row])) as (dropped & E).
           exists dropped. rewrite <- E. cbn [app].
           now rewrite <- !app_assoc.
      * apply IH.
Qed.

(** X6: whatever the transport answers, the table is a prefix of the rows
    of the vacancies whose page can be extracted, in the order of the
    ids: no row is invented, repeated or moved. *)
Theorem get_vacancy_info_prefix : forall vacancies_id,
  exists dropped,
    extracted requests_get vacancies_id
    = get_vacancy_info requests_get vacancies_id ++ dropped.
Proof.
  intros ids. unfold get_vacancy_info.
  destruct (info_loop_prefix ids 0%Z [] []) as (dropped & E).
  exists dropped. exact E.
Qed.
End DetailRows.

Lemma extracted_same : forall (requests_get requests_get' : str -> Response)
  ids,
  (forall v, In v ids ->
     requests_get' (vacancy_url v) = requests_get (vacancy_url v)) ->
  extracted requests_get' ids = extracted requests_get ids.
Proof.
  intros requests_get requests_get'. induction ids as [|v ids IH]; intros H;
    [reflexivity|].
  cbn [extracted flat_map]. rewrite (H v (or_introl eq_refl)).
  f_equal. apply IH. intros v' Hv'. apply H. now right.
Qed.

(** X5: when a request fails, the table holds every row extracted from the
    vacancies before it, those still pending included.  The ids after
    the failing one have no part in the table: it is the same whatever
    ids follow and whatever the transport would answer for them. *)
Theorem get_vacancy_info_failure : forall (requests_get : str -> Response)
  pre vid rest,
  (forall v, In v pre ->
     status_code (requests_get (vacancy_url v)) = 200%Z) ->
  status_code (requests_get (vacancy_url vid)) <> 200%Z ->
  get_vacancy_info requests_get (pre ++ vid :: rest)
  = extracted requests_get pre
  /\ forall (requests_get' : str -> Response) rest',
       (forall v, In v (pre ++ [vid]) ->
          requests_get' (vacancy_url v) = requests_get (vacancy_url v)) ->
       get_vacancy_info requests_get' (pre ++ vid :: rest')
       = get_vacancy_info requests_get (pre ++ vid :: rest).
Proof.
  intros requests_get pre vid rest Hok Hbad.
  assert (forall (other : str -> Response) tail,
            (forall v, In v (pre ++ [vid]) ->
               other (vacancy_url v) = requests_get (vacancy_url v)) ->
            get_vacancy_info other (pre ++ vid :: tail)
            = extracted requests_get pre) as Hany.
  { intros other tail Hsame. unfold get_vacancy_info.
    rewrite (@info_loop_stop other pre vid tail 0%Z [] []).
    - cbn [app]. apply extracted_same. intros v Hv. apply Hsame.
      apply in_or_app. now left.
    - intros v Hv. rewrite Hsame by (apply in_or_app; now left).
      now apply Hok.
    - rewrite Hsame by (apply in_or_app; right; now left). exact Hbad. }
  split.
  - apply Hany. reflexivity.
  - intros other tail Hsame. rewrite (Hany other tail Hsame).
    symmetry. apply Hany. reflexivity.
Qed.

Lemma get_vacancy_info_rows_witness :
  get_vacancy_info complete_transport twelve_ids
  = firstn 11 (extracted complete_transport twelve_ids)
  /\ List.length (extracted complete_transport twelve_ids) = 12.
Proof.
  split; [|vm_compute; reflexivity].
  apply (@get_vacancy_info_rows complete_transport twelve_ids).
  intros vid _. reflexivity.
Defined.

Lemma get_vacancy_info_failure_witness :
  get_vacancy_info failing_third [u "101"; u "102"; u "103"; u "104"]
  = extracted failing_third [u "101"; u "102"]
  /\ List.length (extracted failing_third [u "101"; u "102"]) = 2
  /\ forall (requests_get' : str -> Response) rest',
       (forall v, In v ([u "101"; u "102"] ++ [u "103"]) ->
          requests_get' (vacancy_url v) = failing_third (vacancy_url v)) ->
       get_vacancy_info requests_get' ([u "101"; u "102"] ++ u "103" :: rest')
       = get_vacancy_info failing_third
           ([u "101"; u "102"] ++ u "103" :: [u "104"]).
Proof.
  destruct (@get_vacancy_info_failure failing_third [u "101"; u "102"]
              (u "103") [u "104"]) as [Hrows Hafter].
  - intros v [<-|[<-|[]]]; vm_compute; reflexivity.
  - vm_compute. discriminate.
  - split; [exact Hrows|]. split; [vm_compute; reflexivity|exact Hafter].
Defined.

(** ** Listing discovery: the ids of a page *)

Lemma id_re_shape :
  id_re =
  Seq (Star (InSet [SRange 97 122; SRange 65 90; SChar 58; SChar 47; SChar 46]))
    (Seq (Group 1 (Star (InSet [SRange 48 57]))) (Lit 63)).
Proof. reflexivity. Qed.

Lemma in_step : forall test st m,
  In m (step test st) ->
  exists c r, m_rest st = c :: r /\ test c = true /\ m = advance st c r.
Proof.
  intros test st m H. unfold step in H.
  destruct (m_rest st) as [|c r]; [destruct H|].
  destruct (test c) eqn:T; [|destruct H].
  destruct H as [<-|[]]. eauto.
Qed.

(** What a repetition of a one-character test passes over. *)
Lemma star_step_spec : forall test fuel st st',
  In st' (star_loop (step test) fuel st) ->
  exists w,
    m_rest st = w ++ m_rest st' /\ forallb test w = true
    /\ m_groups st' = m_groups st.
Proof.
  intros test. induction fuel as [|f IH]; intros st st' H.
  - destruct H as [<-|[]]. exists []. auto.
  - cbn [star_loop] in H. apply in_app_iff in H.
    destruct H as [H|[<-|[]]]; [|exists []; auto].
    apply in_flat_map in H. destruct H as (m & Hm & H).
    destruct (List.length (m_rest m) <? List.length (m_rest st));
      [|destruct H].
    apply in_step in Hm. destruct Hm as (c & r & E & T & ->).
    apply IH in H. destruct H as (w & Ew & Hw & Hg).
    exists (c :: w). cbn [advance m_rest m_groups] in *.
    rewrite E, Ew. cbn [forallb]. rewrite T, Hw. auto.
Qed.

(** Greedy repetition takes the whole run of accepted characters first. *)
Lemma star_step_head : forall test word fuel st rest,
  m_rest st = word ++ rest -> forallb test word = true ->
  match rest with c :: _ => test c = false | [] => True end ->
  List.length (word ++ rest) <= fuel ->
  hd_error (star_loop (step test) fuel st) = Some (over st word rest).
Proof.
  intros test. induction word as [|c word IH]; intros fuel st rest E Hw Hr Hf.
  - simpl in E. assert (over st [] rest = st) as ->
      by (destruct st; simpl in *; now subst).
    assert (step test st = []) as Hs.
    { unfold step. rewrite E. destruct rest as [|d rest]; [reflexivity|].
      now rewrite Hr. }
    destruct fuel; [reflexivity|]. cbn [star_loop]. now rewrite Hs.
  - destruct fuel as [|fuel]; [simpl in Hf; lia|].
    cbn [forallb] in Hw. apply andb_prop in Hw. destruct Hw as [Hc Hw].
    assert (step test st = [advance st c (word ++ rest)]) as Hs.
    { unfold step. rewrite E. cbn [app]. now rewrite Hc. }
    cbn [star_loop]. rewrite Hs.
    cbn [flat_map advance m_rest]. rewrite E. cbn [app List.length].
    destruct (Nat.ltb_spec (List.length (word ++ rest))
                (S (List.length (word ++ rest)))) as [_|]; [|lia].
    apply hd_error_app. rewrite app_nil_r.
    rewrite (IH fuel (advance st c (word ++ rest)) rest); auto.
    simpl in Hf. lia.
Qed.

Lemma forallb_same : forall (A : Type) (f g : A -> bool) l,
  (forall a, f a = g a) -> forallb f l = forallb g l.
Proof.
  intros A f g l H. induction l as [|a l IH]; simpl; [reflexivity|].
  now rewrite H, IH.
Qed.

Lemma hd_error_flat_map : forall (A B : Type) (f : A -> list B) l x y,
  hd_error l = Some x -> hd_error (f x) = Some y ->
  hd_error (flat_map f l) = Some y.
Proof.
  intros A B f [|a l] x y Hl Hx; [discriminate|].
  injection Hl as ->. cbn [flat_map]. now apply hd_error_app.
Qed.

Lemma href_char_set : forall U c,
  set_match U [SRange 97 122; SRange 65 90; SChar 58; SChar 47; SChar 46] c
  = href_char c.
Proof.
  intros U c. unfold set_match, href_char, ascii_letter. cbn [existsb item_match].
  destruct (in_range 97 122 c), (in_range 65 90 c), (c =? 58)%N, (c =? 47)%N,
    (c =? 46)%N; reflexivity.
Qed.

Lemma digit_set : forall U c, set_match U [SRange 48 57] c = ascii_digit c.
Proof.
  intros U c. unfold set_match, ascii_digit. cbn [existsb item_match].
  apply orb_false_r.
Qed.

Lemma digit_not_href : forall c, ascii_digit c = true -> href_char c = false.
Proof.
  intros c H. unfold ascii_digit, href_char, ascii_letter, in_range in *.
  apply andb_prop in H. destruct H as [H1 H2].
  apply N.leb_le in H1, H2.
  destruct (N.leb_spec 65 c), (N.leb_spec c 90), (N.leb_spec 97 c),
    (N.leb_spec c 122), (N.eqb_spec c 58), (N.eqb_spec c 47),
    (N.eqb_spec c 46); simpl; try reflexivity; lia.
Qed.

Section LinkIds.
  Variable U : unicode_db.

(** The match of the id pattern on a path, an id and a question mark. *)
Lemma run_id_head : forall prev path vid query,
  forallb href_char path = true -> forallb ascii_digit vid = true ->
  hd_error (run U false id_re (start prev (path ++ vid ++ 63%N :: query)))
  = Some {| m_prev := Some 63%N; m_rest := query; m_groups := [(1, vid)] |}.
Proof.
  intros prev path vid query Hp Hv. rewrite id_re_shape.
  set (st := start prev (path ++ vid ++ 63%N :: query)).
  set (st1 := over st path (vid ++ 63%N :: query)).
  set (st2 := over st1 vid (63%N :: query)).
  cbn [run].
  apply hd_error_flat_map with (x := st1).
  - apply star_step_head; [reflexivity| | |apply le_n].
    + rewrite <- Hp. apply forallb_same. intros c. apply href_char_set.
    + destruct vid as [|d vid]; cbn [app].
      * rewrite href_char_set. reflexivity.
      * rewrite href_char_set. apply digit_not_href.
        cbn [forallb] in Hv. apply andb_prop in Hv. tauto.
  - apply hd_error_flat_map with (x := set_group 1 st1 st2).
    + assert (hd_error
                (star_loop (step (set_match U [SRange 48 57]))
                   (List.length (m_rest st1)) st1) = Some st2) as H.
      { apply star_step_head; [reflexivity| | |apply le_n].
        - rewrite <- Hv. apply forallb_same. intros c. apply digit_set.
        - rewrite digit_set. reflexivity. }
      destruct (star_loop (step (set_match U [SRange 48 57]))
                  (List.length (m_rest st1)) st1) as [|x xs];
        [discriminate|].
      injection H as ->. reflexivity.
    + unfold step, set_group. cbn [m_rest st2 over].
      change (lit_match U false 63 63) with true. cbv iota.
      rewrite (@matched_prefix st1 st2 vid eq_refl). reflexivity.
Qed.

(** No match where no question mark is left. *)
Lemma run_id_none : forall st,
  ~ In 63%N (m_rest st) -> run U false id_re st = [].
Proof.
  intros st Hno. rewrite id_re_shape.
  destruct (run U false _ st) as [|m ms] eqn:E; [reflexivity|].
  exfalso. assert (In m (m :: ms)) as Hin by now left.
  rewrite <- E in Hin. cbn [run] in Hin.
  apply in_flat_map in Hin. destruct Hin as (st1 & H1 & Hin).
  apply in_flat_map in Hin. destruct Hin as (g & Hg & Hin).
  apply in_map_iff in Hg. destruct Hg as (st2 & <- & H2).
  apply star_step_spec in H1. destruct H1 as (w1 & E1 & _).
  apply star_step_spec in H2. destruct H2 as (w2 & E2 & _).
  apply in_step in Hin. destruct Hin as (c & r & Ec & T & _).
  cbn [set_group m_rest] in Ec.
  unfold lit_match in T. cbn [andb] in T. apply N.eqb_eq in T. subst c.
  apply Hno. rewrite E1, E2, Ec. apply in_or_app. right.
  apply in_or_app. right. now left.
Qed.

Lemma scan_id_none : forall t prev,
  ~ In 63%N t -> scan U false id_re prev t 0 = map Unmatched t.
Proof.
  induction t as [|c t IH]; intros prev Hno.
  - cbn [scan map]. unfold matches_here. now rewrite run_id_none.
  - cbn [scan map]. unfold matches_here. rewrite run_id_none by exact Hno.
    cbn [app]. f_equal. apply IH. intros H. apply Hno. now right.
Qed.

(** The id of a link: the digits before its question mark. *)
Lemma findall_id : forall path vid query,
  forallb href_char path = true -> forallb ascii_digit vid = true ->
  ~ In 63%N query ->
  re_findall U false id_re (path ++ vid ++ 63%N :: query) = [vid].
Proof.
  intros path vid query Hp Hv Hq. unfold re_findall.
  pose proof (@run_id_head None path vid query Hp Hv) as Hrun.
  set (m := {| m_prev := Some 63%N; m_rest := query;
               m_groups := [(1, vid)] |}) in *.
  set (st := start None (path ++ vid ++ 63%N :: query)) in *.
  assert (consumed st m = S (List.length (path ++ vid))) as Hn.
  { unfold consumed. cbn [m_rest st m start].
    rewrite !length_app. cbn [List.length]. lia. }
  assert (matches_here U false id_re None (path ++ vid ++ 63%N :: query)
          = ([Matched (matched_text st m) m], S (List.length (path ++ vid))))
    as Hm.
  { unfold matches_here. cbv zeta. fold st.
    destruct (run U false id_re st) as [|m' ms]; [discriminate|].
    injection Hrun as ->. unfold nonempty_match. rewrite Hn. reflexivity. }
  assert (forall w prev,
            scan U false id_re prev (w ++ query) (List.length w)
            = map Unmatched query) as Hskip.
  { intros w prev. rewrite scan_skip. now apply scan_id_none. }
  destruct (path ++ vid) as [|c w] eqn:Epv.
  - apply app_eq_nil in Epv. destruct Epv as [-> ->]. cbn [app] in *.
    cbn [scan]. rewrite Hm. cbn [List.length app].
    rewrite (@scan_id_none query (Some 63%N) Hq).
    cbn [flat_map m_groups m group_text Nat.eqb app].
    now rewrite findall_unmatched.
  - assert (path ++ vid ++ 63%N :: query = c :: (w ++ [63%N]) ++ query) as E.
    { rewrite app_assoc, Epv. cbn [app]. now rewrite <- app_assoc. }
    rewrite E in *. cbn [scan]. rewrite Hm.
    replace (List.length (c :: w)) with (List.length (w ++ [63%N]))
      by (rewrite length_app; simpl; lia).
    rewrite (Hskip (w ++ [63%N]) (Some c)).
    cbn [flat_map m_groups m group_text Nat.eqb app].
    now rewrite findall_unmatched.
Qed.
End LinkIds.

Lemma perm_href_found : forall U tail,
  re_search U false perm_href_re (u "https://perm.hh.ru/" ++ tail) = true.
Proof. intros U tail. reflexivity. Qed.

Lemma matches_here_in : forall U icase r prev rest text m,
  In (Matched text m) (fst (matches_here U icase r prev rest)) ->
  In m (run U icase r (start prev rest)).
Proof.
  intros U icase r prev rest text m. unfold matches_here. cbv zeta.
  set (st := start prev rest).
  destruct (run U icase r st) as [|m0 ms] eqn:E; [intros []|].
  destruct (nonempty_match st m0).
  - intros [H|[]]. injection H as _ <-. now left.
  - intros [H|H]; [injection H as _ <-; now left|].
    destruct (find (nonempty_match st) (m0 :: ms)) as [m1|] eqn:F;
      [|destruct H].
    destruct H as [H|[]]. injection H as _ <-.
    apply find_some in F. tauto.
Qed.

(** Every match that scanning reports is a match of the pattern
    somewhere in the text. *)
Lemma scan_matched : forall U icase r rest prev skip text m,
  In (Matched text m) (scan U icase r prev rest skip) ->
  exists prev' rest', In m (run U icase r (start prev' rest')).
Proof.
  intros U icase r. induction rest as [|c rest IH]; intros prev skip text m H.
  - destruct skip; [|destruct H]. cbn [scan] in H.
    apply matches_here_in in H. eauto.
  - destruct skip as [|k]; cbn [scan] in H; [|now apply IH in H].
    destruct (matches_here U icase r prev (c :: rest)) as [segs n] eqn:E.
    assert (In (Matched text m) segs ->
            exists prev' rest', In m (run U icase r (start prev' rest')))
      as Hsegs.
    { intros Hin. exists prev, (c :: rest).
      apply matches_here_in with (text := text). now rewrite E. }
    destruct n as [|k]; apply in_app_iff in H; destruct H as [H|H]; auto.
    + destruct H as [H|H]; [discriminate|]. now apply IH in H.
    + now apply IH in H.
Qed.

Section PageIds.
  Variable U : unicode_db.

Lemma run_id_group : forall prev rest m,
  In m (run U false id_re (start prev rest)) ->
  exists t, group_text 1 (m_groups m) = Some t /\ forallb ascii_digit t = true.
Proof.
  intros prev rest m Hin. rewrite id_re_shape in Hin. cbn [run] in Hin.
  apply in_flat_map in Hin. destruct Hin as (st1 & H1 & Hin).
  apply in_flat_map in Hin. destruct Hin as (g & Hg & Hin).
  apply in_map_iff in Hg. destruct Hg as (st2 & <- & H2).
  apply star_step_spec in H1. destruct H1 as (w1 & E1 & _ & G1).
  apply star_step_spec in H2. destruct H2 as (w2 & E2 & Hw2 & G2).
  apply in_step in Hin. destruct Hin as (c & r & _ & _ & ->).
  exists w2. cbn [advance set_group m_groups group_text Nat.eqb]. split.
  - now rewrite (@matched_prefix st1 st2 w2 E2).
  - rewrite <- Hw2. apply forallb_same. intros a. symmetry. apply digit_set.
Qed.

(** X2: every id read from a result page is a text of the digits 0-9,
    possibly empty. *)
Theorem vacancy_ids_are_digits : forall s i,
  In i (get_current_vacancies_id U s) -> forallb ascii_digit i = true.
Proof.
  intros s i H. unfold get_current_vacancies_id in H.
  apply in_concat in H. destruct H as (l & Hl & Hi).
  apply in_map_iff in Hl. destruct Hl as (href & <- & _).
  unfold re_findall in Hi. apply in_flat_map in Hi.
  destruct Hi as ([c|text m] & Hseg & Hi); [destruct Hi|].
  apply scan_matched in Hseg. destruct Hseg as (prev' & rest' & Hm).
  apply run_id_group in Hm. destruct Hm as (t & Et & Ht).
  rewrite Et in Hi. destruct Hi as [<-|[]]. exact Ht.
Qed.

(** X1: a result page whose links have the class [bloko-link], the target
    [_blank] and an address made of the site, a path of letters, [:],
    [/] and [.], the digits of the id, a question mark and a query
    without question mark gives the ids of its links, in order. *)
Theorem get_current_vacancies_id_links : forall s links,
  anchors s = map result_link links -> forallb plain_link links = true ->
  get_current_vacancies_id U s = map (fun l => snd (fst l)) links.
Proof.
  intros s links Ha Hl. unfold get_current_vacancies_id, page_links.
  rewrite Ha. clear Ha. induction links as [|[[path vid] query] links IH];
    [reflexivity|].
  cbn [forallb] in Hl. apply andb_prop in Hl. destruct Hl as [Hlink Hl].
  unfold plain_link in Hlink.
  apply andb_prop in Hlink. destruct Hlink as [Hlink Hq].
  apply andb_prop in Hlink. destruct Hlink as [Hp Hv].
  cbn [map flat_map result_link a_href a_class a_target].
  change (existsb (str_eqb (u "bloko-link")) [u "bloko-link"]) with true.
  change (str_eqb (u "_blank") (u "_blank")) with true.
  rewrite perm_href_found. cbn [andb app map List.concat].
  rewrite (IH Hl). cbn [fst snd].
  change (u "https://perm.hh.ru/" ++ path ++ vid ++ u "?" ++ query)
    with (u "https://perm.hh.ru/" ++ path ++ vid ++ 63%N :: query).
  rewrite app_assoc. rewrite findall_id; [reflexivity| |exact Hv|].
  - rewrite forallb_app, Hp. reflexivity.
  - intros Hin. apply negb_true_iff in Hq.
    assert (existsb (N.eqb 63) query = true) as E; [|congruence].
    apply existsb_exists. exists 63%N. split; [exact Hin|apply N.eqb_refl].
Qed.
End PageIds.

Lemma vacancy_ids_are_digits_witness :
  get_current_vacancies_id plain_unicode (page_of [two_marks_link])
  = [u "77"; []]
  /\ forallb ascii_digit (u "77") = true.
Proof.
  split; [vm_compute; reflexivity|].
  apply (@vacancy_ids_are_digits plain_unicode (page_of [two_marks_link])
           (u "77")).
  vm_compute. left. reflexivity.
Defined.

Lemma get_current_vacancies_id_links_witness :
  get_current_vacancies_id plain_unicode
    (page_of (map result_link
                [(u "vacancy/", u "101", u "query=analyst");
                 (u "vacancy/", u "102", [])]))
  = [u "101"; u "102"].
Proof.
  apply (@get_current_vacancies_id_links plain_unicode
           (page_of (map result_link
                       [(u "vacancy/", u "101", u "query=analyst");
                        (u "vacancy/", u "102", [])]))
           [(u "vacancy/", u "101", u "query=analyst");
            (u "vacancy/", u "102", [])]);
    [reflexivity|vm_compute; reflexivity].
Defined.

(** ** Listing discovery: a loop that does not end *)

Section EndlessPages.
  Variable U : unicode_db.
  Variable requests_get : str -> Response.
  Variable vacancies : list str.
  Variable exp : str.
  Variable search_period : Z.

Lemma vacancies_loop_goes_on : forall fuel page acc,
  (forall k, continues U (result_pages requests_get vacancies exp search_period)
               (page + Z.of_nat k)) ->
  vacancies_loop U requests_get vacancies exp search_period fuel page acc
  = None.
Proof.
  induction fuel as [|fuel IH]; intros page acc Hgo; [reflexivity|].
  cbn [vacancies_loop].
  destruct (Hgo 0) as [Hs Hids]. rewrite Z.add_0_r in Hs, Hids.
  unfold result_pages in Hs. unfold ids_at, result_pages in Hids.
  rewrite Hs. cbn [Z.eqb Pos.eqb negb].
  destruct (get_current_vacancies_id U
              (soup (requests_get (search_url vacancies exp search_period page))))
    as [|i is_]; [congruence|].
  apply IH. intros k.
  replace (page + 1 + Z.of_nat k)%Z with (page + Z.of_nat (S k))%Z by lia.
  apply Hgo.
Qed.

(** X3: when every result page from [page] on answers with status 200 and
    at least one id, the loop never ends: no number of fetches is enough
    for [get_all_vacancies] to return. *)
Theorem get_all_vacancies_never_returns : forall page,
  (forall k, continues U (result_pages requests_get vacancies exp search_period)
               (page + Z.of_nat k)) ->
  forall fuel,
    get_all_vacancies U requests_get vacancies exp search_period fuel page
    = None.
Proof.
  intros page Hgo fuel. unfold get_all_vacancies.
  now apply vacancies_loop_goes_on.
Qed.
End EndlessPages.

Lemma get_all_vacancies_never_returns_witness :
  get_all_vacancies plain_unicode same_page_forever [u "data analyst"]
    (u "noExperience") 1 1000 0
  = None.
Proof.
  apply (@get_all_vacancies_never_returns plain_unicode same_page_forever
           [u "data analyst"] (u "noExperience") 1%Z 0%Z).
  intros k. split; [reflexivity|].
  unfold ids_at, result_pages, same_page_forever. cbn [soup].
  vm_compute. discriminate.
Defined.

(** ** The classifier: letter case *)

Ltac split_cmp :=
  repeat (cbv beta iota; cbn [andb orb negb];
          match goal with
          | |- context [(?a <=? ?b)%N] =>
              destruct (N.leb_spec a b); try (exfalso; lia)
          | |- context [(?a <? ?b)%N] =>
              destruct (N.ltb_spec a b); try (exfalso; lia)
          | |- context [(?a =? ?b)%N] =>
              destruct (N.eqb_spec a b); try (exfalso; lia)
          end);
  cbv beta iota; cbn [andb orb negb].

Section LetterCase.
  Variable U : unicode_db.

Lemma tolower_basic_lower : forall c,
  unicode_tolower U (basic_lower c) = unicode_tolower U c.
Proof.
  intros c.
  unfold unicode_tolower, basic_lower, is_ascii, ascii_lower, in_range.
  split_cmp; try reflexivity; try lia.
Qed.

Lemma is_word_basic_lower : forall c,
  is_word U (basic_lower c) = is_word U c.
Proof.
  intros c.
  unfold is_word, unicode_isalnum, basic_lower, is_ascii, is_basic_cyrillic,
    ascii_letter, ascii_digit, ascii_lower, in_range.
  split_cmp; try reflexivity; try lia.
Qed.

Lemma newline_basic_lower : forall c,
  not_newline (basic_lower c) = not_newline c.
Proof.
  intros c.
  unfold not_newline, basic_lower, is_ascii, ascii_lower, in_range.
  split_cmp; try reflexivity; try lia.
Qed.

Lemma uncased_basic_lower : forall x c,
  unicode_iscased U x = false ->
  (basic_lower c =? x)%N = (c =? x)%N.
Proof.
  intros x c.
  unfold unicode_iscased, basic_lower, is_ascii, is_basic_cyrillic,
    ascii_letter, ascii_lower, in_range.
  split_cmp; intros Huncased; try reflexivity; try discriminate; try lia.
Qed.

Lemma lit_match_basic_lower : forall x c,
  lit_match U true x (basic_lower c) = lit_match U true x c.
Proof.
  intros x c. unfold lit_match. cbn [andb].
  destruct (unicode_iscased U x) eqn:E.
  - now rewrite tolower_basic_lower.
  - now apply uncased_basic_lower.
Qed.
End LetterCase.

Section CaseBlind.
  Variable U : unicode_db.

Lemma same_place_sym : forall x y, same_place x y -> same_place y x.
Proof.
  intros [p s] [p' s'] [Hp Hs]. split; [|now symmetry].
  cbn [fst] in *. destruct p, p'; auto.
Qed.

Lemma lit_match_same : forall x c c',
  basic_lower c = basic_lower c' ->
  lit_match U true x c = lit_match U true x c'.
Proof.
  intros x c c' H.
  now rewrite <- (lit_match_basic_lower U x c), H, lit_match_basic_lower.
Qed.

Lemma char_step_same : forall test x y x',
  (forall c c', basic_lower c = basic_lower c' -> test c = test c') ->
  char_step test x y -> same_place x x' ->
  exists y', char_step test x' y' /\ same_place y y'.
Proof.
  intros test [p s] y [p' s'] Ht (ch & r & E & T & ->) [_ Hs].
  cbn [fst snd] in *. subst s. destruct s' as [|ch' r']; [discriminate|].
  cbn [map] in Hs. injection Hs as Hc Hr.
  exists (Some ch', r'). split.
  - exists ch', r'. rewrite <- (Ht ch ch' Hc). auto.
  - split; assumption.
Qed.

Lemma at_boundary_same : forall x x',
  same_place x x' ->
  at_boundary U (at_cursor x) = at_boundary U (at_cursor x').
Proof.
  intros [p s] [p' s'] [Hp Hs]. cbn [fst snd] in *.
  unfold at_boundary, word_before, word_after, at_cursor.
  cbn [m_prev m_rest fst snd].
  assert (match p with Some c => is_word U c | None => false end
          = match p' with Some c => is_word U c | None => false end) as ->.
  { destruct p as [a|], p' as [b|]; try contradiction; [|reflexivity].
    now rewrite <- (is_word_basic_lower U a), Hp, is_word_basic_lower. }
  assert (match s with c :: _ => is_word U c | [] => false end
          = match s' with c :: _ => is_word U c | [] => false end) as ->.
  { destruct s as [|a s], s' as [|b s']; try discriminate; [reflexivity|].
    injection Hs as Hc _.
    now rewrite <- (is_word_basic_lower U a), Hc, is_word_basic_lower. }
  reflexivity.
Qed.

Lemma same_place_length : forall x x',
  same_place x x' -> List.length (snd x) = List.length (snd x').
Proof.
  intros x x' [_ H]. rewrite <- (length_map basic_lower (snd x)), H.
  apply length_map.
Qed.

(** A pattern without sets, matched without regard to case, leads
    through two texts that differ in letter case only in the same way. *)
Lemma denote_same : forall r,
  set_free r = true ->
  forall x y x', denote U true r x y -> same_place x x' ->
    exists y', denote U true r x' y' /\ same_place y y'.
Proof.
  induction r as [|c| |items| |a IHa b IHb|a IHa b IHb|a IHa|a IHa|n a IHa];
    intros Hfree x y x' H S; cbn [set_free] in Hfree; cbn [denote] in *.
  - subst y. eauto.
  - apply char_step_same with (x := x); auto. intros; now apply lit_match_same.
  - apply char_step_same with (x := x); auto. intros c c' E.
    now rewrite <- (newline_basic_lower c), E, newline_basic_lower.
  - discriminate.
  - destruct H as [-> Hb]. exists x'. split; [|exact S].
    split; [reflexivity|]. now rewrite <- (at_boundary_same S).
  - apply andb_prop in Hfree. destruct Hfree as [Ha Hb].
    destruct H as (m & H1 & H2).
    destruct (IHa Ha _ _ _ H1 S) as (m' & H1' & S1).
    destruct (IHb Hb _ _ _ H2 S1) as (y' & H2' & S2). eauto.
  - apply andb_prop in Hfree. destruct Hfree as [Ha Hb].
    destruct H as [H|H].
    + destruct (IHa Ha _ _ _ H S) as (y' & H' & S'). eauto.
    + destruct (IHb Hb _ _ _ H S) as (y' & H' & S'). eauto.
  - revert x' S. induction H as [x|x m y H1 Hlt _ IH]; intros x' S.
    + exists x'. split; [constructor|exact S].
    + destruct (IHa Hfree _ _ _ H1 S) as (m' & H1' & S1).
      destruct (IH m' S1) as (y' & Hs & S2).
      exists y'. split; [|exact S2].
      apply star_more with (m := m'); [exact H1'| |exact Hs].
      now rewrite <- (same_place_length S), <- (same_place_length S1).
  - destruct H as (m & H1 & Hs).
    destruct (IHa Hfree _ _ _ H1 S) as (m' & H1' & S1).
    assert (exists y', star (denote U true a) m' y' /\ same_place y y')
      as (y' & Hs' & S2).
    { clear H1 H1' S. revert m' S1.
      induction Hs as [x0|x0 m0 y0 Hd Hlt _ IH]; intros x0' S.
      - exists x0'. split; [constructor|exact S].
      - destruct (IHa Hfree _ _ _ Hd S) as (m0' & Hd' & S1).
        destruct (IH m0' S1) as (y' & Hs' & S2).
        exists y'. split; [|exact S2].
        apply star_more with (m := m0'); [exact Hd'| |exact Hs'].
        now rewrite <- (same_place_length S), <- (same_place_length S1). }
    eauto.
  - now apply IHa with (x := x).
Qed.

Lemma last_char_same : forall pre pre' p p',
  map basic_lower pre = map basic_lower pre' ->
  match p, p' with
  | Some a, Some b => basic_lower a = basic_lower b
  | None, None => True
  | _, _ => False
  end ->
  match last_char p pre, last_char p' pre' with
  | Some a, Some b => basic_lower a = basic_lower b
  | None, None => True
  | _, _ => False
  end.
Proof.
  unfold last_char.
  induction pre as [|c pre IH]; intros [|c' pre'] p p' H Hp; try discriminate.
  - exact Hp.
  - cbn [map] in H. injection H as Hc H. cbn [fold_left].
    apply IH; assumption.
Qed.

Lemma search_same_true : forall r t t',
  set_free r = true -> map basic_lower t = map basic_lower t' ->
  re_search U true r t = true -> re_search U true r t' = true.
Proof.
  intros r t t' Hfree Ht H. apply re_search_accepts in H.
  destruct H as (pre & suf & -> & y & Hy).
  rewrite map_app in Ht. symmetry in Ht. apply map_eq_app in Ht.
  destruct Ht as (pre' & suf' & -> & Hpre & Hsuf).
  assert (same_place (last_char None pre, suf) (last_char None pre', suf'))
    as S.
  { split; cbn [fst snd]; [|now symmetry].
    apply last_char_same; [now symmetry|exact I]. }
  destruct (@denote_same r Hfree _ _ _ Hy S) as (y' & Hy' & _).
  apply re_search_accepts. exists pre', suf'. split; [reflexivity|].
  exists y'. exact Hy'.
Qed.

Lemma search_same : forall r t t',
  set_free r = true -> map basic_lower t = map basic_lower t' ->
  search_ic U r t = search_ic U r t'.
Proof.
  intros r t t' Hfree Ht. unfold search_ic.
  destruct (re_search U true r t) eqn:E1, (re_search U true r t') eqn:E2;
    try reflexivity.
  - rewrite (@search_same_true r t t' Hfree Ht E1) in E2. discriminate.
  - symmetry in Ht.
    rewrite (@search_same_true r t' t Hfree Ht E2) in E1. discriminate.
Qed.

(** X12: two titles that differ only in the case of their Latin and
    Cyrillic letters get the same category. *)
Theorem categorize_vacancy_ignores_case : forall t t',
  map basic_lower t = map basic_lower t' ->
  categorize_vacancy U t = categorize_vacancy U t'.
Proof.
  intros t t' H. unfold categorize_vacancy.
  rewrite (@search_same data_analyst_re t t' eq_refl H).
  rewrite (@search_same bi_analyst_re t t' eq_refl H).
  rewrite (@search_same product_analyst_re t t' eq_refl H).
  rewrite (@search_same web_analyst_re t t' eq_refl H).
  rewrite (@search_same data_engineer_re t t' eq_refl H).
  rewrite (@search_same data_scientist_re t t' eq_refl H).
  reflexivity.
Qed.
End CaseBlind.

Lemma categorize_vacancy_ignores_case_witness :
  categorize_vacancy plain_unicode (u "Старший АНАЛИТИК Данных (SQL)")
  = categorize_vacancy plain_unicode (u "старший аналитик данных (sql)").
Proof.
  apply (@categorize_vacancy_ignores_case plain_unicode
           (u "Старший АНАЛИТИК Данных (SQL)")
           (u "старший аналитик данных (sql)")).
  vm_compute. reflexivity.
Defined.

(** ** The classifier: the rules in words *)

Lemma data_analyst_re_shape :
  data_analyst_re =
  Alt (Group 1 (pair_re true (u "data") (u "anal")))
    (Alt (Group 2 (pair_re true (u "data") (u "анал")))
       (Alt (Group 3 (pair_re false (u "анал") (u "дан")))
          (Group 4 (token_re (u "da"))))).
Proof. reflexivity. Qed.

Lemma bi_analyst_re_shape :
  bi_analyst_re =
  Alt (Group 1 (pair_re true (u "bi") (u "anal")))
    (Alt (Group 2 (token_re (u "bi")))
       (Alt (Group 3 (pair_re true (u "bi") (u "анал")))
          (Group 4 (pair_re false (u "анал") (u "bi"))))).
Proof. reflexivity. Qed.

Lemma web_analyst_re_shape :
  web_analyst_re =
  Alt (Group 1 (anywhere (u "веб")))
    (Alt (Group 2 (pair_re true (u "web") (u "анал")))
       (Alt (Group 3 (pair_re false (u "анал") (u "web")))
          (Group 4 (token_re (u "web"))))).
Proof. reflexivity. Qed.

Lemma data_engineer_re_shape :
  data_engineer_re =
  Alt (Group 1 (anywhere (u "engin")))
    (Alt (Group 2 (anywhere (u "инжен"))) (Group 3 (token_re (u "de")))).
Proof. reflexivity. Qed.

Lemma data_scientist_re_shape :
  data_scientist_re =
  Alt (Group 1 (pair_re true (u "data") (u "scien")))
    (Alt (Group 2 (anywhere (u "scien"))) (Group 3 (token_re (u "ds")))).
Proof. reflexivity. Qed.

Section RulesInWords.
  Variable U : unicode_db.

Lemma last_char_app : forall p a b,
  last_char (last_char p a) b = last_char p (a ++ b).
Proof. intros p a b. unfold last_char. now rewrite fold_left_app. Qed.

(** [\bw\b] is found in the texts that contain [w] between two word
    boundaries. *)
Lemma search_token : forall icase w t,
  re_search U icase (token_re w) t = true <-> contains_token U icase w t.
Proof.
  intros icase w t. rewrite re_search_accepts.
  unfold contains_token, token_re. split.
  - intros (pre & suf & -> & y & m & [-> Hb] & H).
    apply denote_lits_then in H.
    destruct H as (w' & b & -> & Hw & -> & Hb').
    exists pre, w', b. rewrite <- last_char_app. auto.
  - intros (a & w' & b & -> & Hw & Hb & Hb').
    exists a, (w' ++ b). split; [reflexivity|].
    exists (last_char None (a ++ w'), b), (last_char None a, w' ++ b).
    split; [split; [reflexivity|exact Hb]|].
    apply denote_lits_then. exists w', b.
    rewrite last_char_app. cbn [denote]. auto.
Qed.

Lemma pair_contains_second : forall icase apart w1 w2 t,
  contains_pair U icase apart w1 w2 t -> contains_word U icase w2 t.
Proof.
  intros icase apart w1 w2 t (a & w1' & g & w2' & b & -> & _ & Hw & _).
  exists (a ++ w1' ++ g), w2', b. split; [|exact Hw].
  now rewrite <- !app_assoc.
Qed.

Lemma data_analyst_matches : forall t,
  search_ic U data_analyst_re t = true <->
  contains_pair U true true (u "data") (u "anal") t
  \/ contains_pair U true true (u "data") (u "анал") t
  \/ contains_pair U true false (u "анал") (u "дан") t
  \/ contains_token U true (u "da") t.
Proof.
  intros t. unfold search_ic. rewrite data_analyst_re_shape.
  rewrite !re_search_alt, !re_search_group, !search_pair, search_token.
  reflexivity.
Qed.

Lemma bi_analyst_matches : forall t,
  search_ic U bi_analyst_re t = true <->
  contains_pair U true true (u "bi") (u "anal") t
  \/ contains_token U true (u "bi") t
  \/ contains_pair U true true (u "bi") (u "анал") t
  \/ contains_pair U true false (u "анал") (u "bi") t.
Proof.
  intros t. unfold search_ic. rewrite bi_analyst_re_shape.
  rewrite !re_search_alt, !re_search_group, !search_pair, search_token.
  reflexivity.
Qed.

Lemma web_analyst_matches : forall t,
  search_ic U web_analyst_re t = true <->
  contains_word U true (u "веб") t
  \/ contains_pair U true true (u "web") (u "анал") t
  \/ contains_pair U true false (u "анал") (u "web") t
  \/ contains_token U true (u "web") t.
Proof.
  intros t. unfold search_ic. rewrite web_analyst_re_shape.
  rewrite !re_search_alt, !re_search_group, !search_pair, search_anywhere,
    search_token.
  reflexivity.
Qed.

Lemma data_engineer_matches : forall t,
  search_ic U data_engineer_re t = true <->
  contains_word U true (u "engin") t
  \/ contains_word U true (u "инжен") t
  \/ contains_token U true (u "de") t.
Proof.
  intros t. unfold search_ic. rewrite data_engineer_re_shape.
  rewrite !re_search_alt, !re_search_group, !search_anywhere, search_token.
  reflexivity.
Qed.

Lemma data_scientist_matches : forall t,
  search_ic U data_scientist_re t = true <->
  contains_word U true (u "scien") t \/ contains_token U true (u "ds") t.
Proof.
  intros t. unfold search_ic. rewrite data_scientist_re_shape.
  rewrite !re_search_alt, !re_search_group, search_anywhere, search_pair,
    search_token.
  split; [|tauto].
  intros [H|H]; [apply pair_contains_second in H|]; tauto.
Qed.

(** X13: what the data-analyst, BI-analyst, web-analyst, engineer and
    scientist patterns match, in words (letters compared without case):
    a word anywhere in the title, two words in a given order on one
    line, or a word between two word boundaries. *)
Theorem rules_in_words : forall t,
  (search_ic U data_analyst_re t = true <->
     contains_pair U true true (u "data") (u "anal") t
     \/ contains_pair U true true (u "data") (u "анал") t
     \/ contains_pair U true false (u "анал") (u "дан") t
     \/ contains_token U true (u "da") t)
  /\ (search_ic U bi_analyst_re t = true <->
        contains_pair U true true (u "bi") (u "anal") t
        \/ contains_token U true (u "bi") t
        \/ contains_pair U true true (u "bi") (u "анал") t
        \/ contains_pair U true false (u "анал") (u "bi") t)
  /\ (search_ic U web_analyst_re t = true <->
        contains_word U true (u "веб") t
        \/ contains_pair U true true (u "web") (u "анал") t
        \/ contains_pair U true false (u "анал") (u "web") t
        \/ contains_token U true (u "web") t)
  /\ (search_ic U data_engineer_re t = true <->
        contains_word U true (u "engin") t
        \/ contains_word U true (u "инжен") t
        \/ contains_token U true (u "de") t)
  /\ (search_ic U data_scientist_re t = true <->
        contains_word U true (u "scien") t
        \/ contains_token U true (u "ds") t).
Proof.
  intros t. split; [apply data_analyst_matches|].
  split; [apply bi_analyst_matches|]. split; [apply web_analyst_matches|].
  split; [apply data_engineer_matches|apply data_scientist_matches].
Qed.

(** X14: a title is classified "Data Scientist" exactly when the five
    earlier rules do not match it and it contains "scien" or the token
    "ds" (letters compared without case); the alternative of the pattern
    that asks for "data" before "scien" adds nothing. *)
Theorem data_scientist_rule : forall t,
  categorize_vacancy U t = u "Data Scientist" <->
  search_ic U data_analyst_re t = false
  /\ search_ic U bi_analyst_re t = false
  /\ search_ic U product_analyst_re t = false
  /\ search_ic U web_analyst_re t = false
  /\ search_ic U data_engineer_re t = false
  /\ (contains_word U true (u "scien") t \/ contains_token U true (u "ds") t).
Proof.
  intros t.
  rewrite <- data_scientist_matches.
  unfold categorize_vacancy.
  destruct (search_ic U data_analyst_re t);
    [split; [discriminate|intros (? & _); discriminate]|].
  destruct (search_ic U bi_analyst_re t);
    [split; [discriminate|intros (_ & ? & _); discriminate]|].
  destruct (search_ic U product_analyst_re t);
    [split; [discriminate|intros (_ & _ & ? & _); discriminate]|].
  destruct (search_ic U web_analyst_re t);
    [split; [discriminate|intros (_ & _ & _ & ? & _); discriminate]|].
  destruct (search_ic U data_engineer_re t);
    [split; [discriminate|intros (_ & _ & _ & _ & ? & _); discriminate]|].
  destruct (search_ic U data_scientist_re t).
  - split; [intros _; repeat split|reflexivity].
  - split; [discriminate|intros (_ & _ & _ & _ & _ & ?); discriminate].
Qed.
End RulesInWords.

(** ** Floating-point division and rounding are monotone *)

Section FloatOrder.
  Open Scope Z_scope.

(** [2^(t+s) = 2^t * 2^s], with the powers of a negative exponent in
    the denominator. *)
Lemma pow2_add : forall t s,
  0 <= s -> pow2 (t + s) * pow2 (- t) = pow2 t * 2 ^ s * pow2 (- (t + s)).
Proof.
  intros t s Hs. unfold pow2.
  destruct (Z_lt_le_dec t 0) as [Ht|Ht];
    destruct (Z_lt_le_dec (t + s) 0) as [Hts|Hts].
  - rewrite (Z.max_l 0 (t + s)), (Z.max_r 0 (- t)), (Z.max_l 0 t),
      (Z.max_r 0 (- (t + s))) by lia.
    replace (- t) with (s + - (t + s)) at 1 by lia.
    rewrite Z.pow_add_r by lia. rewrite !Z.pow_0_r. ring.
  - rewrite (Z.max_r 0 (t + s)), (Z.max_r 0 (- t)), (Z.max_l 0 t),
      (Z.max_l 0 (- (t + s))) by lia.
    rewrite <- Z.pow_add_r by lia. replace (t + s + - t) with s by lia.
    rewrite !Z.pow_0_r. ring.
  - lia.
  - rewrite (Z.max_r 0 (t + s)), (Z.max_l 0 (- t)), (Z.max_r 0 t),
      (Z.max_l 0 (- (t + s))) by lia.
    rewrite Z.pow_add_r by lia. rewrite !Z.pow_0_r. ring.
Qed.

Lemma pow2_le : forall s t,
  s <= t -> pow2 s * pow2 (- t) <= pow2 t * pow2 (- s).
Proof.
  intros s t H. pose proof (@pow2_add s (t - s) ltac:(lia)) as E.
  replace (s + (t - s)) with t in E by lia.
  pose proof (pow2_pos s). pose proof (pow2_pos (- t)).
  assert (1 <= 2 ^ (t - s)) by (apply Z.pow_le_mono_r with (b := 0); lia).
  rewrite E. nia.
Qed.

(** *** Rounding to the nearest integer *)

Lemma div_half_even_near : forall a b,
  0 <= a -> 0 < b ->
  let q := div_half_even a b in
  (2 * q - 1) * b <= 2 * a <= (2 * q + 1) * b
  /\ (2 * a = (2 * q + 1) * b -> Z.even q = true)
  /\ (2 * a = (2 * q - 1) * b -> Z.even q = true).
Proof.
  intros a b Ha Hb. cbv zeta. unfold div_half_even.
  pose proof (Z.div_mod a b ltac:(lia)) as Hdm.
  pose proof (Z.mod_pos_bound a b Hb) as Hm.
  set (q := a / b) in *. set (r := a mod b) in *.
  destruct (Z.compare_spec (2 * r) b) as [E|L|G].
  - destruct (Z.even q) eqn:Ev.
    + split; [nia|]. split; [auto|]. intros H. exfalso. nia.
    + split; [nia|]. split; [intros H; exfalso; nia|]. intros _.
      rewrite Z.even_add, Ev. reflexivity.
  - split; [nia|]. split; intros H; exfalso; nia.
  - split; [nia|]. split; intros H; exfalso; nia.
Qed.

Lemma div_half_even_mono : forall a1 b1 a2 b2,
  0 <= a1 -> 0 < b1 -> 0 <= a2 -> 0 < b2 ->
  a1 * b2 <= a2 * b1 ->
  div_half_even a1 b1 <= div_half_even a2 b2.
Proof.
  intros a1 b1 a2 b2 Ha1 Hb1 Ha2 Hb2 H.
  destruct (div_half_even_near Ha1 Hb1) as ((L1 & U1) & T1 & T1').
  destruct (div_half_even_near Ha2 Hb2) as ((L2 & U2) & T2 & T2').
  set (q1 := div_half_even a1 b1) in *. set (q2 := div_half_even a2 b2) in *.
  destruct (Z_le_gt_dec q1 q2) as [|Hgt]; [assumption|exfalso].
  assert ((2 * q1 - 1) * (b1 * b2) <= (2 * q2 + 1) * (b1 * b2)) as Hmid by nia.
  assert (0 < b1 * b2) by nia.
  assert (2 * q1 - 1 <= 2 * q2 + 1) as Hq by nia.
  assert (q1 = q2 + 1) as Eq by lia.
  assert (2 * a1 = (2 * q1 - 1) * b1) as E1 by nia.
  assert (2 * a2 = (2 * q2 + 1) * b2) as E2 by nia.
  specialize (T1' E1). specialize (T2 E2).
  rewrite Eq, Z.even_add, T2 in T1'. discriminate.
Qed.

Lemma div_half_even_exact : forall q, 0 <= q -> div_half_even q 1 = q.
Proof.
  intros q Hq. unfold div_half_even.
  rewrite Z.div_1_r, Z.mod_1_r. reflexivity.
Qed.
End FloatOrder.

Section Quotients.
  Open Scope Z_scope.
  Variables a b : Z.
  Hypothesis Ha : 0 < a.
  Hypothesis Hb : 0 < b.

Lemma quotient_below_next :
  a * pow2 (- (Z.log2 a - Z.log2 b + 1))
  < b * pow2 (Z.log2 a - Z.log2 b + 1).
Proof.
  destruct (Z.log2_spec a Ha) as [La Ua]. destruct (Z.log2_spec b Hb) as [Lb Ub].
  pose proof (Z.log2_nonneg a). pose proof (Z.log2_nonneg b).
  set (la := Z.log2 a) in *. set (lb := Z.log2 b) in *.
  unfold pow2. destruct (Z_lt_le_dec (la - lb + 1) 0) as [Hn|Hp].
  - rewrite (Z.max_r 0 (- (la - lb + 1))), (Z.max_l 0 (la - lb + 1)) by lia.
    rewrite Z.pow_0_r, Z.mul_1_r.
    assert (2 ^ Z.succ la * 2 ^ (- (la - lb + 1)) = 2 ^ lb) as E.
    { rewrite <- Z.pow_add_r by lia. f_equal. lia. }
    assert (0 < 2 ^ (- (la - lb + 1))) by (apply Z.pow_pos_nonneg; lia).
    nia.
  - rewrite (Z.max_l 0 (- (la - lb + 1))), (Z.max_r 0 (la - lb + 1)) by lia.
    rewrite Z.pow_0_r, Z.mul_1_r.
    assert (2 ^ lb * 2 ^ (la - lb + 1) = 2 ^ Z.succ la) as E.
    { rewrite <- Z.pow_add_r by lia. f_equal. lia. }
    assert (0 < 2 ^ (la - lb + 1)) by (apply Z.pow_pos_nonneg; lia).
    nia.
Qed.

Lemma quotient_above_previous :
  b * pow2 (Z.log2 a - Z.log2 b - 1)
  <= a * pow2 (- (Z.log2 a - Z.log2 b - 1)).
Proof.
  destruct (Z.log2_spec a Ha) as [La Ua]. destruct (Z.log2_spec b Hb) as [Lb Ub].
  pose proof (Z.log2_nonneg a). pose proof (Z.log2_nonneg b).
  set (la := Z.log2 a) in *. set (lb := Z.log2 b) in *.
  unfold pow2. destruct (Z_lt_le_dec (la - lb - 1) 0) as [Hn|Hp].
  - rewrite (Z.max_r 0 (- (la - lb - 1))), (Z.max_l 0 (la - lb - 1)) by lia.
    rewrite Z.pow_0_r, Z.mul_1_r.
    assert (2 ^ la * 2 ^ (- (la - lb - 1)) = 2 ^ Z.succ lb) as E.
    { rewrite <- Z.pow_add_r by lia. f_equal. lia. }
    assert (0 < 2 ^ (- (la - lb - 1))) by (apply Z.pow_pos_nonneg; lia).
    nia.
  - rewrite (Z.max_l 0 (- (la - lb - 1))), (Z.max_r 0 (la - lb - 1)) by lia.
    rewrite Z.pow_0_r, Z.mul_1_r.
    assert (2 ^ Z.succ lb * 2 ^ (la - lb - 1) = 2 ^ la) as E.
    { rewrite <- Z.pow_add_r by lia. f_equal. lia. }
    assert (0 < 2 ^ (la - lb - 1)) by (apply Z.pow_pos_nonneg; lia).
    nia.
Qed.

(** [quotient_floor a b] is the integer part of the binary logarithm of
    [a / b]. *)
Lemma quotient_floor_spec :
  b * pow2 (quotient_floor a b) <= a * pow2 (- quotient_floor a b)
  /\ a * pow2 (- (quotient_floor a b + 1)) < b * pow2 (quotient_floor a b + 1).
Proof.
  unfold quotient_floor. cbv zeta.
  set (l := Z.log2 a - Z.log2 b).
  destruct (Z.leb_spec (b * pow2 l) (a * pow2 (- l))) as [T|T].
  - split; [exact T|apply quotient_below_next].
  - split; [apply quotient_above_previous|].
    replace (l - 1 + 1) with l by lia. exact T.
Qed.
End Quotients.

Section NearestOrder.
  Open Scope Z_scope.

Lemma nearest_float_parts : forall s a b,
  nearest_float s a b =
  let e := quotient_exponent a b in
  let m := quotient_mantissa a b in
  let '(m, e) := if m =? 2 ^ 53 then (2 ^ 52, e + 1) else (m, e) in
  if m =? 0 then ret (S754_zero s)
  else if 971 <? e then raise OverflowError
  else ret (S754_finite s (Z.to_pos m) e).
Proof. reflexivity. Qed.

Lemma quotient_mantissa_nonneg : forall a b,
  0 < a -> 0 < b -> 0 <= quotient_mantissa a b.
Proof.
  intros a b Ha Hb. unfold quotient_mantissa.
  pose proof (pow2_pos (quotient_exponent a b)).
  pose proof (pow2_pos (- quotient_exponent a b)).
  apply div_half_even_nonneg; nia.
Qed.

(** The value of the float: mantissa times two to the exponent. *)
Lemma nearest_float_value : forall a b x,
  0 < a -> 0 < b -> nearest_float false a b = inl x ->
  Qnum (float_to_Q x) * pow2 (- quotient_exponent a b)
  = quotient_mantissa a b * pow2 (quotient_exponent a b)
    * QDen (float_to_Q x).
Proof.
  intros a b x Ha Hb H. rewrite nearest_float_parts in H. cbv zeta in H.
  pose proof (quotient_mantissa_nonneg Ha Hb) as Hm.
  set (e := quotient_exponent a b) in *.
  set (m := quotient_mantissa a b) in *.
  pose proof (pow2_pos e). pose proof (pow2_pos (- e)).
  pose proof (pow2_pos (e + 1)). pose proof (pow2_pos (- (e + 1))).
  destruct (Z.eqb_spec m (2 ^ 53)) as [E|NE].
  - change (2 ^ 52 =? 0) with false in H. cbv iota in H.
    destruct (971 <? e + 1); [discriminate|]. injection H as <-.
    unfold float_to_Q. cbn [Qnum Qden]. rewrite Z2Pos.id by lia.
    pose proof (@pow2_add e 1 ltac:(lia)) as F. rewrite E.
    change (Z.pos (Z.to_pos (2 ^ 52))) with (2 ^ 52).
    change (2 ^ 53) with (2 ^ 52 * 2 ^ 1). nia.
  - destruct (Z.eqb_spec m 0) as [Z0|NZ].
    + injection H as <-. rewrite Z0. reflexivity.
    + destruct (971 <? e); [discriminate|]. injection H as <-.
      unfold float_to_Q. cbn [Qnum Qden]. rewrite !Z2Pos.id by lia. ring.
Qed.

Lemma quotient_floor_le : forall a1 a2 b,
  0 < a1 -> a1 <= a2 -> 0 < b ->
  quotient_floor a1 b <= quotient_floor a2 b.
Proof.
  intros a1 a2 b H1 H12 Hb.
  destruct (@quotient_floor_spec a1 b H1 Hb) as [L1 _].
  destruct (@quotient_floor_spec a2 b ltac:(lia) Hb) as [_ U2].
  set (t := quotient_floor a1 b) in *. set (s := quotient_floor a2 b) in *.
  destruct (Z_le_gt_dec t s) as [|Hgt]; [assumption|exfalso].
  pose proof (@pow2_le (s + 1) t ltac:(lia)) as Hp.
  pose proof (pow2_pos t). pose proof (pow2_pos (- t)).
  pose proof (pow2_pos (s + 1)). pose proof (pow2_pos (- (s + 1))).
  assert (b * pow2 t * pow2 (- (s + 1)) <= a2 * pow2 (- t) * pow2 (- (s + 1)))
    by nia.
  assert (a2 * pow2 (- (s + 1)) * pow2 (- t) < b * pow2 (s + 1) * pow2 (- t))
    by nia.
  nia.
Qed.

Lemma quotient_mantissa_le : forall a b,
  0 < a -> 0 < b -> quotient_mantissa a b <= 2 ^ 53.
Proof.
  intros a b Ha Hb. unfold quotient_mantissa.
  destruct (@quotient_floor_spec a b Ha Hb) as [_ U].
  assert (quotient_floor a b + 1 <= quotient_exponent a b + 53) as He
    by (unfold quotient_exponent; lia).
  set (e := quotient_exponent a b) in *. set (t := quotient_floor a b + 1) in *.
  pose proof (@pow2_le t (e + 53) He) as Hp.
  pose proof (@pow2_add e 53 ltac:(lia)) as F.
  pose proof (pow2_pos e). pose proof (pow2_pos (- e)).
  pose proof (pow2_pos t). pose proof (pow2_pos (- t)).
  pose proof (pow2_pos (e + 53)). pose proof (pow2_pos (- (e + 53))).
  rewrite <- (@div_half_even_exact (2 ^ 53)) by lia.
  apply div_half_even_mono; [nia|nia|lia|lia|].
  rewrite Z.mul_1_r.
  assert (a * pow2 (- (e + 53)) < b * pow2 (e + 53)) as U'.
  { assert (a * pow2 (- t) * pow2 (- (e + 53))
            < b * pow2 t * pow2 (- (e + 53))) by nia.
    assert (b * (pow2 t * pow2 (- (e + 53)))
            <= b * (pow2 (e + 53) * pow2 (- t))) by nia.
    nia. }
  assert (a * pow2 (- (e + 53)) * pow2 (- e)
          < b * pow2 (e + 53) * pow2 (- e)) by nia.
  assert (b * pow2 (e + 53) * pow2 (- e)
          = b * (pow2 e * 2 ^ 53 * pow2 (- (e + 53)))) by (rewrite <- F; ring).
  nia.
Qed.

Lemma quotient_mantissa_ge : forall a b,
  0 < a -> 0 < b -> quotient_exponent a b = quotient_floor a b - 52 ->
  2 ^ 52 <= quotient_mantissa a b.
Proof.
  intros a b Ha Hb He. unfold quotient_mantissa.
  destruct (@quotient_floor_spec a b Ha Hb) as [L _].
  set (e := quotient_exponent a b) in *.
  replace (quotient_floor a b) with (e + 52) in L by lia.
  pose proof (@pow2_add e 52 ltac:(lia)) as F.
  pose proof (pow2_pos e). pose proof (pow2_pos (- e)).
  pose proof (pow2_pos (e + 52)). pose proof (pow2_pos (- (e + 52))).
  rewrite <- (@div_half_even_exact (2 ^ 52)) by lia.
  apply div_half_even_mono; [lia|lia|nia|nia|].
  rewrite Z.mul_1_r.
  assert (b * pow2 (e + 52) * pow2 (- e)
          <= a * pow2 (- (e + 52)) * pow2 (- e)) by nia.
  assert (b * pow2 (e + 52) * pow2 (- e)
          = b * (pow2 e * 2 ^ 52 * pow2 (- (e + 52)))) by (rewrite <- F; ring).
  nia.
Qed.

(** The rounded quotient grows with the numerator. *)
Lemma nearest_float_mono : forall a1 a2 b x1 x2,
  0 < a1 -> a1 <= a2 -> 0 < b ->
  nearest_float false a1 b = inl x1 -> nearest_float false a2 b = inl x2 ->
  (float_to_Q x1 <= float_to_Q x2)%Q.
Proof.
  intros a1 a2 b x1 x2 H1 H12 Hb E1 E2.
  assert (0 < a2) as H2 by lia.
  pose proof (nearest_float_value H1 Hb E1) as V1.
  pose proof (nearest_float_value H2 Hb E2) as V2.
  pose proof (quotient_mantissa_nonneg H1 Hb) as M1.
  pose proof (quotient_mantissa_nonneg H2 Hb) as M2.
  pose proof (quotient_mantissa_le H1 Hb) as U1.
  pose proof (quotient_floor_le H1 H12 Hb) as Hfl.
  assert (quotient_exponent a1 b <= quotient_exponent a2 b) as He
    by (unfold quotient_exponent; lia).
  assert (quotient_mantissa a1 b * pow2 (quotient_exponent a1 b)
            * pow2 (- quotient_exponent a2 b)
          <= quotient_mantissa a2 b * pow2 (quotient_exponent a2 b)
             * pow2 (- quotient_exponent a1 b)) as Hv.
  { destruct (Z.eq_dec (quotient_exponent a1 b) (quotient_exponent a2 b))
      as [Ee|Ne].
    - assert (quotient_mantissa a1 b <= quotient_mantissa a2 b) as Hm.
      { unfold quotient_mantissa. rewrite Ee.
        pose proof (pow2_pos (quotient_exponent a2 b)).
        pose proof (pow2_pos (- quotient_exponent a2 b)).
        apply div_half_even_mono; nia. }
      rewrite Ee. pose proof (pow2_pos (quotient_exponent a2 b)).
      pose proof (pow2_pos (- quotient_exponent a2 b)).
      apply Z.mul_le_mono_nonneg_r; [lia|].
      apply Z.mul_le_mono_nonneg_r; [lia|exact Hm].
    - assert (quotient_exponent a2 b = quotient_floor a2 b - 52) as En
        by (unfold quotient_exponent in *; lia).
      pose proof (quotient_mantissa_ge H2 Hb En) as L2.
      set (e1 := quotient_exponent a1 b) in *.
      set (e2 := quotient_exponent a2 b) in *.
      set (m1 := quotient_mantissa a1 b) in *.
      set (m2 := quotient_mantissa a2 b) in *.
      pose proof (@pow2_add e1 1 ltac:(lia)) as F.
      pose proof (@pow2_le (e1 + 1) e2 ltac:(lia)) as Hp.
      pose proof (pow2_pos e1). pose proof (pow2_pos (- e1)).
      pose proof (pow2_pos e2). pose proof (pow2_pos (- e2)).
      pose proof (pow2_pos (e1 + 1)). pose proof (pow2_pos (- (e1 + 1))).
      change (2 ^ 1) with 2 in F.
      assert (2 * (pow2 e1 * pow2 (- e2)) <= pow2 e2 * pow2 (- e1)) as Hstep.
      { assert (2 * pow2 e1 * pow2 (- (e1 + 1)) * pow2 (- e2)
                <= pow2 e2 * pow2 (- (e1 + 1)) * pow2 (- e1)) by nia.
        nia. }
      change (2 ^ 53) with (2 ^ 52 * 2) in U1.
      assert (m1 * (pow2 e1 * pow2 (- e2))
              <= 2 ^ 52 * 2 * (pow2 e1 * pow2 (- e2))) by nia.
      assert (2 ^ 52 * (pow2 e2 * pow2 (- e1))
              <= m2 * (pow2 e2 * pow2 (- e1))) by nia.
      nia. }
  unfold Qle.
  pose proof (pow2_pos (- quotient_exponent a1 b)) as P1.
  pose proof (pow2_pos (- quotient_exponent a2 b)) as P2.
  set (n1 := Qnum (float_to_Q x1)) in *. set (d1 := QDen (float_to_Q x1)) in *.
  set (n2 := Qnum (float_to_Q x2)) in *. set (d2 := QDen (float_to_Q x2)) in *.
  assert (0 < d1) by (unfold d1; lia). assert (0 < d2) by (unfold d2; lia).
  set (p1 := pow2 (- quotient_exponent a1 b)) in *.
  set (p2 := pow2 (- quotient_exponent a2 b)) in *.
  assert (n1 * p1 * (d2 * p2) <= n2 * p2 * (d1 * p1)) as Hfinal.
  { rewrite V1, V2.
    match goal with
    | |- ?m1 * ?q1 * d1 * (d2 * p2) <= ?m2 * ?q2 * d2 * (d1 * p1) =>
        replace (m1 * q1 * d1 * (d2 * p2)) with (m1 * q1 * p2 * (d1 * d2))
          by ring;
        replace (m2 * q2 * d2 * (d1 * p1)) with (m2 * q2 * p1 * (d1 * d2))
          by ring
    end.
    apply Z.mul_le_mono_nonneg_r; [nia|exact Hv]. }
  apply (Z.mul_le_mono_pos_r _ _ (p1 * p2)); [nia|].
  replace (n1 * d2 * (p1 * p2)) with (n1 * p1 * (d2 * p2)) by ring.
  replace (n2 * d1 * (p1 * p2)) with (n2 * p2 * (d1 * p1)) by ring.
  exact Hfinal.
Qed.
End NearestOrder.

Section RoundOrder.
  Open Scope Z_scope.

Lemma nearest_float_sign : forall a b x,
  0 < a -> 0 < b -> nearest_float false a b = inl x ->
  x = S754_zero false \/ exists m e, x = S754_finite false m e.
Proof.
  intros a b x Ha Hb H. rewrite nearest_float_parts in H. cbv zeta in H.
  destruct (quotient_mantissa a b =? 2 ^ 53).
  - change (2 ^ 52 =? 0) with false in H. cbv iota in H.
    destruct (971 <? quotient_exponent a b + 1); [discriminate|].
    injection H as <-. right. eauto.
  - destruct (quotient_mantissa a b =? 0); [injection H as <-; now left|].
    destruct (971 <? quotient_exponent a b); [discriminate|].
    injection H as <-. right. eauto.
Qed.

Lemma float_value_nonneg : forall x,
  x = S754_zero false \/ (exists m e, x = S754_finite false m e) ->
  (0 <= float_to_Q x)%Q.
Proof.
  intros x [->|(m & e & ->)]; unfold Qle; cbn [float_to_Q Qnum Qden].
  - lia.
  - pose proof (pow2_pos e). nia.
Qed.

(** Rounding to three decimals keeps the order. *)
Lemma round_float_mono : forall x1 x2 f1 f2,
  x1 = S754_zero false \/ (exists m e, x1 = S754_finite false m e) ->
  x2 = S754_zero false \/ (exists m e, x2 = S754_finite false m e) ->
  (float_to_Q x1 <= float_to_Q x2)%Q ->
  round_float x1 3 = inl f1 -> round_float x2 3 = inl f2 ->
  (float_to_Q f1 <= float_to_Q f2)%Q.
Proof.
  intros x1 x2 f1 f2 S1 S2 Hle E1 E2.
  assert (forall x f,
            x = S754_zero false \/ (exists m e, x = S754_finite false m e) ->
            round_float x 3 = inl f ->
            f = S754_zero false \/ (exists m e, f = S754_finite false m e))
    as Hsign.
  { intros x f [->|(m & e & ->)] E; cbn [round_float] in E.
    - injection E as <-. now left.
    - destruct (div_half_even (Z.pos m * pow2 e * 10 ^ 3) (pow2 (- e)) =? 0)
        eqn:K; [injection E as <-; now left|].
      apply Z.eqb_neq in K.
      assert (0 <= div_half_even (Z.pos m * pow2 e * 10 ^ 3) (pow2 (- e))).
      { pose proof (pow2_pos e). pose proof (pow2_pos (- e)).
        apply div_half_even_nonneg; [|lia].
        change (10 ^ 3) with 1000. nia. }
      apply nearest_float_sign in E; [exact E|lia|reflexivity]. }
  destruct S1 as [->|(m1 & e1 & ->)].
  - cbn [round_float] in E1. injection E1 as <-.
    apply float_value_nonneg. now apply Hsign with (x := x2).
  - destruct S2 as [->|(m2 & e2 & ->)].
    + exfalso. unfold Qle in Hle. cbn [float_to_Q Qnum Qden] in Hle.
      pose proof (pow2_pos e1). nia.
    + cbn [round_float] in E1, E2.
      pose proof (pow2_pos e1). pose proof (pow2_pos (- e1)).
      pose proof (pow2_pos e2). pose proof (pow2_pos (- e2)).
      assert (div_half_even (Z.pos m1 * pow2 e1 * 10 ^ 3) (pow2 (- e1))
              <= div_half_even (Z.pos m2 * pow2 e2 * 10 ^ 3) (pow2 (- e2)))
        as Hk.
      { change (10 ^ 3) with 1000.
        apply div_half_even_mono; [nia|lia|nia|lia|].
        unfold Qle in Hle. cbn [float_to_Q Qnum Qden] in Hle.
        rewrite !Z2Pos.id in Hle by lia. nia. }
      assert (0 <= div_half_even (Z.pos m1 * pow2 e1 * 10 ^ 3) (pow2 (- e1)))
        as Hk1.
      { apply div_half_even_nonneg; [|lia]. change (10 ^ 3) with 1000. nia. }
      set (k1 := div_half_even (Z.pos m1 * pow2 e1 * 10 ^ 3) (pow2 (- e1)))
        in *.
      set (k2 := div_half_even (Z.pos m2 * pow2 e2 * 10 ^ 3) (pow2 (- e2)))
        in *.
      destruct (Z.eqb_spec k1 0) as [Z1|N1].
      * injection E1 as <-. apply float_value_nonneg.
        destruct (Z.eqb_spec k2 0) as [Z2|N2]; [injection E2 as <-; now left|].
        apply nearest_float_sign in E2; [exact E2|lia|reflexivity].
      * destruct (Z.eqb_spec k2 0) as [Z2|N2]; [lia|].
        apply (@nearest_float_mono k1 k2 (10 ^ 3) f1 f2); auto; lia.
Qed.

(** The fraction reported for a count grows with the count. *)
Lemma fraction_of_mono : forall n1 n2 total f1 f2,
  0 < n1 -> n1 <= n2 -> 0 < total ->
  fraction_of n1 total = inl f1 -> fraction_of n2 total = inl f2 ->
  (float_to_Q f1 <= float_to_Q f2)%Q.
Proof.
  intros n1 n2 total f1 f2 H1 H12 Ht E1 E2. unfold fraction_of in E1, E2.
  assert (forall n, 0 < n ->
            int_truediv n total = nearest_float false n total) as Hdiv.
  { intros n Hn. unfold int_truediv.
    destruct (Z.eqb_spec total 0); [lia|]. destruct (Z.eqb_spec n 0); [lia|].
    destruct (Z.ltb_spec n 0); [lia|]. destruct (Z.ltb_spec total 0); [lia|].
    cbn [xorb]. now rewrite !Z.abs_eq by lia. }
  rewrite Hdiv in E1, E2 by lia.
  destruct (nearest_float false n1 total) as [x1|] eqn:X1; [|discriminate].
  destruct (nearest_float false n2 total) as [x2|] eqn:X2; [|discriminate].
  cbn [bind] in E1, E2.
  apply (@round_float_mono x1 x2 f1 f2); auto.
  - apply (@nearest_float_sign n1 total); auto.
  - apply (@nearest_float_sign n2 total); auto. lia.
  - apply (@nearest_float_mono n1 n2 total); auto.
Qed.
End RoundOrder.

Section NoOverflow.
  Open Scope Z_scope.

Lemma quotient_exponent_le : forall a b,
  0 < a -> a < 2 ^ 1000 -> 0 < b -> quotient_exponent a b <= 947.
Proof.
  intros a b Ha Ha' Hb. unfold quotient_exponent, quotient_floor. cbv zeta.
  assert (Z.log2 a < 1000) by (apply Z.log2_lt_pow2; lia).
  pose proof (Z.log2_nonneg b).
  destruct (b * pow2 (Z.log2 a - Z.log2 b)
            <=? a * pow2 (- (Z.log2 a - Z.log2 b))); lia.
Qed.

(** A quotient below [2^1000] is within the range of a float, and so is
    a thousand times the float. *)
Lemma nearest_float_small : forall a b,
  0 < a -> a < 2 ^ 1000 -> 0 < b ->
  exists x,
    nearest_float false a b = inl x
    /\ (x = S754_zero false
        \/ exists m e, x = S754_finite false m e
                       /\ Z.pos m <= 2 ^ 53 /\ e <= 948).
Proof.
  intros a b Ha Ha' Hb. rewrite nearest_float_parts. cbv zeta.
  pose proof (quotient_exponent_le Ha Ha' Hb) as He.
  pose proof (quotient_mantissa_le Ha Hb) as Hm.
  pose proof (quotient_mantissa_nonneg Ha Hb) as Hm0.
  set (e := quotient_exponent a b) in *.
  set (m := quotient_mantissa a b) in *.
  destruct (Z.eqb_spec m (2 ^ 53)) as [E|NE].
  - change (2 ^ 52 =? 0) with false. cbv iota.
    destruct (Z.ltb_spec 971 (e + 1)) as [|_]; [lia|].
    eexists. split; [reflexivity|]. right. eexists. eexists.
    split; [reflexivity|]. split; [|lia].
    change (Z.pos (Z.to_pos (2 ^ 52))) with (2 ^ 52). lia.
  - destruct (Z.eqb_spec m 0) as [Z0|NZ].
    + eexists. split; [reflexivity|]. now left.
    + destruct (Z.ltb_spec 971 e) as [|_]; [lia|].
      eexists. split; [reflexivity|]. right. eexists. eexists.
      split; [reflexivity|]. rewrite Z2Pos.id by lia. lia.
Qed.

Lemma fraction_of_small : forall n total,
  0 < n -> n < 2 ^ 1000 -> 0 < total ->
  exists f, fraction_of n total = inl f.
Proof.
  intros n total Hn Hn' Ht. unfold fraction_of, int_truediv.
  destruct (Z.eqb_spec total 0); [lia|]. destruct (Z.eqb_spec n 0); [lia|].
  destruct (Z.ltb_spec n 0); [lia|]. destruct (Z.ltb_spec total 0); [lia|].
  cbn [xorb]. rewrite !Z.abs_eq by lia.
  destruct (nearest_float_small Hn Hn' Ht)
    as (x & -> & [->|(m & e & -> & Hm & He)]); cbn [bind round_float].
  - eexists. reflexivity.
  - set (k := div_half_even (Z.pos m * pow2 e * 10 ^ 3) (pow2 (- e))).
    pose proof (pow2_pos e). pose proof (pow2_pos (- e)).
    assert (0 <= k).
    { apply div_half_even_nonneg; [|lia]. change (10 ^ 3) with 1000. nia. }
    assert (k <= 2 ^ 53 * 2 ^ 948 * 1000) as Hk.
    { apply div_half_even_le; [change (10 ^ 3) with 1000; nia|lia|].
      change (10 ^ 3) with 1000.
      assert (pow2 e <= 2 ^ 948) as Hp.
      { unfold pow2. apply Z.pow_le_mono_r; lia. }
      assert (Z.pos m * pow2 e <= 2 ^ 53 * 2 ^ 948) by nia.
      nia. }
    destruct (Z.eqb_spec k 0); [eexists; reflexivity|].
    assert (2 ^ 53 * 2 ^ 948 * 1000 < 2 ^ 1022) as Hb
      by (vm_compute; reflexivity).
    rewrite nearest_float_parts. cbv zeta.
    assert (quotient_exponent k (10 ^ 3) <= 969) as He'.
    { unfold quotient_exponent, quotient_floor. cbv zeta.
      assert (Z.log2 k < 1022) by (apply Z.log2_lt_pow2; lia).
      pose proof (Z.log2_nonneg (10 ^ 3)).
      destruct (10 ^ 3 * pow2 (Z.log2 k - Z.log2 (10 ^ 3))
                <=? k * pow2 (- (Z.log2 k - Z.log2 (10 ^ 3)))); lia. }
    destruct (quotient_mantissa k (10 ^ 3) =? 2 ^ 53).
    + change (2 ^ 52 =? 0) with false. cbv iota.
      destruct (Z.ltb_spec 971 (quotient_exponent k (10 ^ 3) + 1)) as [|_];
        [lia|]. eexists. reflexivity.
    + destruct (quotient_mantissa k (10 ^ 3) =? 0); [eexists; reflexivity|].
      destruct (Z.ltb_spec 971 (quotient_exponent k (10 ^ 3))) as [|_];
        [lia|]. eexists. reflexivity.
Qed.
End NoOverflow.

(** ** Skill popularity: which skills, in which order *)

Lemma comprehension_Forall2 : forall (A B : Type) (f : A -> result B) l bs,
  comprehension f l = inl bs -> Forall2 (fun a b => f a = inl b) l bs.
Proof.
  intros A B f. induction l as [|a l IH]; intros bs H; simpl in H.
  - injection H as <-. constructor.
  - destruct (f a) as [b|e] eqn:Ea; [|discriminate]. simpl in H.
    destruct (comprehension f l) as [bs0|e] eqn:El; [|discriminate].
    simpl in H. injection H as <-. constructor; [exact Ea|now apply IH].
Qed.

Lemma rating_keys : forall total l pairs,
  comprehension
    (fun '(skill, number) =>
       x <- int_truediv number total ;;
       f <- round_float x 3 ;;
       ret (skill, f)) l = inl pairs ->
  map fst pairs = map (@fst str Z) l.
Proof.
  intros total l pairs H. apply comprehension_Forall2 in H.
  induction H as [|[k n] [k' f] l pairs H _ IH]; [reflexivity|].
  cbn [map fst]. f_equal; [|exact IH].
  destruct (int_truediv n total) as [x|e]; [|discriminate].
  cbn [bind] in H. destruct (round_float x 3) as [y|e]; [|discriminate].
  cbn [bind ret] in H. now injection H as -> _.
Qed.

Lemma insert_desc_keys : forall x l k,
  In k (map fst (insert_desc x l)) <-> k = fst x \/ In k (map fst l).
Proof.
  intros x l k. rewrite !in_map_iff. split.
  - intros (y & <- & Hy). apply insert_desc_In in Hy.
    destruct Hy as [->|Hy]; [now left|right; eauto].
  - intros [->|(y & <- & Hy)].
    + exists x. split; [reflexivity|]. apply insert_desc_In. now left.
    + exists y. split; [reflexivity|]. apply insert_desc_In. now right.
Qed.

Lemma insert_desc_NoDup : forall x l,
  NoDup (map fst (x :: l)) -> NoDup (map fst (insert_desc x l)).
Proof.
  intros x. induction l as [|y l IH]; intros H; [exact H|].
  cbn [insert_desc]. destruct (snd y <=? snd x)%Z; [exact H|].
  cbn [map] in *. inversion H as [|? ? Hx H']; subst.
  inversion H' as [|? ? Hy H'']; subst. constructor.
  - intros Hin. apply insert_desc_keys in Hin. destruct Hin as [E|Hin].
    + apply Hx. left. now symmetry.
    + now apply Hy.
  - apply IH. constructor; [|exact H'']. intros Hin. apply Hx. now right.
Qed.

Lemma sorted_desc_NoDup : forall l,
  NoDup (map fst l) -> NoDup (map fst (sorted_desc l)).
Proof.
  induction l as [|x l IH]; intros H; [exact H|].
  cbn [sorted_desc fold_right]. apply insert_desc_NoDup. cbn [map] in *.
  inversion H as [|? ? Hx H']; subst. constructor; [|now apply IH].
  intros Hin. apply Hx. apply in_map_iff in Hin.
  destruct Hin as (y & E & Hy). apply (proj1 (sorted_desc_In _ _)) in Hy.
  apply in_map_iff. exists y. split; assumption.
Qed.

(** X15: the rating names each skill that a vacancy of the category lists,
    once. *)
Theorem skills_rating_skills : forall df specialization pairs,
  skills_rating df specialization = inl pairs ->
  NoDup (map fst pairs)
  /\ forall skill,
       In skill (map fst pairs) <->
       0 < occurrences skill (skill_lists df specialization).
Proof.
  intros df specialization pairs H. rewrite skills_rating_unfold in H.
  apply rating_keys in H. rewrite H.
  set (lists := skill_lists df specialization).
  destruct (Counter_counts (List.concat lists)) as (ND & Hkeys & Hc).
  split; [now apply sorted_desc_NoDup|].
  intros skill. split.
  - intros Hin. apply in_map_iff in Hin. destruct Hin as ([k n] & <- & Hin).
    now apply counted_pair in Hin.
  - intros Hpos. unfold occurrences in Hpos.
    apply (count_occ_In str_eq_dec) in Hpos. apply Hkeys in Hpos.
    apply in_map_iff in Hpos. destruct Hpos as (x & <- & Hx).
    apply in_map. now apply sorted_desc_In.
Qed.

Lemma skills_rating_skills_witness :
  exists pairs,
    skills_rating tied_skills_table (u "Data Analyst") = inl pairs
    /\ map fst pairs = [u "Excel"; u "SQL"; u "Python"; u "Tableau"]
    /\ NoDup (map fst pairs).
Proof.
  destruct (skills_rating tied_skills_table (u "Data Analyst"))
    as [pairs|e] eqn:E; [|vm_compute in E; discriminate].
  exists pairs. split; [reflexivity|]. split.
  - vm_compute in E. injection E as <-. reflexivity.
  - exact (proj1 (@skills_rating_skills tied_skills_table (u "Data Analyst")
                    pairs E)).
Defined.

(** *** The order *)

Lemma first_index_app_old : forall k l x,
  In k l -> first_index k (l ++ [x]) = first_index k l.
Proof.
  intros k. induction l as [|y l IH]; intros x H; [destruct H|].
  cbn [app first_index]. destruct (str_eqb y k) eqn:E; [reflexivity|].
  f_equal. apply IH. destruct H as [->|H]; [|exact H].
  apply str_eqb_neq in E. congruence.
Qed.

Lemma first_index_bound : forall k l, In k l -> first_index k l < List.length l.
Proof.
  intros k. induction l as [|y l IH]; intros H; [destruct H|].
  cbn [first_index List.length]. destruct (str_eqb y k) eqn:E; [lia|].
  apply str_eqb_neq in E. destruct H as [->|H]; [congruence|].
  apply IH in H. lia.
Qed.

Lemma first_index_app_new : forall k l,
  ~ In k l -> first_index k (l ++ [k]) = List.length l.
Proof.
  intros k. induction l as [|y l IH]; intros H.
  - cbn [app first_index]. now rewrite (proj2 (str_eqb_eq k k) eq_refl).
  - cbn [app first_index List.length].
    destruct (str_eqb y k) eqn:E.
    + apply str_eqb_eq in E. exfalso. apply H. now left.
    + f_equal. apply IH. intros Hin. apply H. now right.
Qed.

Lemma FOP_snoc : forall (A : Type) (R : A -> A -> Prop) l x,
  ForallOrdPairs R l -> Forall (fun y => R y x) l ->
  ForallOrdPairs R (l ++ [x]).
Proof.
  intros A R l x H. induction H as [|a l Ha Hl IH]; intros Hx.
  - repeat constructor.
  - inversion Hx as [|? ? Hax Hx']; subst. cbn [app]. constructor.
    + apply Forall_app. split; [exact Ha|]. constructor; [exact Hax|constructor].
    + now apply IH.
Qed.

Lemma FOP_weaken : forall (A : Type) (R R' : A -> A -> Prop) l,
  ForallOrdPairs R l ->
  (forall x y, In x l -> In y l -> R x y -> R' x y) ->
  ForallOrdPairs R' l.
Proof.
  intros A R R' l H. induction H as [|a l Ha Hl IH]; intros Himp.
  - constructor.
  - constructor.
    + rewrite Forall_forall in *. intros y Hy.
      apply Himp; [now left|now right|now apply Ha].
    + apply IH. intros x y Hx Hy. apply Himp; now right.
Qed.

Lemma FOP_map : forall (A B : Type) (f : A -> B) (R : B -> B -> Prop) l,
  ForallOrdPairs (fun x y => R (f x) (f y)) l ->
  ForallOrdPairs R (map f l).
Proof.
  intros A B f R l H. induction H as [|a l Ha Hl IH]; cbn [map].
  - constructor.
  - constructor; [|exact IH]. rewrite Forall_forall in *.
    intros y Hy. apply in_map_iff in Hy. destruct Hy as (x & <- & Hx).
    now apply Ha.
Qed.

(** The keys of a counter are in the order of their first occurrence. *)
Lemma Counter_order : forall l,
  ForallOrdPairs (fun k1 k2 => first_index k1 l < first_index k2 l)
    (map fst (Counter l)).
Proof.
  intros l. unfold Counter.
  assert (forall l2 c l1,
            counts c l1 ->
            ForallOrdPairs (fun k1 k2 => first_index k1 l1 < first_index k2 l1)
              (map fst c) ->
            ForallOrdPairs
              (fun k1 k2 =>
                 first_index k1 (l1 ++ l2) < first_index k2 (l1 ++ l2))
              (map fst (fold_left (fun c k => counter_add k c) l2 c))) as H.
  { induction l2 as [|x l2 IH]; intros c l1 Hc Ho; cbn [fold_left].
    - now rewrite app_nil_r.
    - replace (l1 ++ x :: l2) with ((l1 ++ [x]) ++ l2)
        by (now rewrite <- app_assoc).
      apply IH; [now apply counts_add|].
      destruct Hc as (ND & Hkeys & Hcount).
      assert (forall k, In k (map fst c) -> In k l1) as Hin.
      { intros k Hk. apply in_map_iff in Hk. destruct Hk as ([k' n] & <- & Hk).
        now apply Hcount in Hk. }
      rewrite counter_add_keys.
      destruct (existsb (fun k => str_eqb k x) (map fst c)) eqn:E.
      + apply FOP_weaken with (1 := Ho). intros k1 k2 H1 H2 Hlt.
        rewrite !first_index_app_old by auto. exact Hlt.
      + assert (~ In x l1) as Hx.
        { intros Hx. apply Hkeys in Hx. apply existsb_key in Hx. congruence. }
        apply FOP_snoc.
        * apply FOP_weaken with (1 := Ho). intros k1 k2 H1 H2 Hlt.
          rewrite !first_index_app_old by auto. exact Hlt.
        * apply Forall_forall. intros k Hk.
          rewrite first_index_app_old by auto.
          rewrite first_index_app_new by exact Hx.
          apply first_index_bound. auto. }
  apply (H l [] []).
  - repeat split; simpl; try constructor; intros; contradiction.
  - constructor.
Qed.

(** Sorting is stable: larger counts first, equal counts in the order
    they had. *)
Lemma insert_desc_order : forall (P : str -> str -> Prop) x l,
  ForallOrdPairs
    (fun a b => (snd b < snd a)%Z \/ (snd b = snd a /\ P (fst a) (fst b))) l ->
  Forall (fun y => P (fst x) (fst y)) l ->
  ForallOrdPairs
    (fun a b => (snd b < snd a)%Z \/ (snd b = snd a /\ P (fst a) (fst b)))
    (insert_desc x l).
Proof.
  intros P x l H. induction H as [|y l Hy Hl IH]; intros Hx.
  - repeat constructor.
  - inversion Hx as [|? ? Hxy Hx']; subst. cbn [insert_desc].
    destruct (Z.leb_spec (snd y) (snd x)) as [Hle|Hgt].
    + constructor; [|constructor; assumption].
      constructor.
      * destruct (Z.eq_dec (snd y) (snd x)); [right; auto|left; lia].
      * rewrite Forall_forall in *. intros z Hz.
        specialize (Hy z Hz). specialize (Hx' z Hz).
        destruct (Z.eq_dec (snd z) (snd x)); [right; auto|left; lia].
    + constructor; [|now apply IH].
      apply Forall_forall. intros z Hz. apply insert_desc_In in Hz.
      destruct Hz as [->|Hz]; [lia|].
      rewrite Forall_forall in Hy. now apply Hy.
Qed.

Lemma sorted_desc_order : forall (P : str -> str -> Prop) l,
  ForallOrdPairs (fun a b => P (fst a) (fst b)) l ->
  ForallOrdPairs
    (fun a b => (snd b < snd a)%Z \/ (snd b = snd a /\ P (fst a) (fst b)))
    (sorted_desc l).
Proof.
  intros P l H. induction H as [|x l Hx Hl IH]; [constructor|].
  cbn [sorted_desc fold_right]. apply insert_desc_order; [exact IH|].
  rewrite Forall_forall in *. intros y Hy.
  apply (proj1 (sorted_desc_In _ _)) in Hy. now apply Hx.
Qed.

(** X16: the rating is in the order of the counts, largest first; skills
    listed equally often are in the order in which they are first
    listed. *)
Theorem skills_rating_order : forall df specialization pairs,
  skills_rating df specialization = inl pairs ->
  ForallOrdPairs (ranks_before (skill_lists df specialization))
    (map fst pairs).
Proof.
  intros df specialization pairs H. rewrite skills_rating_unfold in H.
  apply rating_keys in H. rewrite H.
  set (lists := skill_lists df specialization).
  apply FOP_map.
  assert (ForallOrdPairs
            (fun a b : str * Z =>
               first_index (fst a) (List.concat lists)
               < first_index (fst b) (List.concat lists))
            (Counter (List.concat lists))) as Ho.
  { pose proof (Counter_order (List.concat lists)) as Hc.
    remember (Counter (List.concat lists)) as c eqn:Ec. clear Ec.
    induction c as [|a c IHc]; [constructor|].
    cbn [map] in Hc. inversion Hc as [|? ? Ha Hc']; subst.
    constructor; [|now apply IHc].
    rewrite Forall_forall in *. intros b Hb. apply Ha. now apply in_map. }
  apply (sorted_desc_order
           (fun k1 k2 => first_index k1 (List.concat lists)
                         < first_index k2 (List.concat lists))) in Ho.
  apply FOP_weaken with (1 := Ho).
  intros [k1 n1] [k2 n2] H1 H2 Hr. cbn [fst snd] in *.
  apply counted_pair in H1, H2. destruct H1 as [_ ->], H2 as [_ ->].
  unfold ranks_before. lia.
Qed.

Lemma skills_rating_order_witness :
  exists pairs,
    skills_rating tied_skills_table (u "Data Analyst") = inl pairs
    /\ map fst pairs = [u "Excel"; u "SQL"; u "Python"; u "Tableau"]
    /\ ForallOrdPairs
         (ranks_before (skill_lists tied_skills_table (u "Data Analyst")))
         (map fst pairs).
Proof.
  destruct (skills_rating tied_skills_table (u "Data Analyst"))
    as [pairs|e] eqn:E; [|vm_compute in E; discriminate].
  exists pairs. split; [reflexivity|]. split.
  - vm_compute in E. injection E as <-. reflexivity.
  - exact (@skills_rating_order tied_skills_table (u "Data Analyst") pairs E).
Defined.

(** *** Exceptions *)

Lemma nearest_float_raises : forall s a b,
  (exists x, nearest_float s a b = inl x)
  \/ nearest_float s a b = inr OverflowError.
Proof.
  intros s a b. unfold nearest_float. cbv zeta.
  match goal with
  | |- context [if ?c then (_, _) else (_, _)] => destruct c
  end;
    match goal with
    | |- context [if ?c then ret _ else _] => destruct c
    end; try (left; eexists; reflexivity);
    match goal with
    | |- context [if ?c then raise _ else _] => destruct c
    end; try (left; eexists; reflexivity); right; reflexivity.
Qed.

Lemma int_truediv_raises : forall number total,
  total <> 0%Z ->
  (exists x, int_truediv number total = inl x)
  \/ int_truediv number total = inr OverflowError.
Proof.
  intros number total Ht. unfold int_truediv.
  destruct (Z.eqb_spec total 0) as [|_]; [contradiction|].
  destruct (number =? 0)%Z; [left; eexists; reflexivity|].
  apply nearest_float_raises.
Qed.

Lemma round_float_raises : forall x,
  (exists f, round_float x 3 = inl f) \/ round_float x 3 = inr OverflowError.
Proof.
  intros x. unfold round_float.
  destruct x as [s|s| |s m e]; try (left; eexists; reflexivity).
  match goal with
  | |- context [if ?c then ret _ else _] => destruct c
  end; [left; eexists; reflexivity|apply nearest_float_raises].
Qed.

Lemma fraction_of_raises : forall number total,
  total <> 0%Z ->
  (exists f, fraction_of number total = inl f)
  \/ fraction_of number total = inr OverflowError.
Proof.
  intros number total Ht. unfold fraction_of.
  destruct (int_truediv_raises number Ht) as [(x & Ex)|Ex]; rewrite Ex;
    [|right; reflexivity].
  cbn [bind]. apply round_float_raises.
Qed.

Lemma comprehension_raises : forall (A B : Type) (f : A -> result B) e l,
  (forall a, In a l -> (exists b, f a = inl b) \/ f a = inr e) ->
  (exists bs, comprehension f l = inl bs) \/ comprehension f l = inr e.
Proof.
  intros A B f e. induction l as [|a l IH]; intros H; cbn [comprehension].
  - left. eexists. reflexivity.
  - destruct (H a (or_introl eq_refl)) as [(b & Eb)|Eb]; rewrite Eb;
      [|now right].
    cbn [bind].
    destruct IH as [(bs & Ebs)|Ebs]; [intros; apply H; now right| |];
      rewrite Ebs; [|now right].
    left. eexists. reflexivity.
Qed.

(** X18: for every table and category [skills_rating] returns a rating or
    raises [OverflowError] (a count too large for a float): it never
    divides by zero. *)
Theorem skills_rating_raises : forall df specialization,
  (exists pairs, skills_rating df specialization = inl pairs)
  \/ skills_rating df specialization = inr OverflowError.
Proof.
  intros df specialization. rewrite skills_rating_unfold.
  set (lists := skill_lists df specialization).
  apply comprehension_raises. intros [k n] Hin.
  apply counted_pair in Hin. destruct Hin as [Hpos ->].
  assert (Z.of_nat (List.length lists) <> 0%Z) as Ht.
  { destruct lists as [|l lists']; [|simpl; lia].
    unfold occurrences in Hpos. simpl in Hpos. lia. }
  destruct (@fraction_of_raises (Z.of_nat (occurrences k lists))
              (Z.of_nat (List.length lists)) Ht) as [(f & E)|E];
    unfold fraction_of in E.
  - left. exists (k, f).
    destruct (int_truediv (Z.of_nat (occurrences k lists))
                (Z.of_nat (List.length lists))) as [x|e]; [|discriminate].
    cbn [bind] in *. now rewrite E.
  - right.
    destruct (int_truediv (Z.of_nat (occurrences k lists))
                (Z.of_nat (List.length lists))) as [x|e].
    + cbn [bind] in *. now rewrite E.
    + cbn [bind] in *. injection E as ->. reflexivity.
Qed.

(** ** Skill popularity: the fractions go down *)

Lemma FOP_any : forall (A : Type) (l : list A),
  ForallOrdPairs (fun _ _ => True) l.
Proof.
  intros A. induction l as [|a l IH]; constructor; [|exact IH].
  apply Forall_forall. auto.
Qed.

Lemma Forall2_In_r : forall (A B : Type) (T : A -> B -> Prop) l l' b',
  Forall2 T l l' -> In b' l' -> exists b, In b l /\ T b b'.
Proof.
  intros A B T l l' b' H. induction H as [|a a' l l' Ha Hl IH]; intros Hin.
  - destruct Hin.
  - destruct Hin as [<-|Hin].
    + exists a. split; [now left|exact Ha].
    + destruct (IH Hin) as (b & Hb & Tb). exists b. split; [now right|exact Tb].
Qed.

Lemma FOP_Forall2 : forall (A B : Type) (T : A -> B -> Prop)
  (R : A -> A -> Prop) (R' : B -> B -> Prop) l l',
  Forall2 T l l' -> ForallOrdPairs R l ->
  (forall a b a' b', In a l -> In b l -> T a a' -> T b b' -> R a b ->
                     R' a' b') ->
  ForallOrdPairs R' l'.
Proof.
  intros A B T R R' l l' H. induction H as [|a a' l l' Ha Hl IH];
    intros Ho Himp; [constructor|].
  inversion Ho as [|? ? Hfa Ho']; subst. constructor.
  - apply Forall_forall. intros b' Hb'.
    destruct (@Forall2_In_r _ _ T l l' b' Hl Hb') as (b & Hb & Tb).
    rewrite Forall_forall in Hfa.
    apply (Himp a b a' b'); auto; [now left|now right].
  - apply IH; [exact Ho'|]. intros a0 b0 a0' b0' H1 H2.
    apply Himp; now right.
Qed.

(** An order of the fractions that the order of the counts gives holds
    along the rating. *)
Lemma rating_lifts : forall (R : str * float -> str * float -> Prop)
  df specialization pairs,
  (forall (k1 k2 : str) (n1 n2 total : Z) (f1 f2 : float),
     (0 < n2)%Z -> (n2 <= n1)%Z -> (0 < total)%Z ->
     fraction_of n1 total = inl f1 -> fraction_of n2 total = inl f2 ->
     R (k1, f1) (k2, f2)) ->
  skills_rating df specialization = inl pairs ->
  ForallOrdPairs R pairs.
Proof.
  intros R df specialization pairs HR H. rewrite skills_rating_unfold in H.
  set (lists := skill_lists df specialization) in *.
  apply comprehension_Forall2 in H.
  pose proof (@sorted_desc_order (fun _ _ => True)
                (Counter (List.concat lists)) (FOP_any _)) as Ho.
  apply (@FOP_Forall2 _ _ _ _ R _ _ H Ho).
  intros [k1 n1] [k2 n2] [k1' f1] [k2' f2] H1 H2 T1 T2 Hord.
  cbn [fst snd] in Hord. apply counted_pair in H1, H2.
  destruct H1 as [P1 ->], H2 as [P2 ->].
  assert (0 < Z.of_nat (List.length lists))%Z as Ht.
  { destruct lists as [|l lists']; [|simpl; lia].
    unfold occurrences in P1. simpl in P1. lia. }
  assert (forall (k : str) (n : Z) (k' : str) (f : float),
            (x <- int_truediv n (Z.of_nat (List.length lists)) ;;
             f0 <- round_float x 3 ;; ret (k, f0)) = inl (k', f) ->
            fraction_of n (Z.of_nat (List.length lists)) = inl f) as Hf.
  { intros k n k' f E. unfold fraction_of.
    destruct (int_truediv n (Z.of_nat (List.length lists))) as [x|e];
      [|discriminate].
    cbn [bind] in *. destruct (round_float x 3) as [y|e]; [|discriminate].
    cbn [bind ret] in E. now injection E as _ ->. }
  apply Hf in T1, T2.
  apply (HR k1' k2' (Z.of_nat (occurrences k1 lists))
           (Z.of_nat (occurrences k2 lists)) (Z.of_nat (List.length lists)));
    auto; lia.
Qed.

(** X17: the fractions of a rating never go up from one pair to the
    next. *)
Theorem skills_rating_fractions_descend : forall df specialization pairs,
  skills_rating df specialization = inl pairs ->
  ForallOrdPairs fraction_not_above pairs.
Proof.
  intros df specialization pairs H.
  apply (@rating_lifts fraction_not_above df specialization pairs);
    [|exact H].
  intros k1 k2 n1 n2 total f1 f2 H2 H12 Ht E1 E2.
  unfold fraction_not_above. cbn [snd].
  apply (@fraction_of_mono n2 n1 total f2 f1); assumption.
Qed.

Lemma skills_rating_fractions_descend_witness :
  exists pairs,
    skills_rating tied_skills_table (u "Data Analyst") = inl pairs
    /\ List.length pairs = 4%nat
    /\ ForallOrdPairs fraction_not_above pairs.
Proof.
  destruct (skills_rating tied_skills_table (u "Data Analyst"))
    as [pairs|e] eqn:E; [|vm_compute in E; discriminate].
  exists pairs. split; [reflexivity|]. split.
  - vm_compute in E. injection E as <-. reflexivity.
  - exact (@skills_rating_fractions_descend tied_skills_table
             (u "Data Analyst") pairs E).
Defined.

(** X19: [skills_rating] returns a rating, and raises nothing, for every
    table in which the category lists fewer than [2^1000] skills in
    all. *)
Theorem skills_rating_returns : forall df specialization,
  (Z.of_nat (List.length (List.concat (skill_lists df specialization)))
   < 2 ^ 1000)%Z ->
  exists pairs, skills_rating df specialization = inl pairs.
Proof.
  intros df specialization Hsize. rewrite skills_rating_unfold.
  set (lists := skill_lists df specialization) in *.
  destruct (@comprehension_total _ _
              (fun '(skill, number) =>
                 x <- int_truediv number (Z.of_nat (List.length lists)) ;;
                 f <- round_float x 3 ;; ret (skill, f))
              (fun _ : str * float => True)
              (sorted_desc (Counter (List.concat lists))))
    as (pairs & E & _); [|exists pairs; exact E].
  intros [k n] Hin. apply counted_pair in Hin. destruct Hin as [Hpos ->].
  assert (0 < Z.of_nat (List.length lists))%Z as Ht.
  { destruct lists as [|l lists']; [|simpl; lia].
    unfold occurrences in Hpos. simpl in Hpos. lia. }
  assert (occurrences k lists <= List.length (List.concat lists))%nat as Hle
    by apply count_occ_bound.
  destruct (@fraction_of_small (Z.of_nat (occurrences k lists))
              (Z.of_nat (List.length lists))) as (f & Ef); try lia.
  unfold fraction_of in Ef.
  destruct (int_truediv (Z.of_nat (occurrences k lists))
              (Z.of_nat (List.length lists))) as [x|e]; [|discriminate].
  cbn [bind] in *. rewrite Ef. cbn [bind ret]. exists (k, f). auto.
Qed.

Lemma skills_rating_returns_witness :
  exists pairs, skills_rating tied_skills_table (u "Data Analyst") = inl pairs.
Proof.
  apply (@skills_rating_returns tied_skills_table (u "Data Analyst")).
  vm_compute. reflexivity.
Defined.

(** ** Charts *)

Lemma insert_asc_In : forall x y l,
  In x (insert_asc y l) <-> x = y \/ In x l.
Proof.
  intros x y. induction l as [|z l IH]; simpl.
  - intuition.
  - destruct (snd y <=? snd z)%Z; simpl; [intuition|].
    rewrite IH. intuition.
Qed.

Lemma sorted_asc_In : forall x l, In x (sorted_asc l) <-> In x l.
Proof.
  intros x. induction l as [|y l IH]; simpl; [reflexivity|].
  rewrite insert_asc_In, IH. intuition.
Qed.

Lemma insert_asc_total : forall x l,
  total_count (insert_asc x l) = (snd x + total_count l)%Z.
Proof.
  intros x. unfold total_count. induction l as [|y l IH]; [reflexivity|].
  cbn [insert_asc]. destruct (snd x <=? snd y)%Z; [reflexivity|].
  cbn [map fold_right] in *. rewrite IH. lia.
Qed.

Lemma sorted_asc_total : forall l, total_count (sorted_asc l) = total_count l.
Proof.
  induction l as [|x l IH]; [reflexivity|].
  cbn [sorted_asc fold_right]. rewrite insert_asc_total.
  fold (sorted_asc l). rewrite IH. reflexivity.
Qed.

Lemma counter_add_total : forall x c,
  total_count (counter_add x c) = (total_count c + 1)%Z.
Proof.
  intros x. unfold total_count. induction c as [|[k n] c IH]; [reflexivity|].
  cbn [counter_add]. destruct (str_eqb k x); cbn [map fold_right snd] in *.
  - lia.
  - rewrite IH. lia.
Qed.

Lemma Counter_total : forall l,
  total_count (Counter l) = Z.of_nat (List.length l).
Proof.
  intros l. unfold Counter.
  assert (forall l2 c,
            total_count (fold_left (fun c k => counter_add k c) l2 c)
            = (total_count c + Z.of_nat (List.length l2))%Z) as H.
  { induction l2 as [|x l2 IH]; intros c; cbn [fold_left List.length].
    - lia.
    - rewrite IH, counter_add_total. lia. }
  rewrite H. reflexivity.
Qed.

Lemma insert_asc_NoDup : forall x l,
  NoDup (map fst (x :: l)) -> NoDup (map fst (insert_asc x l)).
Proof.
  intros x. induction l as [|y l IH]; intros H; [exact H|].
  cbn [insert_asc]. destruct (snd x <=? snd y)%Z; [exact H|].
  cbn [map] in *. inversion H as [|? ? Hx H']; subst.
  inversion H' as [|? ? Hy H'']; subst. constructor.
  - intros Hin. apply in_map_iff in Hin. destruct Hin as (z & E & Hz).
    apply insert_asc_In in Hz. destruct Hz as [->|Hz].
    + apply Hx. left. now symmetry.
    + apply Hy. apply in_map_iff. exists z. split; assumption.
  - apply IH. constructor; [|exact H'']. intros Hin. apply Hx. now right.
Qed.

Lemma sorted_asc_NoDup : forall l,
  NoDup (map fst l) -> NoDup (map fst (sorted_asc l)).
Proof.
  induction l as [|x l IH]; intros H; [exact H|].
  cbn [sorted_asc fold_right]. apply insert_asc_NoDup. cbn [map] in *.
  inversion H as [|? ? Hx H']; subst. constructor; [|now apply IH].
  intros Hin. apply Hx. apply in_map_iff in Hin.
  destruct Hin as (y & E & Hy). apply (proj1 (sorted_asc_In _ _)) in Hy.
  apply in_map_iff. exists y. split; assumption.
Qed.

Lemma insert_asc_sorted : forall x l,
  ForallOrdPairs (fun a b : str * Z => (snd a <= snd b)%Z) l ->
  ForallOrdPairs (fun a b : str * Z => (snd a <= snd b)%Z) (insert_asc x l).
Proof.
  intros x l H. induction H as [|y l Hy Hl IH].
  - repeat constructor.
  - cbn [insert_asc]. destruct (Z.leb_spec (snd x) (snd y)) as [Hle|Hgt].
    + constructor; [|constructor; assumption].
      constructor; [exact Hle|]. rewrite Forall_forall in *. intros z Hz.
      specialize (Hy z Hz). lia.
    + constructor; [|exact IH].
      apply Forall_forall. intros z Hz. apply insert_asc_In in Hz.
      destruct Hz as [->|Hz]; [lia|].
      rewrite Forall_forall in Hy. now apply Hy.
Qed.

Lemma sorted_asc_sorted : forall l,
  ForallOrdPairs (fun a b : str * Z => (snd a <= snd b)%Z) (sorted_asc l).
Proof.
  induction l as [|x l IH]; [constructor|].
  cbn [sorted_asc fold_right]. now apply insert_asc_sorted.
Qed.

(** The bars of a column: one per distinct value, as high as the value is
    frequent, the lowest first; the heights add up to the number of
    rows. *)
Lemma bars_of_column : forall column,
  let data := sorted_asc (Counter column) in
  NoDup (map fst data)
  /\ (forall k, In k (map fst data) <-> In k column)
  /\ (forall k n, In (k, n) data -> n = rows_with k column)
  /\ ForallOrdPairs Z.le (map snd data)
  /\ total_count data = Z.of_nat (List.length column).
Proof.
  intros column data.
  destruct (Counter_counts column) as (ND & Hkeys & Hc).
  split; [now apply sorted_asc_NoDup|]. split; [|split; [|split]].
  - intros k. split.
    + intros Hin. apply in_map_iff in Hin. destruct Hin as ([k' n] & <- & Hin).
      apply (proj1 (sorted_asc_In _ _)) in Hin. now apply Hc in Hin.
    + intros Hin. apply Hkeys in Hin. apply in_map_iff in Hin.
      destruct Hin as (x & <- & Hx). apply in_map. now apply sorted_asc_In.
  - intros k n Hin. apply (proj1 (sorted_asc_In _ _)) in Hin.
    now apply Hc in Hin.
  - apply FOP_map. apply sorted_asc_sorted.
  - unfold data. now rewrite sorted_asc_total, Counter_total.
Qed.

(** X23: [plot_vacancies] and [plot_work_format] draw one bar per distinct
    value of their column, as high as the number of rows that hold the
    value, the lowest bar first; the heights add up to the number of
    rows. *)
Theorem plot_vacancies_bars : forall column,
  plot_work_format column = plot_vacancies column
  /\ List.length (bar_x (plot_vacancies column))
     = List.length (bar_y (plot_vacancies column))
  /\ NoDup (bar_x (plot_vacancies column))
  /\ (forall k, In k (bar_x (plot_vacancies column)) <-> In k column)
  /\ (forall k n,
        In (k, n) (combine (bar_x (plot_vacancies column))
                     (bar_y (plot_vacancies column))) ->
        n = rows_with k column)
  /\ ForallOrdPairs Z.le (bar_y (plot_vacancies column))
  /\ fold_right Z.add 0%Z (bar_y (plot_vacancies column))
     = Z.of_nat (List.length column).
Proof.
  intros column. destruct (bars_of_column column) as (H1 & H2 & H3 & H4 & H5).
  unfold plot_vacancies, plot_work_format. cbn [bar_x bar_y].
  split; [reflexivity|]. split; [now rewrite !length_map|].
  split; [exact H1|]. split; [exact H2|]. split; [|split; assumption].
  intros k n Hin. apply H3.
  assert (forall (l : list (str * Z)), combine (map fst l) (map snd l) = l)
    as Hc.
  { induction l as [|[a b] l IH]; [reflexivity|]. simpl. now rewrite IH. }
  change (fun value : str * Z => fst value) with (@fst str Z) in Hin.
  change (fun value : str * Z => snd value) with (@snd str Z) in Hin.
  now rewrite Hc in Hin.
Qed.

(** ** The map of cities *)

Ltac split_z :=
  repeat (cbv beta iota; cbn [andb orb negb];
          match goal with
          | |- context [(?a <=? ?b)%Z] =>
              destruct (Z.leb_spec a b); try (exfalso; lia)
          | |- context [(?a <? ?b)%Z] =>
              destruct (Z.ltb_spec a b); try (exfalso; lia)
          end);
  cbv beta iota; cbn [andb orb negb].

(** X24: the colour and the radius of a marker go by the same bands: two
    counts get the same radius exactly when they get the same colour. *)
Theorem city_color_radius : forall n m,
  city_radius n = city_radius m <-> city_color n = city_color m.
Proof.
  intros n m. unfold city_radius, city_color.
  split_z; split; intros Heq; try reflexivity;
    exfalso; vm_compute in Heq; discriminate.
Qed.

(** X25: the radius grows with the number of vacancies, except at exactly
    1000 vacancies, which no band covers: the marker then has the
    smallest radius, like a city with fewer than 10 vacancies. *)
Theorem city_radius_steps :
  (forall n m, (n <= m)%Z -> m <> 1000%Z -> (city_radius n <= city_radius m)%Z)
  /\ (forall n, city_radius n = 4%Z <-> (n < 10)%Z \/ n = 1000%Z)
  /\ (forall n, city_color n = u "white" <-> (n < 10)%Z \/ n = 1000%Z).
Proof.
  split; [|split].
  - intros n m Hnm Hm. unfold city_radius. split_z; lia.
  - intros n. unfold city_radius. split_z; split; intros Heq; try lia;
      try discriminate.
  - intros n. unfold city_color.
    split_z; split; intros Heq; try lia; try reflexivity;
      exfalso; vm_compute in Heq; discriminate.
Qed.

Section MapMarkers.
  Variable Place : Type.
  Variable geocode : str -> option Place.

(** X26: the map gets one marker for each distinct city of the column that
    the geocoder finds, with the city as tooltip, the number of its rows
    as popup and the radius and colour of that number; the cities the
    geocoder does not find are left out. *)
Theorem plot_map_markers : forall df_city,
  NoDup (map (@tooltip Place) (plot_map geocode df_city))
  /\ forall marker,
       In marker (plot_map geocode df_city) <->
       exists city place,
         In city df_city /\ geocode city = Some place
         /\ marker = city_marker city place (rows_with city df_city).
Proof.
  intros df_city. unfold plot_map. cbv zeta.
  destruct (Counter_counts df_city) as (ND & Hkeys & Hc).
  apply sorted_desc_NoDup in ND.
  assert (forall k n, In (k, n) (sorted_desc (Counter df_city)) ->
            In k df_city /\ n = rows_with k df_city) as Hc'.
  { intros k n Hin. apply (proj1 (sorted_desc_In _ _)) in Hin.
    now apply Hc in Hin. }
  assert (forall k, In k df_city ->
            In (k, rows_with k df_city) (sorted_desc (Counter df_city)))
    as Hk'.
  { intros k Hin. apply Hkeys in Hin. apply in_map_iff in Hin.
    destruct Hin as ([k' n] & E & Hin). cbn [fst] in E. subst k'.
    apply sorted_desc_In. destruct (Hc _ _ Hin) as [_ ->]. exact Hin. }
  clear Hc Hkeys. split.
  - revert ND. generalize (sorted_desc (Counter df_city)) as data.
    induction data as [|[k n] data IH]; intros ND; [constructor|].
    cbn [map fst] in ND. inversion ND as [|? ? Hk ND']; subst.
    cbn [flat_map]. destruct (geocode k) as [place|]; [|now apply IH].
    cbn [app map tooltip]. constructor; [|now apply IH].
    intros Hin. apply Hk. apply in_map_iff in Hin.
    destruct Hin as (mk & E & Hin). apply in_flat_map in Hin.
    destruct Hin as ([k' n'] & Hin & Hmk).
    destruct (geocode k') as [place'|]; [|destruct Hmk].
    destruct Hmk as [<-|[]]. cbn [tooltip] in E. subst k'.
    apply in_map_iff. exists (k, n'). split; [reflexivity|exact Hin].
  - intros marker. rewrite in_flat_map. split.
    + intros ([k n] & Hin & Hmk). destruct (Hc' _ _ Hin) as [Hk ->].
      destruct (geocode k) as [place|] eqn:G; [|destruct Hmk].
      destruct Hmk as [<-|[]]. exists k, place. auto.
    + intros (city & place & Hin & G & ->).
      exists (city, rows_with city df_city). split; [now apply Hk'|].
      rewrite G. now left.
Qed.
End MapMarkers.

(** ** Date parsing: days that the month does not have *)

Section DayRange.
  Variable U : unicode_db.

  Local Arguments is_space : simpl never.
  Local Arguments unicode_digit : simpl never.

Lemma strptime_make_date : forall d m y,
  (1 <= d <= 31)%Z -> (1 <= m <= 12)%Z -> (1 <= y <= 9999)%Z ->
  strptime_dmY U (str_of_int d ++ 32%N :: str_of_int m ++ 32%N :: year_text y)
  = make_date y m d.
Proof.
  intros d m y Hd Hm Hy.
  destruct (@year_digits y ltac:(lia)) as (Ha & Hb & Hc & Hd' & _).
  destruct (digit_char_facts U Ha) as (_ & Ia & Sa).
  destruct (digit_char_facts U Hb) as (_ & Ib & _).
  destruct (digit_char_facts U Hc) as (_ & Ic & _).
  destruct (digit_char_facts U Hd') as (_ & Id & _).
  unfold strptime_dmY.
  change (year_text y) with
    [digit_char (y / 1000); digit_char ((y / 100) mod 10);
     digit_char ((y / 10) mod 10); digit_char (y mod 10)].
  rewrite (@match_dmY U d m _ _ _ _ Hd Hm Ia Ib Ic Id Sa).
  cbn [m_rest group_or_empty group_text m_groups Nat.eqb].
  change [digit_char (y / 1000); digit_char ((y / 100) mod 10);
          digit_char ((y / 10) mod 10); digit_char (y mod 10)]
    with (year_text y).
  rewrite (@int_of_year U y ltac:(lia)). cbn [bind].
  rewrite (@int_of_small U m ltac:(lia)). cbn [bind].
  rewrite (@int_of_small U d ltac:(lia)). cbn [bind].
  reflexivity.
Qed.

Lemma str_to_date_make_date : forall d m y,
  (1 <= d <= 31)%Z -> (1 <= m <= 12)%Z -> (1 <= y <= 9999)%Z ->
  str_to_date U (date_text d m y) = make_date y m d.
Proof.
  intros d m y Hd Hm Hy.
  destruct (month_name_facts Hm) as (Hw & Hne & Hget).
  assert (plain (u " " ++ year_text y)) as Hpost.
  { destruct (@year_digits y ltac:(lia)) as (Ha & Hb & Hc & Hd' & _).
    constructor; [reflexivity|].
    repeat (constructor; [now apply digit_char_plain|]). constructor. }
  assert (date_text d m y
          = (str_of_int d ++ u " ") ++ month_name m ++ (u " " ++ year_text y))
    as -> by (unfold date_text; now rewrite <- app_assoc).
  unfold str_to_date.
  destruct (@one_word U (str_of_int d ++ u " ") (month_name m)
              (u " " ++ year_text y) (str_of_int m)
              (@day_text_plain d Hd) Hw Hne Hpost) as [Ef Es].
  cbv zeta. rewrite Ef. cbn [List.concat]. rewrite app_nil_r, Hget.
  cbn [bind]. rewrite Es.
  rewrite <- app_assoc. now apply strptime_make_date.
Qed.

(** X11: a text of the form day, month name, four-digit year whose day
    (at most 31) is beyond the length of the month is refused with
    [ValueError]. *)
Theorem str_to_date_day_out_of_range : forall d m y,
  (1 <= m <= 12)%Z -> (1 <= y <= 9999)%Z ->
  (days_in_month y m < d <= 31)%Z ->
  str_to_date U (date_text d m y) = inr ValueError.
Proof.
  intros d m y Hm Hy Hd.
  assert (1 <= days_in_month y m)%Z as Hpos.
  { unfold days_in_month. destruct (m =? 2)%Z; [destruct (is_leap y); lia|].
    destruct ((m =? 4) || (m =? 6) || (m =? 9) || (m =? 11))%Z; lia. }
  rewrite str_to_date_make_date by lia. unfold make_date.
  destruct (Z.leb_spec d (days_in_month y m)) as [|_]; [lia|].
  now rewrite !andb_false_r.
Qed.
End DayRange.

Lemma str_to_date_day_out_of_range_witness :
  date_text 29 2 2023 = u "29 февраля 2023"
  /\ str_to_date plain_unicode (date_text 29 2 2023) = inr ValueError.
Proof.
  split; [vm_compute; reflexivity|].
  apply (@str_to_date_day_out_of_range plain_unicode 29 2 2023);
    [lia|lia|vm_compute; split; [reflexivity|discriminate]].
Defined.

(** ** Saving and loading *)

Lemma date_char_cases : forall c,
  date_char c = true ->
  c = 45%N \/ c = 48%N \/ c = 49%N \/ c = 50%N \/ c = 51%N \/ c = 52%N
  \/ c = 53%N \/ c = 54%N \/ c = 55%N \/ c = 56%N \/ c = 57%N.
Proof.
  intros c H. unfold date_char, ascii_digit, in_range in H.
  destruct (N.leb_spec 48 c), (N.leb_spec c 57), (N.eqb_spec c 45);
    try discriminate; lia.
Qed.

Lemma postfix_date : forall r w,
  forallb date_char w = true -> Pattern.postfix r w = (r, w).
Proof.
  intros r [|c w] H; [reflexivity|].
  cbn [forallb] in H. apply andb_prop in H. destruct H as [H _].
  apply date_char_cases in H.
  repeat (destruct H as [->|H]; [reflexivity|]). subst c. reflexivity.
Qed.

(** A text of digits and hyphens is read as the pattern of its
    characters. *)
Lemma parse_seq_date : forall w fuel n acc,
  forallb date_char w = true -> List.length w < fuel ->
  Pattern.parse_seq fuel w n acc = Some (cat (rev acc ++ map Lit w), [], n).
Proof.
  induction w as [|c w IH]; intros fuel n acc Hw Hf;
    (destruct fuel as [|fuel]; [simpl in Hf; lia|]).
  - cbn [Pattern.parse_seq map]. now rewrite app_nil_r.
  - cbn [forallb] in Hw. apply andb_prop in Hw. destruct Hw as [Hc Hw].
    assert (Pattern.parse_seq (S fuel) (c :: w) n acc
            = let '(r', s'') := Pattern.postfix (Lit c) w in
              Pattern.parse_seq fuel s'' n (r' :: acc)) as ->.
    { apply date_char_cases in Hc.
      repeat (destruct Hc as [->|Hc]; [reflexivity|]). subst c. reflexivity. }
    rewrite (postfix_date (Lit c) w Hw).
    rewrite IH by (auto; simpl in Hf; lia).
    cbn [rev map]. now rewrite <- app_assoc.
Qed.

Lemma compile_text_date : forall w,
  forallb date_char w = true -> compile_text w = Some (cat (map Lit w)).
Proof.
  intros w H. unfold compile_text.
  replace (2 * List.length w + 2) with (S (2 * List.length w + 1)) by lia.
  cbn [Pattern.parse_alt].
  rewrite parse_seq_date by (auto; lia). reflexivity.
Qed.

Section Literal.
  Variable U : unicode_db.

Lemma denote_cat_lits : forall w x y,
  denote U false (cat (map Lit w)) x y <->
  denote U false (lits_then w Empty) x y.
Proof.
  induction w as [|c w IH]; intros x y; [reflexivity|].
  destruct w as [|c2 w].
  - cbn [map cat lits_then fold_right denote]. split.
    + intros H. exists y. auto.
    + intros (m & H & ->). exact H.
  - change (cat (map Lit (c :: c2 :: w)))
      with (Seq (Lit c) (cat (map Lit (c2 :: w)))).
    change (lits_then (c :: c2 :: w) Empty)
      with (Seq (Lit c) (lits_then (c2 :: w) Empty)).
    cbn [denote]. split; intros (m & H1 & H2); exists m; split; auto;
      now apply IH.
Qed.

Lemma same_word_exact : forall w w', same_word U false w w' <-> w' = w.
Proof.
  intros w w'. unfold same_word. split.
  - intros H. induction H as [|c ch w w' Hc _ IH]; [reflexivity|].
    unfold lit_match in Hc. cbn [andb] in Hc. apply N.eqb_eq in Hc.
    now subst.
  - intros ->. induction w as [|c w IH]; constructor; [|exact IH].
    unfold lit_match. cbn [andb]. apply N.eqb_refl.
Qed.

(** The pattern of the characters of [w] is found in the texts that
    contain [w]. *)
Lemma search_literal : forall w t,
  re_search U false (cat (map Lit w)) t = is_infix w t.
Proof.
  intros w t.
  assert (re_search U false (cat (map Lit w)) t = true
          <-> is_infix w t = true) as H.
  { rewrite re_search_accepts, is_infix_iff. split.
    - intros (pre & suf & -> & y & Hy). apply denote_cat_lits in Hy.
      apply denote_lits_then in Hy. destruct Hy as (w' & b & -> & Hw & _).
      apply same_word_exact in Hw. subst w'. eauto.
    - intros (a & b & ->). exists a, (w ++ b). split; [reflexivity|].
      exists (last_char (last_char None a) w, b). apply denote_cat_lits.
      apply denote_lits_then. exists w, b.
      split; [reflexivity|]. split; [now apply same_word_exact|reflexivity]. }
  destruct (re_search U false (cat (map Lit w)) t), (is_infix w t);
    try reflexivity; [symmetry|]; now apply H.
Qed.

(** X21: for a date text of digits and hyphens, [download_data] reads the
    files of the directory whose name contains that text, and only
    them. *)
Theorem download_data_files_by_date : forall date fs,
  forallb date_char date = true ->
  download_data_files U date fs
  = Some (filter (fun file => is_infix date file) (listdir fs)).
Proof.
  intros date fs H. unfold download_data_files.
  rewrite (compile_text_date date H). f_equal.
  apply filter_ext. intros file. apply search_literal.
Qed.
End Literal.

(** *** The files written *)

Lemma read_write_same : forall name text fs,
  read_file name (write_file name text fs) = Some text.
Proof.
  intros name text. induction fs as [|[n t] fs IH]; cbn [write_file read_file].
  - now rewrite (proj2 (str_eqb_eq name name) eq_refl).
  - destruct (str_eqb n name) eqn:E; cbn [read_file]; now rewrite E.
Qed.

Lemma read_write_other : forall name name' text fs,
  name' <> name ->
  read_file name' (write_file name text fs) = read_file name' fs.
Proof.
  intros name name' text fs Hne.
  induction fs as [|[n t] fs IH]; cbn [write_file read_file].
  - now rewrite (proj2 (str_eqb_neq name name')) by congruence.
  - destruct (str_eqb n name) eqn:E; cbn [read_file].
    + apply str_eqb_eq in E. subst n.
      now rewrite (proj2 (str_eqb_neq name name')) by congruence.
    + now rewrite IH.
Qed.

Lemma digit_char_digit : forall n,
  (0 <= n <= 9)%Z -> date_char (digit_char n) = true.
Proof. intros n Hn. enumerate n; reflexivity. Qed.

(** The decimal text of a number holds digits, after a hyphen when the
    number is negative. *)
Lemma uint_chars : forall d,
  forallb date_char
    (utf8_decode
       (map N_of_ascii (list_ascii_of_string (NilEmpty.string_of_uint d)))
       0 0%N) = true.
Proof. induction d; cbn; auto. Qed.

Lemma str_of_int_chars : forall n, forallb date_char (str_of_int n) = true.
Proof.
  intros n. unfold str_of_int, u, NilZero.string_of_int.
  destruct (Z.to_int n) as [d|d].
  - unfold NilZero.string_of_uint. destruct d; try apply uint_chars.
    reflexivity.
  - change (list_ascii_of_string (String "-" (NilZero.string_of_uint d)))
      with ("-"%char :: list_ascii_of_string (NilZero.string_of_uint d)).
    cbn [map utf8_decode]. change (N_of_ascii "-" <? 128)%N with true.
    cbv iota. cbn [forallb].
    change (date_char (N_of_ascii "-")) with true. cbn [andb].
    unfold NilZero.string_of_uint. destruct d; try apply uint_chars.
    reflexivity.
Qed.

(** The text of the year 999 has three digits. *)
Lemma strftime_early_day : strftime_dmY early_day = u "15-03-999".
Proof. vm_compute. reflexivity. Qed.

Lemma strftime_chars : forall d,
  printable_date d -> forallb date_char (strftime_dmY d) = true.
Proof.
  intros d (Hd & Hm & Hy). unfold strftime_dmY, two_digits.
  assert (forall n, (0 <= n <= 99)%Z ->
            (0 <= n / 10 <= 9)%Z /\ (0 <= n mod 10 <= 9)%Z) as H2
    by (intros n Hn; Z.to_euclidean_division_equations; lia).
  destruct (H2 _ Hd) as [D1 D2]. destruct (H2 _ Hm) as [M1 M2].
  rewrite !forallb_app. cbn [map forallb].
  rewrite !digit_char_digit by assumption. rewrite str_of_int_chars.
  reflexivity.
Qed.

Section SavedFiles.
  Variable U : unicode_db.
  Variable requests_get : str -> Response.
  Variable to_csv : list Row -> str.
  Variable today : nat -> date.

Lemma saved_name_inj : forall e1 e2 d,
  saved_name e1 d = saved_name e2 d -> e1 = e2.
Proof.
  intros e1 e2 d H. unfold saved_name in H.
  now apply app_inv_tail in H.
Qed.

(** Levels saved later leave the files of the other levels alone. *)
Lemma later_levels_keep : forall fuel vacancies days_period d name
  experience n fs fs',
  (forall i, i < List.length experience -> today (n + i) = d) ->
  (forall e, In e experience -> saved_name e d <> name) ->
  get_and_save_data U requests_get to_csv today fuel vacancies experience
    days_period n fs = Some fs' ->
  read_file name fs' = read_file name fs.
Proof.
  intros fuel vacancies days_period d name.
  induction experience as [|e rest IH]; intros n fs fs' Hday Hother H.
  - cbn [get_and_save_data] in H. now injection H as <-.
  - cbn [get_and_save_data] in H.
    destruct (get_all_vacancies U requests_get vacancies e days_period fuel 0)
      as [table|]; [|discriminate].
    apply IH in H.
    + rewrite H. apply read_write_other.
      pose proof (Hday 0 ltac:(simpl; lia)) as H0. rewrite Nat.add_0_r in H0.
      rewrite H0. intros E. apply (Hother e); [now left|].
      unfold saved_name. now symmetry.
    + intros i Hi. replace (S n + i) with (n + S i) by lia.
      apply Hday. simpl. lia.
    + intros e' He'. apply Hother. now right.
Qed.

(** A file once written stays listed. *)
Lemma listdir_write : forall name text name' fs,
  name' = name \/ In name' (listdir fs) ->
  In name' (listdir (write_file name text fs)).
Proof.
  intros name text name'. unfold listdir.
  induction fs as [|[n t] fs IH]; intros H; cbn [write_file map fst].
  - destruct H as [->|[]]. now left.
  - destruct (str_eqb n name) eqn:E; cbn [map fst In].
    + apply str_eqb_eq in E. subst n. cbn [map fst In] in H.
      destruct H as [->|[->|H]]; auto.
    + cbn [map fst In] in H. destruct H as [->|[->|H]]; auto.
Qed.

Lemma later_levels_listed : forall fuel vacancies days_period name
  experience n fs fs',
  get_and_save_data U requests_get to_csv today fuel vacancies experience
    days_period n fs = Some fs' ->
  In name (listdir fs) -> In name (listdir fs').
Proof.
  intros fuel vacancies days_period name.
  induction experience as [|e rest IH]; intros n fs fs' H Hin;
    cbn [get_and_save_data] in H.
  - now injection H as <-.
  - destruct (get_all_vacancies U requests_get vacancies e days_period fuel 0)
      as [table|]; [|discriminate].
    apply (IH _ _ _ H). apply listdir_write. now right.
Qed.

Lemma saved_name_listed : forall fuel vacancies days_period d experience
  n fs fs',
  (forall i, i < List.length experience -> today (n + i) = d) ->
  get_and_save_data U requests_get to_csv today fuel vacancies experience
    days_period n fs = Some fs' ->
  forall exp, In exp experience -> In (saved_name exp d) (listdir fs').
Proof.
  intros fuel vacancies days_period d.
  induction experience as [|e rest IH]; intros n fs fs' Hday H exp Hin;
    [destruct Hin|].
  cbn [get_and_save_data] in H.
  destruct (get_all_vacancies U requests_get vacancies e days_period fuel 0)
    as [table|]; [|discriminate].
  destruct Hin as [->|Hin].
  - apply (@later_levels_listed fuel vacancies days_period
             (saved_name exp d) rest (S n) _ fs' H).
    apply listdir_write. left.
    pose proof (Hday 0 ltac:(simpl; lia)) as H0. rewrite Nat.add_0_r in H0.
    now rewrite H0.
  - apply (IH (S n) _ fs' ltac:(intros i Hi;
                                  replace (S n + i) with (n + S i) by lia;
                                  apply Hday; simpl; lia) H exp Hin).
Qed.

(** X20: once [get_and_save_data] has returned, on one day, the directory
    holds for each experience level the file named by the level and the
    date, with the CSV text of the table of the vacancies found for that
    level. *)
Theorem get_and_save_data_files : forall fuel vacancies days_period d
  experience n fs fs',
  (forall i, i < List.length experience -> today (n + i) = d) ->
  get_and_save_data U requests_get to_csv today fuel vacancies experience
    days_period n fs = Some fs' ->
  forall exp, In exp experience ->
    exists table,
      get_all_vacancies U requests_get vacancies exp days_period fuel 0
      = Some table
      /\ read_file (exp ++ u "_" ++ strftime_dmY d) fs'
         = Some (to_csv (get_vacancy_info requests_get (map id table))).
Proof.
  intros fuel vacancies days_period d.
  induction experience as [|e rest IH]; intros n fs fs' Hday H exp Hin;
    [destruct Hin|].
  change (exp ++ u "_" ++ strftime_dmY d) with (saved_name exp d).
  cbn [get_and_save_data] in H.
  destruct (get_all_vacancies U requests_get vacancies e days_period fuel 0)
    as [table|] eqn:Et; [|discriminate].
  assert (forall i, i < List.length rest -> today (S n + i) = d) as Hday'.
  { intros i Hi. replace (S n + i) with (n + S i) by lia.
    apply Hday. simpl. lia. }
  destruct (in_dec str_eq_dec exp rest) as [Hrest|Hnot].
  - now apply (IH (S n) _ fs' Hday' H).
  - destruct Hin as [->|Hin]; [|contradiction].
    exists table. split; [exact Et|].
    assert (forall e', In e' rest -> saved_name e' d <> saved_name exp d)
      as Hother.
    { intros e' He' E. apply saved_name_inj in E. now subst. }
    rewrite (@later_levels_keep fuel vacancies days_period d
               (saved_name exp d) rest (S n) _ fs' Hday' Hother H).
    pose proof (Hday 0 ltac:(simpl; lia)) as H0. rewrite Nat.add_0_r in H0.
    rewrite H0. apply read_write_same.
Qed.

(** X22: [download_data], called with the text of that day, reads each of
    the files that [get_and_save_data] wrote. *)
Theorem saved_files_are_read : forall fuel vacancies days_period d
  experience n fs fs',
  printable_date d ->
  (forall i, i < List.length experience -> today (n + i) = d) ->
  get_and_save_data U requests_get to_csv today fuel vacancies experience
    days_period n fs = Some fs' ->
  exists files,
    download_data_files U (strftime_dmY d) fs' = Some files
    /\ forall exp, In exp experience ->
         In (exp ++ u "_" ++ strftime_dmY d) files.
Proof.
  intros fuel vacancies days_period d experience n fs fs' Hd Hday H.
  unfold download_data_files.
  rewrite (compile_text_date (strftime_dmY d) (strftime_chars Hd)).
  eexists. split; [reflexivity|]. intros exp Hin.
  apply filter_In. split.
  - apply (@saved_name_listed fuel vacancies days_period d experience n fs
             fs' Hday H exp Hin).
  - rewrite search_literal. apply is_infix_iff. exists (exp ++ u "_"), [].
    now rewrite app_nil_r, <- app_assoc.
Qed.
End SavedFiles.

Lemma download_data_files_by_date_witness :
  download_data_files plain_unicode (u "15-03-2024") example_directory
  = Some [u "noExperience_15-03-2024"; u "old_15-03-2024.bak"].
Proof.
  rewrite (@download_data_files_by_date plain_unicode (u "15-03-2024")
             example_directory eq_refl).
  reflexivity.
Defined.

Lemma get_and_save_data_files_witness :
  exists fs',
    get_and_save_data plain_unicode one_page ids_csv (fun _ => example_day) 5
      [u "data analyst"] [u "noExperience"; u "between1And3"] 1 0 []
    = Some fs'
    /\ exists table,
         get_all_vacancies plain_unicode one_page [u "data analyst"]
           (u "noExperience") 1 5 0 = Some table
         /\ read_file (u "noExperience_15-03-2024") fs'
            = Some (ids_csv (get_vacancy_info one_page (map id table))).
Proof.
  destruct (get_and_save_data plain_unicode one_page ids_csv
              (fun _ => example_day) 5 [u "data analyst"]
              [u "noExperience"; u "between1And3"] 1 0 []) as [fs'|] eqn:E;
    [|vm_compute in E; discriminate].
  exists fs'. split; [reflexivity|].
  apply (@get_and_save_data_files plain_unicode one_page ids_csv
           (fun _ => example_day) 5 [u "data analyst"] 1%Z example_day
           [u "noExperience"; u "between1And3"] 0 [] fs'
           (fun _ _ => eq_refl) E (u "noExperience")).
  left. reflexivity.
Defined.

Lemma saved_files_are_read_witness :
  exists fs' files,
    get_and_save_data plain_unicode one_page ids_csv (fun _ => example_day) 5
      [u "data analyst"] [u "noExperience"; u "between1And3"] 1 0
      example_directory
    = Some fs'
    /\ download_data_files plain_unicode (u "15-03-2024") fs' = Some files
    /\ forall exp, In exp [u "noExperience"; u "between1And3"] ->
         In (exp ++ u "_15-03-2024") files.
Proof.
  destruct (get_and_save_data plain_unicode one_page ids_csv
              (fun _ => example_day) 5 [u "data analyst"]
              [u "noExperience"; u "between1And3"] 1 0 example_directory)
    as [fs'|] eqn:E; [|vm_compute in E; discriminate].
  destruct (@saved_files_are_read plain_unicode one_page ids_csv
              (fun _ => example_day) 5 [u "data analyst"] 1%Z example_day
              [u "noExperience"; u "between1And3"] 0 example_directory fs')
    as (files & Hf & Hin).
  - repeat split; vm_compute; discriminate.
  - intros i _. reflexivity.
  - exact E.
  - exists fs', files. split; [reflexivity|]. split; [exact Hf|exact Hin].
Defined.

(** ** The chart of skills *)

Lemma float_0_05_nearest : nearest_float false 1 20 = inl float_0_05.
Proof. vm_compute. reflexivity. Qed.

Lemma float_100_exact : int_truediv 100 1 = inl float_100.
Proof. vm_compute. reflexivity. Qed.

Section Normal.
  Open Scope Z_scope.

Lemma pow2_mono : forall s t, s <= t -> pow2 s <= pow2 t.
Proof. intros s t H. unfold pow2. apply Z.pow_le_mono_r; lia. Qed.

Lemma nearest_float_normal : forall a b x,
  0 < a -> 0 < b -> nearest_float false a b = inl x -> normal x.
Proof.
  intros a b x Ha Hb H. rewrite nearest_float_parts in H. cbv zeta in H.
  pose proof (quotient_mantissa_nonneg Ha Hb) as Hm.
  pose proof (quotient_mantissa_le Ha Hb) as Hle.
  destruct (Z.eqb_spec (quotient_mantissa a b) (2 ^ 53)) as [E|NE].
  - change (2 ^ 52 =? 0) with false in H. cbv iota in H.
    destruct (971 <? quotient_exponent a b + 1); [discriminate|].
    injection H as <-. right. eexists _, _. split; [reflexivity|].
    change (Z.pos (Z.to_pos (2 ^ 52))) with (2 ^ 52). lia.
  - destruct (Z.eqb_spec (quotient_mantissa a b) 0) as [Z0|NZ];
      [injection H as <-; now left|].
    destruct (971 <? quotient_exponent a b); [discriminate|].
    injection H as <-. right. eexists _, _. split; [reflexivity|].
    rewrite Z2Pos.id by lia. split; [lia|].
    destruct (Z.eq_dec (quotient_exponent a b) (quotient_floor a b - 52))
      as [Ee|Ne].
    + left. now apply quotient_mantissa_ge.
    + right. unfold quotient_exponent in *. lia.
Qed.

Lemma round_float_normal : forall x f,
  normal x -> round_float x 3 = inl f -> normal f.
Proof.
  intros x f [->|(m & e & -> & _)] E; cbn [round_float] in E.
  - injection E as <-. now left.
  - destruct (Z.eqb_spec
                (div_half_even (Z.pos m * pow2 e * 10 ^ 3) (pow2 (- e))) 0)
      as [K|K]; [injection E as <-; now left|].
    assert (0 <= div_half_even (Z.pos m * pow2 e * 10 ^ 3) (pow2 (- e))).
    { pose proof (pow2_pos e). pose proof (pow2_pos (- e)).
      apply div_half_even_nonneg; [|lia].
      change (10 ^ 3) with 1000. nia. }
    apply nearest_float_normal in E; [exact E|lia|reflexivity].
Qed.

Lemma fraction_of_normal : forall n total f,
  0 < n -> 0 < total -> fraction_of n total = inl f -> normal f.
Proof.
  intros n total f Hn Ht E. unfold fraction_of, int_truediv in E.
  destruct (Z.eqb_spec total 0); [lia|]. destruct (Z.eqb_spec n 0); [lia|].
  destruct (Z.ltb_spec n 0); [lia|]. destruct (Z.ltb_spec total 0); [lia|].
  cbn [xorb] in E. rewrite !Z.abs_eq in E by lia.
  destruct (nearest_float false n total) as [x|] eqn:X; [|discriminate].
  cbn [bind] in E. apply nearest_float_normal in X; [|assumption..].
  now apply (@round_float_normal x f).
Qed.

Lemma compare_cont_Eq : forall p q,
  PosDef.Pos.compare_cont Eq p q = Z.compare (Z.pos p) (Z.pos q).
Proof. reflexivity. Qed.

(** On canonical numbers the comparison of floats is the comparison of
    their values. *)
Lemma float_ge_value : forall x,
  normal x ->
  float_ge x float_0_05 = true
  <-> (float_to_Q float_0_05 <= float_to_Q x)%Q.
Proof.
  intros x [->|(m & e & -> & Hm & Hn)].
  - split; [discriminate|]. intros H. vm_compute in H. now elim H.
  - unfold float_ge, float_0_05, Qle.
    cbn [SFcompare float_to_Q Qnum Qden].
    change (pow2 (- -57)) with 144115188075855872.
    change (pow2 (-57)) with 1.
    change (Z.pos (Z.to_pos 144115188075855872)) with 144115188075855872.
    change (2 ^ 53) with 9007199254740992 in Hm.
    change (2 ^ 52) with 4503599627370496 in Hn.
    pose proof (pow2_pos e) as Pe. pose proof (pow2_pos (- e)) as Pn.
    rewrite Z2Pos.id by exact Pn.
    destruct (Z.compare_spec e (-57)) as [->|Hlt|Hgt].
    + clear Pe Pn. change (pow2 (-57)) with 1.
      change (pow2 (- -57)) with 144115188075855872.
      rewrite compare_cont_Eq.
      destruct (Z.compare_spec (Z.pos m) 7205759403792794) as [Hp|Hp|Hp].
      * split; [intros _; lia|reflexivity].
      * split; [discriminate|intros Hv; lia].
      * split; [intros _; lia|reflexivity].
    + split; [discriminate|]. intros Hv. exfalso.
      rewrite (@pow2_nonpos e) in Hv by lia.
      pose proof (@pow2_mono 58 (- e) ltac:(lia)) as Hp.
      change (pow2 58) with 288230376151711744 in Hp. lia.
    + split; [intros _|reflexivity].
      pose proof (@pow2_mono (- e) 56 ltac:(lia)) as Hp.
      change (pow2 56) with 72057594037927936 in Hp.
      assert (Z.pos m <= Z.pos m * pow2 e) by nia.
      destruct Hn as [Hn|Hn]; lia.
Qed.
End Normal.

(** The charted pairs come first in a rating: a pair behind a charted
    one has no more occurrences, hence no greater a fraction. *)
Lemma filter_none : forall (A : Type) (p : A -> bool) l,
  Forall (fun a => p a = false) l -> filter p l = [].
Proof.
  intros A p l H. induction H as [|a l Ha _ IH]; [reflexivity|].
  cbn [filter]. now rewrite Ha.
Qed.

Lemma filter_prefix : forall (A : Type) (p : A -> bool) l,
  ForallOrdPairs (fun a b => p b = true -> p a = true) l ->
  exists n, filter p l = firstn n l
    /\ Forall (fun a => p a = true) (firstn n l)
    /\ Forall (fun a => p a = false) (skipn n l).
Proof.
  intros A p l H. induction H as [|a l Ha _ IH].
  - exists 0. repeat constructor.
  - destruct (p a) eqn:Ea.
    + destruct IH as (n & Ef & Ht & Hf). exists (S n).
      cbn [filter firstn skipn]. rewrite Ea, Ef.
      split; [reflexivity|]. split; [now constructor|exact Hf].
    + exists 0. cbn [firstn skipn].
      assert (Forall (fun b => p b = false) (a :: l)) as Hall.
      { constructor; [exact Ea|]. rewrite Forall_forall in *.
        intros b Hb. destruct (p b) eqn:Eb; [|reflexivity].
        discriminate (Ha b Hb Eb). }
      split; [now apply filter_none|]. split; [constructor|exact Hall].
Qed.

Lemma rating_cut : forall df specialization rating,
  skills_rating df specialization = inl rating ->
  exists n, filter charted rating = firstn n rating
    /\ Forall (fun p => charted p = true) (firstn n rating)
    /\ Forall (fun p => charted p = false) (skipn n rating).
Proof.
  intros df specialization rating H. apply filter_prefix.
  apply (@rating_lifts (fun a b => charted b = true -> charted a = true)
           df specialization rating); [|exact H].
  intros k1 k2 n1 n2 total f1 f2 H2 H12 Ht E1 E2. unfold charted. cbn [snd].
  pose proof (@fraction_of_normal n1 total f1 ltac:(lia) Ht E1) as N1.
  pose proof (@fraction_of_normal n2 total f2 H2 Ht E2) as N2.
  rewrite (float_ge_value N1), (float_ge_value N2). intros Hc.
  apply Qle_trans with (1 := Hc).
  apply (@fraction_of_mono n2 n1 total f2 f1); assumption.
Qed.

(** X27: each figure that [plot_skills] shows is that of the
    specialization at its place in the list, and charts the first pairs
    of the rating of that specialization, in the order of the rating:
    the pairs up to the last whose fraction is at least 0.05, each with
    its fraction times 100.  No pair behind them reaches 0.05. *)
Theorem plot_skills_top : forall df specializations i chart,
  nth_error (fst (plot_skills df specializations)) i = Some chart ->
  exists spec rating n,
    nth_error specializations i = Some spec
    /\ skills_rating df spec = inl rating
    /\ title chart = u "The necessary skills for " ++ spec
    /\ barh_y chart = map fst (firstn n rating)
    /\ barh_width chart
       = map (fun p => float_mul (snd p) float_100) (firstn n rating)
    /\ Forall (fun p => float_ge (snd p) float_0_05 = true) (firstn n rating)
    /\ Forall (fun p => float_ge (snd p) float_0_05 = false)
         (skipn n rating).
Proof.
  intros df. induction specializations as [|spec rest IH]; intros i chart H.
  - destruct i; discriminate.
  - cbn [plot_skills] in H.
    destruct (skills_rating df spec) as [rating|e] eqn:Er;
      [|destruct i; discriminate].
    destruct (plot_skills df rest) as [shown outcome] eqn:Es.
    cbn [fst] in H, IH. destruct i as [|i].
    + cbn [nth_error] in H. injection H as <-.
      destruct (@rating_cut df spec rating Er) as (n & Ef & Ht & Hf).
      exists spec, rating, n. cbn [title barh_y barh_width nth_error].
      assert (filter (fun '(_, pop) => float_ge pop float_0_05) rating
              = firstn n rating) as ->.
      { rewrite <- Ef. apply filter_ext. now intros [skill pop]. }
      rewrite !map_map.
      repeat (split; [first [reflexivity | assumption
                             | apply map_ext; now intros [skill pop]]|]).
      exact Hf.
    + cbn [nth_error] in H. destruct (IH i chart H)
        as (spec' & rating' & n & H1 & H2). exists spec', rating', n.
      split; [exact H1|exact H2].
Qed.

Lemma plot_skills_top_witness :
  exists chart,
    nth_error (fst (plot_skills long_tail_table [u "Data Analyst"])) 0
    = Some chart
    /\ barh_y chart = [u "SQL"]
    /\ exists spec rating n,
         nth_error [u "Data Analyst"] 0 = Some spec
         /\ skills_rating long_tail_table spec = inl rating
         /\ title chart = u "The necessary skills for " ++ spec
         /\ barh_y chart = map fst (firstn n rating)
         /\ barh_width chart
            = map (fun p => float_mul (snd p) float_100) (firstn n rating)
         /\ Forall (fun p => float_ge (snd p) float_0_05 = true)
              (firstn n rating)
         /\ Forall (fun p => float_ge (snd p) float_0_05 = false)
              (skipn n rating).
Proof.
  destruct (nth_error (fst (plot_skills long_tail_table [u "Data Analyst"])) 0)
    as [chart|] eqn:E; [|vm_compute in E; discriminate].
  exists chart. split; [reflexivity|]. split.
  - vm_compute in E. injection E as <-. reflexivity.
  - exact (@plot_skills_top long_tail_table [u "Data Analyst"] 0 chart E).
Defined.
